(** * Shop catalogue: domain model, sorting utilities, aggregation and graphs

    A shallow embedding of [models.py] and [analysis.py].

    Conventions of the embedding.
    - Python integers are [Z].  Monetary amounts ([price], [price_at_time],
      totals) are exact numbers, also in [Z]; rounding of binary floating
      point is outside the model.  Where pandas adds them up in a 64-bit
      column the sum wraps around as it does there.
    - A naive [datetime] is the number of microseconds elapsed since
      0001-01-01T00:00:00 in the proleptic Gregorian calendar, a [Z]; the
      order of datetimes is the order of [Z].
    - A method that mutates [self] is a function from the object before the
      call to the outcome of the call together with the object after it.
      A raised exception is the outcome [Raise]; whatever was assigned
      before the [raise] statement stays assigned.
    - An order line holds the [Product] it references as the value that
      reference has when the line is read.
    - A Python string is a [string] holding its UTF-8 encoding.  Where the
      characters matter, in the check of telephone numbers, they are read
      off the encoding. *)

From Stdlib Require Import ZArith Lia Ascii String.
From Equations Require Import Equations.
From stdpp Require Import gmap strings list fin_maps sorting.

#[local] Set Warnings "-clear-no-such-hyp".

Open Scope Z_scope.

(** ** Exceptions and outcomes *)

(** Every [raise] of the two modules raises [ValueError]; the constructor
    argument tells the raise sites apart (the source distinguishes them by
    message only).  [KeyError] is what pandas raises for a missing column. *)
Inductive raise_site :=
| bad_email | bad_phone | negative_price | negative_stock
| insufficient_stock | non_positive_quantity | product_unavailable.

Inductive exn :=
| ValueError (site : raise_site)
| KeyError (key : string).

Inductive outcome (A : Type) :=
| Return (a : A)
| Raise (e : exn).
Arguments Return {A} a.
Arguments Raise {A} e.

(** A method on an object of type [S] returning an [A]. *)
Definition method (S A : Type) : Type := S -> outcome A * S.

Definition is_return {A} (r : outcome A) : bool :=
  match r with Return _ => true | Raise _ => false end.

#[global] Instance raise_site_eq_dec : EqDecision raise_site.
Proof. solve_decision. Defined.
#[global] Instance exn_eq_dec : EqDecision exn.
Proof. solve_decision. Defined.

(** ** models.py *)

(** A [Customer], with the attributes of [Person].  The list [orders] of the
    orders of the customer is left out: an [Order] holds its customer, and
    nothing below reads the list. *)
Record Customer := {
  customer_id : Z;
  name : string;
  email : string;
  phone : string;
  address : string;
  city : string;
  registration_date : Z
}.

(** A [Product]; its attribute [name] is the field [product_name]. *)
Record Product := {
  product_id : Z;
  product_name : string;
  price : Z;
  category : string;
  description : string;
  stock : Z
}.

(** [Product.__init__] *)
Definition Product_new (product_id : Z) (name : string) (price : Z)
    (category description : string) (stock : Z) : outcome Product :=
  if price <? 0 then Raise (ValueError negative_price)
  else if stock <? 0 then Raise (ValueError negative_stock)
  else Return {| product_id := product_id; product_name := name;
                 price := price; category := category;
                 description := description; stock := stock |}.

Definition set_stock (self : Product) (s : Z) : Product :=
  {| product_id := product_id self; product_name := product_name self;
     price := price self; category := category self;
     description := description self; stock := s |}.

(** [Product.update_stock] *)
Definition update_stock (quantity : Z) : method Product bool :=
  fun self =>
    let new_stock := stock self + quantity in
    if new_stock <? 0 then (Raise (ValueError insufficient_stock), self)
    else (Return true, set_stock self new_stock).

(** [Product.is_available] *)
Definition is_available (self : Product) (quantity : Z) : bool :=
  quantity <=? stock self.

(** A caller that performs the calls [update_stock d] for the [d] of a list,
    one after the other, going on after a call that raised.  The result is
    the outcome of every call and the product after it. *)
Fixpoint update_stock_calls (self : Product) (deltas : list Z)
    : list (outcome bool * Product) :=
  match deltas with
  | [] => []
  | d :: ds =>
      let r := update_stock d self in
      r :: update_stock_calls (snd r) ds
  end.

(** ** Order lines and orders *)

Record OrderItem := {
  product : Product;
  quantity : Z;
  price_at_time : Z
}.

(** [OrderItem.__init__]; [price_at_time = None] takes the product's price. *)
Definition OrderItem_new (product : Product) (quantity : Z)
    (price_at_time : option Z) : outcome OrderItem :=
  if quantity <=? 0 then Raise (ValueError non_positive_quantity)
  else Return {| product := product; quantity := quantity;
                 price_at_time := match price_at_time with
                                  | Some pr => pr
                                  | None => price product
                                  end |}.

(** [OrderItem.get_total] *)
Definition item_total (self : OrderItem) : Z :=
  price_at_time self * quantity self.

Definition item_pid (it : OrderItem) : Z := product_id (product it).

Record Order := {
  order_id : Z;
  customer : Customer;
  order_date : Z;
  items : list OrderItem;
  status : string
}.

(** [Order.__init__]; [now] is the value of [datetime.now()] at the call. *)
Definition Order_new (order_id : Z) (customer : Customer)
    (order_date : option Z) (now : Z) : Order :=
  {| order_id := order_id; customer := customer;
     order_date := match order_date with Some d => d | None => now end;
     items := []; status := "Новый" |}.

Definition set_items (self : Order) (its : list OrderItem) : Order :=
  {| order_id := order_id self; customer := customer self;
     order_date := order_date self; items := its; status := status self |}.

Definition add_quantity (it : OrderItem) (q : Z) : OrderItem :=
  {| product := product it; quantity := quantity it + q;
     price_at_time := price_at_time it |}.

(** The [for item in self.items] loop of [add_item]: the first line of the
    product gets [quantity] added and the loop returns; [None] when the loop
    runs to its end without finding one. *)
Fixpoint merge_line (its : list OrderItem) (pid quantity : Z)
    : option (list OrderItem) :=
  match its with
  | [] => None
  | it :: rest =>
      if item_pid it =? pid then Some (add_quantity it quantity :: rest)
      else option_map (cons it) (merge_line rest pid quantity)
  end.

(** [Order.add_item] *)
Definition add_item (p : Product) (quantity : Z) : method Order unit :=
  fun self =>
    if negb (is_available p quantity)
    then (Raise (ValueError product_unavailable), self)
    else match merge_line (items self) (product_id p) quantity with
         | Some its => (Return tt, set_items self its)
         | None =>
             match OrderItem_new p quantity None with
             | Raise e => (Raise e, self)
             | Return order_item =>
                 (Return tt, set_items self (items self ++ [order_item]))
             end
         end.

(** The [enumerate] loop of [remove_item]: delete the first matching line. *)
Fixpoint delete_line (its : list OrderItem) (pid : Z)
    : option (list OrderItem) :=
  match its with
  | [] => None
  | it :: rest =>
      if item_pid it =? pid then Some rest
      else option_map (cons it) (delete_line rest pid)
  end.

(** [Order.remove_item] *)
Definition remove_item (pid : Z) : method Order bool :=
  fun self =>
    match delete_line (items self) pid with
    | Some its => (Return true, set_items self its)
    | None => (Return false, self)
    end.

Fixpoint sumZ (l : list Z) : Z :=
  match l with
  | [] => 0
  | x :: xs => x + sumZ xs
  end.

(** [Order.get_total] and [Order.get_items_count] *)
Definition get_total (self : Order) : Z := sumZ (item_total <$> items self).
Definition get_items_count (self : Order) : Z := sumZ (quantity <$> items self).

(** The product ids of the lines of an order, in line order. *)
Definition line_ids (its : list OrderItem) : list Z := item_pid <$> its.

(** The lines of one product. *)
Definition lines_of (pid : Z) (its : list OrderItem) : list OrderItem :=
  filter (fun it => item_pid it = pid) its.
Definition lines_but (pid : Z) (its : list OrderItem) : list OrderItem :=
  filter (fun it => item_pid it <> pid) its.

(** Sample objects used to run the definitions. *)
Definition ivan : Customer :=
  {| customer_id := 1; name := "Ivan"; email := "ivan@example.com";
     phone := "+7(999)123-45-67"; address := ""; city := "Moscow";
     registration_date := 0 |}.

Definition laptop : Product :=
  {| product_id := 1; product_name := "laptop"; price := 50000;
     category := "electronics"; description := ""; stock := 10 |}.

Definition mouse : Product :=
  {| product_id := 2; product_name := "mouse"; price := 2000;
     category := "accessories"; description := ""; stock := 25 |}.

(** ** analysis.py: the two sorting functions *)

(** The recursion of [quicksort_orders_by_date] terminates because both
    comprehensions it recurses on leave out the pivot. *)

(** A value together with the equation that says what it is the value of. *)
Definition inspect {A : Type} (x : A) : {y : A | x = y} := exist _ x eq_refl.

(** [quicksort_orders_by_date].  [orders !! i] is [orders[i]]; the lookup of
    the middle index cannot fail on a list of two or more orders. *)
Equations? quicksort_orders_by_date (orders : list Order) (reverse : bool)
    : list Order by wf (length orders) lt :=
  quicksort_orders_by_date orders reverse
    with decide (length orders <= 1)%nat := {
    | left _ => orders
    | right _ with inspect (orders !! (length orders `div` 2)%nat) := {
      | exist _ None _ => orders
      | exist _ (Some pivot) Hpivot with reverse := {
        | true =>
            quicksort_orders_by_date
              (filter (fun x => order_date x > order_date pivot) orders) true
            ++ filter (fun x => order_date x = order_date pivot) orders
            ++ quicksort_orders_by_date
                 (filter (fun x => order_date x < order_date pivot) orders) true
        | false =>
            quicksort_orders_by_date
              (filter (fun x => order_date x < order_date pivot) orders) false
            ++ filter (fun x => order_date x = order_date pivot) orders
            ++ quicksort_orders_by_date
                 (filter (fun x => order_date x > order_date pivot) orders) false } } }.
Proof.
  all: apply (length_filter_lt _ _ pivot);
    [ eapply list_elem_of_lookup_2; eassumption | lia ].
Qed.

(** The comparison of the loop of [merge_two_sorted_lists]: [>=] on the
    totals when [reverse], [<=] otherwise. *)
Definition takes_left (reverse : bool) (l r : Order) : bool :=
  if reverse then get_total r <=? get_total l
  else get_total l <=? get_total r.

(** [merge_two_sorted_lists].  The arguments [lhs] and [rhs] are the parts
    [left[i:]] and [right[j:]] still to be merged; the two [extend] calls after the loop are
    the clauses for an exhausted side. *)
Equations? merge_two_sorted_lists (lhs rhs : list Order) (reverse : bool)
    : list Order by wf (length lhs + length rhs)%nat lt :=
  merge_two_sorted_lists [] rhs _ := rhs;
  merge_two_sorted_lists lhs [] _ := lhs;
  merge_two_sorted_lists (a :: lhs) (b :: rhs) reverse
    with takes_left reverse a b := {
    | true => a :: merge_two_sorted_lists lhs (b :: rhs) reverse
    | false => b :: merge_two_sorted_lists (a :: lhs) rhs reverse }.
Proof. all: simpl; lia. Qed.

(** [merge_sort_orders_by_total]; [take mid] is [orders[:mid]] and [drop mid]
    is [orders[mid:]]. *)
Equations? merge_sort_orders_by_total (orders : list Order) (reverse : bool)
    : list Order by wf (length orders) lt :=
  merge_sort_orders_by_total orders reverse
    with decide (length orders <= 1)%nat := {
    | left _ => orders
    | right _ =>
        merge_two_sorted_lists
          (merge_sort_orders_by_total
             (take (length orders `div` 2)%nat orders) reverse)
          (merge_sort_orders_by_total
             (drop (length orders `div` 2)%nat orders) reverse)
          reverse }.
Proof.
  all: assert (Hmid : (0 < length orders `div` 2 < length orders)%nat)
    by (split; [apply Nat.div_str_pos | apply Nat.div_lt]; lia).
  - rewrite length_take. lia.
  - rewrite length_drop. lia.
Qed.

(** The reference: a stable sort by a key, ascending, or descending when
    [reverse]; equal keys keep their input order in both directions, as with
    [sorted(orders, key=..., reverse=...)]. *)
Definition in_order (reverse : bool) (k1 k2 : Z) : Prop :=
  if reverse then k2 <= k1 else k1 <= k2.

#[global] Instance in_order_dec reverse k1 k2 : Decision (in_order reverse k1 k2).
Proof. unfold in_order. destruct reverse; apply _. Defined.

Fixpoint insert_stable (key : Order -> Z) (reverse : bool) (x : Order)
    (l : list Order) : list Order :=
  match l with
  | [] => [x]
  | y :: l' =>
      if decide (in_order reverse (key x) (key y)) then x :: y :: l'
      else y :: insert_stable key reverse x l'
  end.

Fixpoint reference_sort (key : Order -> Z) (reverse : bool)
    (l : list Order) : list Order :=
  match l with
  | [] => []
  | x :: l' => insert_stable key reverse x (reference_sort key reverse l')
  end.

Definition mk_order (id date : Z) (its : list OrderItem) : Order :=
  {| order_id := id; customer := ivan; order_date := date;
     items := its; status := "Новый" |}.

(** The elements of a list with a given key, in list order.  Two lists have
    the same elements in the same relative order among equal keys exactly
    when all their groups are equal. *)
Definition group (key : Order -> Z) (k : Z) (l : list Order) : list Order :=
  filter (fun x => key x = k) l.

Definition sorted_by (key : Order -> Z) (reverse : bool) (l : list Order) : Prop :=
  StronglySorted (fun x y => in_order reverse (key x) (key y)) l.

(** ** analysis.py: DataAnalyzer *)

(** *** Calendar periods

    The day, the week (Monday to Sunday, as pandas' [to_period('W')]) and the
    month of a datetime.  Day 0 is 0001-01-01, a Monday. *)
Definition us_per_day : Z := 86400000000.

Definition day_number (t : Z) : Z := t `div` us_per_day.

Definition is_leap (y : Z) : bool :=
  (y `mod` 4 =? 0) && (negb (y `mod` 100 =? 0) || (y `mod` 400 =? 0)).

Definition days_in_month (y m : Z) : Z :=
  if m =? 2 then (if is_leap y then 29 else 28)
  else if (m =? 4) || (m =? 6) || (m =? 9) || (m =? 11) then 30
  else 31.

(** The year of a day number and the day's position in that year, by the
    400-, 100-, 4- and 1-year cycles of the Gregorian calendar. *)
Definition year_of_day (n : Z) : Z * Z :=
  let n400 := n `div` 146097 in
  let r400 := n `mod` 146097 in
  let n100 := r400 `div` 36524 in
  let r100 := r400 `mod` 36524 in
  let n4 := r100 `div` 1461 in
  let r4 := r100 `mod` 1461 in
  let n1 := r4 `div` 365 in
  let r1 := r4 `mod` 365 in
  let year := n400 * 400 + n100 * 100 + n4 * 4 + n1 + 1 in
  if (n1 =? 4) || (n100 =? 4) then (year - 1, 365) else (year, r1).

Fixpoint month_in_year (y day_of_year : Z) (months : list Z) : Z :=
  match months with
  | [] => 12
  | m :: ms =>
      if day_of_year <? days_in_month y m then m
      else month_in_year y (day_of_year - days_in_month y m) ms
  end.

(** Months counted from year 0: [12 * year + (month - 1)]. *)
Definition month_number (t : Z) : Z :=
  let '(y, d) := year_of_day (day_number t) in
  12 * y + (month_in_year y d [1; 2; 3; 4; 5; 6; 7; 8; 9; 10; 11; 12] - 1).

Definition week_number (t : Z) : Z := day_number t `div` 7.

(** The value of the [period] column: a date, a weekly or a monthly period. *)
Inductive period_label :=
| Day (n : Z)
| Week (n : Z)
| Month (n : Z).

Definition period_index (p : period_label) : Z :=
  match p with Day n | Week n | Month n => n end.

(** The [if period == 'weekly' ... elif ... else] of [get_sales_dynamics]. *)
Definition period_of (period : string) (t : Z) : period_label :=
  if String.eqb period "weekly" then Week (week_number t)
  else if String.eqb period "monthly" then Month (month_number t)
  else Day (day_number t).

(** *** 64-bit columns

    The columns [total] and [items_count] of the frame of the orders hold
    the integers [get_total()] and [get_items_count()] return.  pandas keeps
    such a column as [int64] when every value in it fits, and
    [groupby(...).agg('sum')] then adds in [int64] too: a sum that leaves the
    64 bits wraps around.  [int64 x] is the 64-bit signed integer that [x]
    wraps to. *)
Definition int64 (x : Z) : Z := (x + 2 ^ 63) `mod` 2 ^ 64 - 2 ^ 63.

Definition fits_int64 (x : Z) : Prop := - 2 ^ 63 <= x < 2 ^ 63.

Module Sales.
(** A row of the frame returned by [get_sales_dynamics]. *)
Record row := {
  period : period_label;
  orders_count : Z;
  total_revenue : Z;
  total_items : Z
}.
End Sales.

(** [df.groupby('period').agg({'order_id': 'count', 'total': 'sum',
    'items_count': 'sum'})]: one row for each period that occurs, rows in
    ascending order of the period.  [group_order] puts one order into the
    rows built so far.  The two sums are 64-bit sums, for orders whose totals
    and item counts fit in 64 bits, which is what the theorems on this frame
    ask of the orders (with a larger value pandas gives the column another
    type).  The count of a group is the number of orders of a list and stays
    far below 64 bits. *)
Definition first_in_period (p : period_label) (o : Order) : Sales.row :=
  {| Sales.period := p; Sales.orders_count := 1;
     Sales.total_revenue := get_total o;
     Sales.total_items := get_items_count o |}.

Definition next_in_period (r : Sales.row) (o : Order) : Sales.row :=
  {| Sales.period := Sales.period r;
     Sales.orders_count := Sales.orders_count r + 1;
     Sales.total_revenue := int64 (Sales.total_revenue r + get_total o);
     Sales.total_items := int64 (Sales.total_items r + get_items_count o) |}.

Fixpoint group_order (p : period_label) (o : Order) (rows : list Sales.row)
    : list Sales.row :=
  match rows with
  | [] => [first_in_period p o]
  | r :: rs =>
      if period_index p <? period_index (Sales.period r)
      then first_in_period p o :: r :: rs
      else if period_index p =? period_index (Sales.period r)
      then next_in_period r o :: rs
      else r :: group_order p o rs
  end.

Definition groupby_period (key : Order -> period_label) (orders : list Order)
    : list Sales.row :=
  fold_left (fun rows o => group_order (key o) o rows) orders [].

(** [DataAnalyzer.get_sales_dynamics]; the frame of an analyzer without
    orders is empty and is returned as it is. *)
Definition get_sales_dynamics (orders : list Order) (period : string)
    : list Sales.row :=
  match orders with
  | [] => []
  | _ => groupby_period (fun o => period_of period (order_date o)) orders
  end.

(** *** Reading the frame *)

#[global] Instance period_label_eq_dec : EqDecision period_label.
Proof. solve_decision. Defined.

(** The period of an order under a selector, and the orders of a period. *)
Definition order_period (period : string) (o : Order) : period_label :=
  period_of period (order_date o).

Definition orders_in (period : string) (p : period_label) (orders : list Order)
    : list Order :=
  filter (fun o => order_period period o = p) orders.

(** The exact sum of a column ([f] is [get_total] or [get_items_count]) over
    the orders of a period. *)
Definition period_sum (f : Order -> Z) (period : string) (orders : list Order)
    (p : period_label) : Z :=
  sumZ (f <$> orders_in period p orders).

(** No 64-bit sum of the column [f] overflows: every value fits, and so does
    its sum over the period of every order. *)
Definition no_overflow (f : Order -> Z) (period : string) (orders : list Order)
    : Prop :=
  Forall (fun o => fits_int64 (f o) /\
                   fits_int64 (period_sum f period orders (order_period period o)))
    orders.

(** The 64-bit sum of the values [l] added one by one to [a]. *)
Definition sum64 (a : Z) (l : list Z) : Z :=
  fold_left (fun a x => int64 (a + x)) l a.

(** The row of a period in a frame, if it has one. *)
Fixpoint row_at (i : Z) (rows : list Sales.row) : option Sales.row :=
  match rows with
  | [] => None
  | r :: rs => if period_index (Sales.period r) =? i then Some r else row_at i rs
  end.

Definition ascending_periods (rows : list Sales.row) : Prop :=
  StronglySorted
    (fun r1 r2 => period_index (Sales.period r1) < period_index (Sales.period r2))
    rows.

(** The row [groupby] makes of the orders [os] of one period, from the row
    [acc] it had made of the earlier ones. *)
Definition aggregate (key : Order -> period_label) (os : list Order)
    (acc : option Sales.row) : option Sales.row :=
  fold_left
    (fun acc o => Some (match acc with
                        | Some r => next_in_period r o
                        | None => first_in_period (key o) o
                        end))
    os acc.

(** *** Per-product statistics *)

Module ProductSales.
(** A value of the dictionary [product_stats]. *)
Record stats := {
  name : string;
  category : string;
  quantity : Z;
  revenue : Z;
  orders : Z
}.

(** A row of the frame returned by [get_product_sales_stats]. *)
Record row := {
  row_product_id : Z;
  row_name : string;
  row_category : string;
  quantity_sold : Z;
  row_revenue : Z;
  orders_count : Z
}.
End ProductSales.

(** The value the [defaultdict] makes for a product seen for the first time.
    It has no ['name'] and no ['category'] yet; both are assigned before they
    are read, so the empty string stands for the missing keys. *)
Definition fresh_stats : ProductSales.stats :=
  {| ProductSales.name := ""; ProductSales.category := "";
     ProductSales.quantity := 0; ProductSales.revenue := 0;
     ProductSales.orders := 0 |}.

(** The five assignments of the loop body for one line. *)
Definition count_line (s : ProductSales.stats) (item : OrderItem)
    : ProductSales.stats :=
  {| ProductSales.name := product_name (product item);
     ProductSales.category := category (product item);
     ProductSales.quantity := ProductSales.quantity s + quantity item;
     ProductSales.revenue := ProductSales.revenue s + item_total item;
     ProductSales.orders := ProductSales.orders s + 1 |}.

(** The dictionary is a list of entries in insertion order, which is the
    order Python iterates it in. *)
Fixpoint record_line (product_stats : list (Z * ProductSales.stats))
    (item : OrderItem) : list (Z * ProductSales.stats) :=
  match product_stats with
  | [] => [(item_pid item, count_line fresh_stats item)]
  | (k, s) :: rest =>
      if k =? item_pid item then (k, count_line s item) :: rest
      else (k, s) :: record_line rest item
  end.

Definition product_stats (orders : list Order) : list (Z * ProductSales.stats) :=
  fold_left (fun st o => fold_left record_line (items o) st) orders [].

Definition stats_row (e : Z * ProductSales.stats) : ProductSales.row :=
  {| ProductSales.row_product_id := fst e;
     ProductSales.row_name := ProductSales.name (snd e);
     ProductSales.row_category := ProductSales.category (snd e);
     ProductSales.quantity_sold := ProductSales.quantity (snd e);
     ProductSales.row_revenue := ProductSales.revenue (snd e);
     ProductSales.orders_count := ProductSales.orders (snd e) |}.

(** [DataAnalyzer.get_product_sales_stats].  [sort_values] stands for
    [DataFrame.sort_values('revenue', ascending=False)], whose order among
    equal revenues pandas leaves to the sorting algorithm.  A frame built from
    an empty list of records has no columns, and sorting it by ['revenue']
    raises [KeyError]. *)
Definition get_product_sales_stats
    (sort_values : list ProductSales.row -> list ProductSales.row)
    (orders : list Order) : outcome (list ProductSales.row) :=
  match stats_row <$> product_stats orders with
  | [] => Raise (KeyError "revenue")
  | data => Return (sort_values data)
  end.

(** What is assumed of [sort_values]: it permutes the rows and puts them in
    descending order of revenue. *)
Definition revenue_descending (rows : list ProductSales.row) : Prop :=
  StronglySorted
    (fun r1 r2 => ProductSales.row_revenue r2 <= ProductSales.row_revenue r1) rows.

Definition sorts_by_revenue
    (sort_values : list ProductSales.row -> list ProductSales.row) : Prop :=
  forall rows, sort_values rows ≡ₚ rows /\ revenue_descending (sort_values rows).

(** One such sort, by insertion. *)
Fixpoint insert_row (r : ProductSales.row) (rows : list ProductSales.row)
    : list ProductSales.row :=
  match rows with
  | [] => [r]
  | r' :: rest =>
      if ProductSales.row_revenue r' <=? ProductSales.row_revenue r
      then r :: r' :: rest
      else r' :: insert_row r rest
  end.

Definition insertion_sort_values (rows : list ProductSales.row)
    : list ProductSales.row :=
  foldr insert_row [] rows.

(** All the lines of all the orders, in the order the loops visit them. *)
Definition all_lines (orders : list Order) : list OrderItem :=
  orders ≫= items.

(** The entry of a key in a dictionary held as a list of entries. *)
Fixpoint entry {K V : Type} `{EqDecision K} (k : K) (d : list (K * V))
    : option V :=
  match d with
  | [] => None
  | (k', v) :: rest => if decide (k' = k) then Some v else entry k rest
  end.

(** The orders of the test suite: totals 50000, 2000 + 5000 and 2 * 2000. *)
Definition keyboard : Product :=
  {| product_id := 3; product_name := "keyboard"; price := 5000;
     category := "accessories"; description := ""; stock := 15 |}.

Definition line (p : Product) (q : Z) : OrderItem :=
  {| product := p; quantity := q; price_at_time := price p |}.

Definition test_orders : list Order :=
  [ mk_order 1 63809337600000000 [line laptop 1];
    mk_order 2 63809424000000000 [line mouse 1; line keyboard 1];
    mk_order 3 63809510400000000 [line mouse 2] ].

(** Two orders of 2023-01-15, each for one unit of a product priced at
    [2 ^ 62]. *)
Definition ingot : Product :=
  {| product_id := 4; product_name := "ingot"; price := 2 ^ 62;
     category := "metals"; description := ""; stock := 2 |}.

Definition big_orders : list Order :=
  [ mk_order 1 63809337600000000 [line ingot 1];
    mk_order 2 63809341200000000 [line ingot 1] ].

(** ** analysis.py: NetworkAnalyzer *)

(** The part of [networkx.Graph] the two builders use: an undirected graph
    with a dictionary of attributes on every node and every edge.  An edge is
    held once, under the pair of its end points with the smaller one first. *)
Module nx.
Record node_attr := { node_name : option string; node_city : option string }.
Record edge_attr := { weight : option Z; edge_city : option string }.
Record Graph := {
  nodes : gmap Z node_attr;
  edges : gmap (Z * Z) edge_attr
}.

#[global] Instance edge_attr_eq_dec : EqDecision edge_attr.
Proof. solve_decision. Defined.

Definition empty : Graph := {| nodes := ∅; edges := ∅ |}.

Definition ekey (u v : Z) : Z * Z := if u <=? v then (u, v) else (v, u).

Definition no_attr : node_attr := {| node_name := None; node_city := None |}.

(** [G.add_node(n, name=..., city=...)] *)
Definition add_node (n : Z) (name city : string) (G : Graph) : Graph :=
  {| nodes := <[n := {| node_name := Some name; node_city := Some city |}]> (nodes G);
     edges := edges G |}.

(** A node named by [add_edge] is created, without attributes, when the
    graph does not have it. *)
Definition touch (n : Z) (ns : gmap Z node_attr) : gmap Z node_attr :=
  match ns !! n with
  | Some _ => ns
  | None => <[n := no_attr]> ns
  end.

(** [dict.update]: the attributes given override the ones present. *)
Definition update_attr (old new : edge_attr) : edge_attr :=
  {| weight := match weight new with Some w => Some w | None => weight old end;
     edge_city := match edge_city new with Some c => Some c | None => edge_city old end |}.

(** [G.add_edge(u, v, **attr)] *)
Definition add_edge (u v : Z) (attr : edge_attr) (G : Graph) : Graph :=
  {| nodes := touch v (touch u (nodes G));
     edges := <[ekey u v :=
                 update_attr
                   (default {| weight := None; edge_city := None |}
                      (edges G !! ekey u v))
                   attr]> (edges G) |}.

(** [G.has_edge(u, v)] *)
Definition has_edge (u v : Z) (G : Graph) : bool :=
  bool_decide (is_Some (edges G !! ekey u v)).

(** [G[u][v]['weight'] += 1] on an edge that has a weight. *)
Definition increment_weight (u v : Z) (G : Graph) : Graph :=
  {| nodes := nodes G;
     edges := alter (fun e => {| weight := Z.succ <$> weight e;
                                 edge_city := edge_city e |})
                (ekey u v) (edges G) |}.
End nx.

(** The pairs [(l[i], l[j])] for [i < j], in the order of the two nested
    [range] loops. *)
Fixpoint pairs (l : list Z) : list (Z * Z) :=
  match l with
  | [] => []
  | x :: xs => (pair x <$> xs) ++ pairs xs
  end.

(** The body of the innermost loop of the first pass of
    [build_customer_product_graph] on the dictionary [product_customers]. *)
Fixpoint note_purchase (product_customers : list (Z * list Z))
    (product_id customer_id : Z) : list (Z * list Z) :=
  match product_customers with
  | [] => [(product_id, [customer_id])]
  | (k, cs) :: rest =>
      if decide (k = product_id)
      then (k, if decide (customer_id ∈ cs) then cs else cs ++ [customer_id]) :: rest
      else (k, cs) :: note_purchase rest product_id customer_id
  end.

(** The purchases, as pairs of a product id and a customer id, in the order
    the loops over the orders and their lines visit them. *)
Definition purchases (orders : list Order) : list (Z * Z) :=
  orders ≫= fun o => (fun it => (item_pid it, customer_id (customer o))) <$> items o.

Definition product_customers (orders : list Order) : list (Z * list Z) :=
  fold_left
    (fun pc o =>
       fold_left (fun pc item => note_purchase pc (item_pid item) (customer_id (customer o)))
         (items o) pc)
    orders [].

(** The body of the pair loop: increment the weight of the edge or make the
    edge with weight 1. *)
Definition link (G : nx.Graph) (c : Z * Z) : nx.Graph :=
  if nx.has_edge c.1 c.2 G then nx.increment_weight c.1 c.2 G
  else nx.add_edge c.1 c.2 {| nx.weight := Some 1; nx.edge_city := None |} G.

(** [NetworkAnalyzer.build_customer_product_graph] *)
Definition build_customer_product_graph (customers : list Customer)
    (orders : list Order) : nx.Graph :=
  let product_customers := product_customers orders in
  let G := fold_left (fun G c => nx.add_node (customer_id c) (name c) (city c) G)
             customers nx.empty in
  fold_left (fun G e => fold_left link (pairs e.2) G) product_customers G.

(** [city_customers[city].append(customer_id)] *)
Fixpoint note_city (city_customers : list (string * list Z))
    (city : string) (customer_id : Z) : list (string * list Z) :=
  match city_customers with
  | [] => [(city, [customer_id])]
  | (k, cs) :: rest =>
      if decide (k = city) then (k, cs ++ [customer_id]) :: rest
      else (k, cs) :: note_city rest city customer_id
  end.

(** The first loop of [build_customer_city_graph]; [if customer.city] holds
    for a string that is not empty. *)
Definition group_by_city (customers : list Customer)
    : list (string * list Z) * nx.Graph :=
  fold_left
    (fun st c =>
       if decide (city c = "") then st
       else (note_city st.1 (city c) (customer_id c),
             nx.add_node (customer_id c) (name c) (city c) st.2))
    customers ([], nx.empty).

Definition city_tag (city : string) : nx.edge_attr :=
  {| nx.weight := None; nx.edge_city := Some city |}.

(** [NetworkAnalyzer.build_customer_city_graph] *)
Definition build_customer_city_graph (customers : list Customer) : nx.Graph :=
  let '(city_customers, G) := group_by_city customers in
  fold_left
    (fun G e => fold_left (fun G c => nx.add_edge c.1 c.2 (city_tag e.1) G) (pairs e.2) G)
    city_customers G.

(** The products a customer has bought, according to a list of orders. *)
Definition purchased (orders : list Order) (c : Z) : gset Z :=
  list_to_set (filter (fun e => e.2 = c) (purchases orders)).*1.

Definition weighted (n : Z) : nx.edge_attr :=
  {| nx.weight := Some n; nx.edge_city := None |}.

Definition person (id : Z) (city : string) : Customer :=
  {| customer_id := id; name := "c"; email := "c@example.com";
     phone := "+79991234567"; address := ""; city := city;
     registration_date := 0 |}.

Definition order_of (id : Z) (c : Customer) (its : list OrderItem) : Order :=
  {| order_id := id; customer := c; order_date := 0; items := its;
     status := "Новый" |}.

(** The key of the edge a pair of customers stands for. *)
Definition pair_key (c : Z * Z) : Z * Z := nx.ekey c.1 c.2.

(** The edge with weight [n], and no edge for [n = 0]. *)
Definition edge_of_count (n : nat) : option nx.edge_attr :=
  match n with
  | O => None
  | S _ => Some (weighted (Z.of_nat n))
  end.

(** What the dictionary [product_customers] holds once the purchases [evs]
    are recorded: distinct keys, and for each product the customers who
    bought it, without repetition. *)
Definition records (pc : list (Z * list Z)) (evs : list (Z * Z)) : Prop :=
  NoDup pc.*1 /\
  forall p,
    match entry p pc with
    | Some cl => NoDup cl /\ forall c, c ∈ cl <-> (p, c) ∈ evs
    | None => forall c, (p, c) ∉ evs
    end.

(** Two customers who both bought the laptop and the mouse, the second one
    in two orders, and a third customer who bought the keyboard. *)
Definition shared_orders : list Order :=
  [ order_of 1 (person 1 "Moscow") [line laptop 1; line mouse 2];
    order_of 2 (person 2 "Moscow") [line mouse 1];
    order_of 3 (person 2 "Moscow") [line laptop 3; line mouse 1];
    order_of 4 (person 3 "Kazan") [line keyboard 1] ].

(** The customers of a city, by id, in list order. *)
Definition ids_in (ct : string) (customers : list Customer) : list Z :=
  customer_id <$> filter (fun c => city c = ct) customers.

Definition some_if_nonempty {A} (l : list A) : option (list A) :=
  match l with [] => None | _ => Some l end.

(** What the first loop of [build_customer_city_graph] has built after the
    customers [cs]. *)
Definition grouped (st : list (string * list Z) * nx.Graph)
    (cs : list Customer) : Prop :=
  NoDup st.1.*1 /\
  (forall ct, entry ct st.1 =
                if decide (ct = "") then None else some_if_nonempty (ids_in ct cs)) /\
  (forall n, is_Some (nx.nodes st.2 !! n) <->
             exists c, c ∈ cs /\ customer_id c = n /\ city c <> "") /\
  nx.edges st.2 = ∅.

(** The [add_edge] calls of the second loop, in order: the pair of customers
    and the city of each call. *)
Definition city_links (city_customers : list (string * list Z))
    : list ((Z * Z) * string) :=
  city_customers ≫= fun e => (fun c => (c, e.1)) <$> pairs e.2.

Definition tag_link (G : nx.Graph) (w : (Z * Z) * string) : nx.Graph :=
  nx.add_edge w.1.1 w.1.2 (city_tag w.2) G.

(** A graph whose edges carry a city and nothing else. *)
Definition tags_only (G : nx.Graph) : Prop :=
  forall k e, nx.edges G !! k = Some e -> exists ct, e = city_tag ct.

(** ** models.py: validation of e-mail addresses and telephone numbers *)

(** *** Regular expressions

    The two patterns are anchored on both sides, so [re.match] answers
    whether the whole string (up to a final newline, which [$] allows) is in
    the language of the pattern.  The matcher uses derivatives, over any type
    of characters. *)
Section Regex.
Context {C : Type}.

Inductive regex :=
| Void
| Eps
| Class (p : C -> bool)
| Cat (r s : regex)
| Alt (r s : regex)
| Star (r : regex).

Fixpoint nullable (r : regex) : bool :=
  match r with
  | Void => false
  | Eps => true
  | Class _ => false
  | Cat r s => nullable r && nullable s
  | Alt r s => nullable r || nullable s
  | Star _ => true
  end.

Fixpoint deriv (a : C) (r : regex) : regex :=
  match r with
  | Void => Void
  | Eps => Void
  | Class p => if p a then Eps else Void
  | Cat r s =>
      if nullable r then Alt (Cat (deriv a r) s) (deriv a s)
      else Cat (deriv a r) s
  | Alt r s => Alt (deriv a r) (deriv a s)
  | Star r => Cat (deriv a r) (Star r)
  end.

Fixpoint fullmatch (r : regex) (w : list C) : bool :=
  match w with
  | [] => nullable r
  | a :: w' => fullmatch (deriv a r) w'
  end.

(** [r+], [r{n}], [r{0,n}], [r{lo,hi}] and [r{n,}] *)
Definition plus (r : regex) : regex := Cat r (Star r).

Fixpoint power (n : nat) (r : regex) : regex :=
  match n with
  | O => Eps
  | S n => Cat r (power n r)
  end.

Fixpoint upto (n : nat) (r : regex) : regex :=
  match n with
  | O => Eps
  | S n => Alt Eps (Cat r (upto n r))
  end.

Definition between (lo hi : nat) (r : regex) : regex :=
  Cat (power lo r) (upto (hi - lo) r).

Definition at_least (n : nat) (r : regex) : regex := Cat (power n r) (Star r).

(** [re.match(pattern, s)] for a pattern of the form [^r$] and the
    characters [w] of [s]: [$] matches at the end of the string and before a
    newline that ends the string. *)
Definition match_to_end (is_newline : C -> bool) (r : regex) (w : list C) : bool :=
  fullmatch r w ||
  match last w with
  | Some c => is_newline c && fullmatch r (removelast w)
  | None => false
  end.

(** The language of a regular expression. *)
Inductive lang : regex -> list C -> Prop :=
| lang_eps : lang Eps []
| lang_class p a : p a = true -> lang (Class p) [a]
| lang_cat r s u v : lang r u -> lang s v -> lang (Cat r s) (u ++ v)
| lang_alt_l r s u : lang r u -> lang (Alt r s) u
| lang_alt_r r s u : lang s u -> lang (Alt r s) u
| lang_star_nil r : lang (Star r) []
| lang_star_cons r u v : lang r u -> lang (Star r) v -> lang (Star r) (u ++ v).

Definition all_in (p : C -> bool) (w : list C) : Prop :=
  Forall (fun a => p a = true) w.

(** What [match_to_end] lets through: a shape that ends at the end of the
    string or before its final newline. *)
Definition ends_with (is_newline : C -> bool) (shape : list C -> Prop)
    (w : list C) : Prop :=
  shape w \/ exists w' c, w = w' ++ [c] /\ is_newline c = true /\ shape w'.

End Regex.
Arguments regex : clear implicits.

(** *** Strings

    A Python string is held as its UTF-8 encoding, which is also how a
    string literal of this file is read; a byte that begins no well-formed
    sequence stands for a character of its own, U+DC00 plus the byte, as
    [bytes.decode('utf-8', 'surrogateescape')] has it, so that every value
    of [string] stands for one Python string.  [code_points] gives the
    characters of the string, by number. *)
Definition bytes_of (s : string) : list N := N_of_ascii <$> list_ascii_of_string s.

Definition continuation (b : N) : bool := ((128 <=? b) && (b <? 192))%N.

(** The character of a well-formed sequence of two, three or four bytes:
    in its shortest form, no surrogate, at most U+10FFFF. *)
Definition two_bytes (b0 b1 : N) : option N :=
  let c := ((b0 - 192) * 64 + (b1 - 128))%N in
  if ((192 <=? b0) && (b0 <? 224) && continuation b1 && (128 <=? c))%N
  then Some c else None.

Definition three_bytes (b0 b1 b2 : N) : option N :=
  let c := ((b0 - 224) * 4096 + (b1 - 128) * 64 + (b2 - 128))%N in
  if ((224 <=? b0) && (b0 <? 240) && continuation b1 && continuation b2
      && (2048 <=? c) && negb ((55296 <=? c) && (c <? 57344)))%N
  then Some c else None.

Definition four_bytes (b0 b1 b2 b3 : N) : option N :=
  let c := ((b0 - 240) * 262144 + (b1 - 128) * 4096 + (b2 - 128) * 64
            + (b3 - 128))%N in
  if ((240 <=? b0) && (b0 <? 248) && continuation b1 && continuation b2
      && continuation b3 && (65536 <=? c) && (c <? 1114112))%N
  then Some c else None.

Definition escaped (b : N) : N := (56320 + b)%N.

Fixpoint utf8_decode (bs : list N) : list N :=
  match bs with
  | [] => []
  | b0 :: t0 =>
      if (b0 <? 128)%N then b0 :: utf8_decode t0
      else
        match t0 with
        | b1 :: t1 =>
            match two_bytes b0 b1 with
            | Some c => c :: utf8_decode t1
            | None =>
                match t1 with
                | b2 :: t2 =>
                    match three_bytes b0 b1 b2 with
                    | Some c => c :: utf8_decode t2
                    | None =>
                        match t2 with
                        | b3 :: t3 =>
                            match four_bytes b0 b1 b2 b3 with
                            | Some c => c :: utf8_decode t3
                            | None => escaped b0 :: utf8_decode t0
                            end
                        | [] => escaped b0 :: utf8_decode t0
                        end
                    end
                | [] => escaped b0 :: utf8_decode t0
                end
            end
        | [] => escaped b0 :: utf8_decode t0
        end
  end.

Definition code_points (s : string) : list N := utf8_decode (bytes_of s).

(** *** The e-mail pattern

    Every class of the e-mail pattern holds ASCII characters only, and the
    encoding of any other character is made of bytes from 128 up, which are
    in none of the classes: the pattern is matched on the bytes of the
    string. *)
Definition char (c : ascii) : regex ascii := Class (Ascii.eqb c).

Definition newline : ascii := ascii_of_nat 10.

(** [re.match(pattern, s)] for a pattern of the form [^r$] whose classes are
    ASCII. *)
Definition re_match (r : regex ascii) (s : string) : bool :=
  match_to_end (fun c => Ascii.eqb c newline) r (list_ascii_of_string s).

(** Character classes: [[0-9]], [[a-zA-Z]] and the characters of a string. *)
Definition in_range (lo hi : nat) (c : ascii) : bool :=
  (lo <=? nat_of_ascii c)%nat && (nat_of_ascii c <=? hi)%nat.

Definition is_digit : ascii -> bool := in_range 48 57.
Definition is_alpha (c : ascii) : bool := in_range 97 122 c || in_range 65 90 c.
Definition one_of (s : string) (c : ascii) : bool :=
  existsb (Ascii.eqb c) (list_ascii_of_string s).

(** [[a-zA-Z0-9._%+-]] and [[a-zA-Z0-9.-]] *)
Definition local_char (c : ascii) : bool := is_alpha c || is_digit c || one_of "._%+-" c.
Definition domain_char (c : ascii) : bool := is_alpha c || is_digit c || one_of ".-" c.

(** [^[a-zA-Z0-9._%+-]+@[a-zA-Z0-9.-]+\.[a-zA-Z]{2,}$] *)
Definition email_pattern : regex ascii :=
  Cat (plus (Class local_char))
    (Cat (char "@")
       (Cat (plus (Class domain_char))
          (Cat (char ".") (at_least 2 (Class is_alpha))))).

(** [Person._validate_email] *)
Definition validate_email (email : string) : outcome string :=
  if re_match email_pattern email then Return email
  else Raise (ValueError bad_email).

(** *** The telephone pattern

    [\d] and [\s] match, on a string, every decimal digit and every white
    space character of Unicode, so the telephone pattern is matched on the
    characters of the string.  Which characters these are is written in the
    tables of the Unicode database of the interpreter, not in the source,
    and changes from one version of Unicode to the next: the two tables are
    taken as they come, [isdecimal] for [\d] and [isspace] for [\s]. *)
Record unicode := {
  isdecimal : N -> bool;
  isspace : N -> bool
}.

(** On the ASCII characters the tables are known: [\d] is [[0-9]], and [\s]
    is [[ \t\n\r\f\v]] and the four separators U+001C to U+001F. *)
Definition ascii_decimal (c : N) : bool := ((48 <=? c) && (c <=? 57))%N.

Definition ascii_space (c : N) : bool :=
  (((9 <=? c) && (c <=? 13)) || ((28 <=? c) && (c <=? 32)))%N.

Definition agrees_on_ascii (U : unicode) : Prop :=
  forall c, (c < 128)%N ->
    isdecimal U c = ascii_decimal c /\ isspace U c = ascii_space c.

(** A table with the ASCII characters, the Arabic-Indic digits U+0660 to
    U+0669 and the no-break space U+00A0. *)
Definition sample_unicode : unicode :=
  {| isdecimal := fun c => (ascii_decimal c || ((1632 <=? c) && (c <=? 1641)))%N;
     isspace := fun c => (ascii_space c || (c =? 160))%N |}.

(** The characters of an ASCII string as a class, and one of them as a
    pattern. *)
Definition among (s : string) (c : N) : bool := existsb (N.eqb c) (bytes_of s).

Definition point (a : ascii) : regex N := Class (N.eqb (N_of_ascii a)).

(** [[\d\(\)\-\s]] and [[\d+()]] *)
Definition phone_char (U : unicode) (c : N) : bool :=
  isdecimal U c || among "()-" c || isspace U c.

Definition kept_char (U : unicode) (c : N) : bool :=
  isdecimal U c || among "+()" c.

(** [^(\+7|8)[\d\(\)\-\s]{10,15}$] *)
Definition phone_pattern (U : unicode) : regex N :=
  Cat (Alt (Cat (point "+") (point "7")) (point "8"))
    (between 10 15 (Class (phone_char U))).

(** [re.match(pattern, s)] for the telephone pattern and the characters of
    [s]. *)
Definition phone_match (U : unicode) (w : list N) : bool :=
  match_to_end (N.eqb 10) (phone_pattern U) w.

(** [re.sub(r'[^\d+()]', '', phone)], as the characters of the result *)
Definition clean (U : unicode) (phone : string) : list N :=
  List.filter (kept_char U) (code_points phone).

(** [Person._validate_phone] *)
Definition validate_phone (U : unicode) (phone : string) : outcome string :=
  let clean_phone := clean U phone in
  if phone_match U clean_phone then Return phone
  else Raise (ValueError bad_phone).

(** [Customer.__init__], which runs [Person.__init__] first; [now] is the
    value of [datetime.now()].  The list of the customer's orders, empty at
    construction, is not part of the record. *)
Definition Customer_new (U : unicode) (customer_id : Z)
    (name email phone address city : string) (now : Z) : outcome Customer :=
  match validate_email email with
  | Raise e => Raise e
  | Return email =>
      match validate_phone U phone with
      | Raise e => Raise e
      | Return phone =>
          Return {| customer_id := customer_id; name := name; email := email;
                    phone := phone; address := address; city := city;
                    registration_date := now |}
      end
  end.

(** The strings of the two patterns, in words. *)
Definition email_shape (w : list ascii) : Prop :=
  exists l d t,
    w = l ++ "@"%char :: d ++ "."%char :: t /\
    l <> [] /\ all_in local_char l /\
    d <> [] /\ all_in domain_char d /\
    (2 <= length t)%nat /\ all_in is_alpha t.

Definition phone_shape (cls : N -> bool) (w : list N) : Prop :=
  exists rest,
    (w = bytes_of "+7" ++ rest \/ w = bytes_of "8" ++ rest) /\
    (10 <= length rest <= 15)%nat /\ all_in cls rest.

(** A shape that ends at the end of the string or before its final newline. *)
Definition to_the_end (shape : list ascii -> Prop) (s : string) : Prop :=
  shape (list_ascii_of_string s) \/
  exists w, list_ascii_of_string s = w ++ [newline] /\ shape w.

Definition digit_or_paren (U : unicode) (c : N) : bool :=
  isdecimal U c || among "()" c.

(** The two checks of [Person.__init__], in words.  [email_ok] is what the
    check of the e-mail address lets through: the shape [local@domain.tld],
    also when a line feed follows it; [email_matches] is the shape alone.
    [phone_ok]: what is left of the telephone number once every character
    other than a digit, [+], [(] and [)] is removed is [+7] or [8] followed
    by 10 to 15 digits and parentheses. *)
Definition email_ok (email : string) : Prop := to_the_end email_shape email.

Definition email_matches (email : string) : Prop :=
  email_shape (list_ascii_of_string email).

Definition phone_ok (U : unicode) (phone : string) : Prop :=
  phone_shape (digit_or_paren U) (clean U phone).

(** The statistics of a product after the lines [ls] of that product, from
    the entry [e] it had before. *)
Definition fold_lines (ls : list OrderItem) (e : option ProductSales.stats)
    : option ProductSales.stats :=
  match ls with
  | [] => e
  | _ => Some (fold_left count_line ls (default fresh_stats e))
  end.

(** ** models.py: customers with their orders, total revenue, factorial *)

(** A customer object: the validated attributes and the list [orders]. *)
Record CustomerObj := {
  attrs : Customer;
  customer_orders : list Order
}.

(** [Customer.__init__]: [orders] starts empty. *)
Definition CustomerObj_new (U : unicode) (customer_id : Z)
    (name email phone address city : string) (now : Z) : outcome CustomerObj :=
  match Customer_new U customer_id name email phone address city now with
  | Raise e => Raise e
  | Return c => Return {| attrs := c; customer_orders := [] |}
  end.

(** [Customer.add_order], [Customer.get_total_spent] and
    [Customer.get_orders_count] *)
Definition add_order (order : Order) : method CustomerObj unit :=
  fun self =>
    (Return tt,
     {| attrs := attrs self;
        customer_orders := customer_orders self ++ [order] |}).

Definition get_total_spent (self : CustomerObj) : Z :=
  sumZ (get_total <$> customer_orders self).

Definition get_orders_count (self : CustomerObj) : Z :=
  Z.of_nat (length (customer_orders self)).

(** [calculate_total_revenue] *)
Definition calculate_total_revenue (orders : list Order) : Z :=
  sumZ (get_total <$> orders).

(** [Order.update_status] *)
Definition update_status (new_status : string) : method Order unit :=
  fun self =>
    (Return tt,
     {| order_id := order_id self; customer := customer self;
        order_date := order_date self; items := items self;
        status := new_status |}).

(** [factorial]; [None] is the [ValueError] it raises for a negative
    argument.  The depth of the recursion is [n]; the limit the interpreter
    puts on it is not modelled. *)
Equations? factorial (n : Z) : option Z by wf (Z.to_nat n) lt :=
  factorial n with decide (n < 0) := {
    | left _ => None
    | right _ with decide (n = 0 \/ n = 1) := {
      | left _ => Some 1
      | right _ => Z.mul n <$> factorial (n - 1) } }.
Proof. lia. Qed.

(** ** main.py: the body of the loop that fills a sample order *)

(** [if product.is_available(quantity): order.add_item(product, quantity);
    product.update_stock(-quantity)], on the order and the product it
    mutates.  An exception leaves the loop with what was assigned so far. *)
Definition take_from_stock (quantity : Z) : method (Order * Product) unit :=
  fun st =>
    let '(order, product) := st in
    if is_available product quantity then
      match add_item product quantity order with
      | (Raise e, order') => (Raise e, (order', product))
      | (Return _, order') =>
          match update_stock (- quantity) product with
          | (Raise e, product') => (Raise e, (order', product'))
          | (Return _, product') => (Return tt, (order', product'))
          end
      end
    else (Return tt, (order, product)).

(** ** db.py: the cache of [DataRepository] *)

Module DataRepository.
(** The three lists of the cache.  Of the objects they hold the methods
    below read the ids only. *)
Record t := {
  use_database : bool;
  _customers : list Customer;
  _products : list Product;
  _orders : list Order
}.

(** [DataRepository.__init__], once the database manager is made. *)
Definition new (use_database : bool) : t :=
  {| use_database := use_database;
     _customers := []; _products := []; _orders := [] |}.

(** [add_customer]; [saved] is what [db_manager.save_customer] returns, which
    is consulted only when the repository uses the database and the id is
    new. *)
Definition add_customer (customer : Customer) (saved : bool) : method t bool :=
  fun self =>
    if existsb (fun c => customer_id c =? customer_id customer) (_customers self)
    then (Return false, self)
    else
      let self' := {| use_database := use_database self;
                      _customers := _customers self ++ [customer];
                      _products := _products self;
                      _orders := _orders self |} in
      if use_database self then (Return saved, self')
      else (Return true, self').

(** [add_product] *)
Definition add_product (product : Product) : method t bool :=
  fun self =>
    if existsb (fun p => product_id p =? product_id product) (_products self)
    then (Return false, self)
    else (Return true,
          {| use_database := use_database self;
             _customers := _customers self;
             _products := _products self ++ [product];
             _orders := _orders self |}).

(** [add_order], on the repository and on the customer object
    [order.customer], whose [add_order] it calls. *)
Definition add_order (order : Order) : method (t * CustomerObj) bool :=
  fun st =>
    let '(self, owner) := st in
    if existsb (fun o => order_id o =? order_id order) (_orders self)
    then (Return false, (self, owner))
    else (Return true,
          ({| use_database := use_database self;
              _customers := _customers self;
              _products := _products self;
              _orders := _orders self ++ [order] |},
           snd (add_order order owner))).

(** A call of one of the three methods, with what the environment supplies
    to it: the answer of the database, the customer object of the order. *)
Inductive call :=
| AddCustomer (c : Customer) (saved : bool)
| AddProduct (p : Product)
| AddOrder (o : Order) (owner : CustomerObj).

Definition after (self : t) (c : call) : t :=
  match c with
  | AddCustomer c saved => snd (add_customer c saved self)
  | AddProduct p => snd (add_product p self)
  | AddOrder o owner => fst (snd (add_order o (self, owner)))
  end.

Definition unique_ids (self : t) : Prop :=
  NoDup (customer_id <$> _customers self) /\
  NoDup (product_id <$> _products self) /\
  NoDup (order_id <$> _orders self).
End DataRepository.

(** The unit price [add_item] bills a product at: the snapshot of the line
    the order already has for it, the product's current price otherwise. *)
Definition billed_price (self : Order) (p : Product) : Z :=
  match lines_of (product_id p) (items self) with
  | it :: _ => price_at_time it
  | [] => price p
  end.

(** ** Sequences of calls on an order *)

Inductive order_call :=
| AddItem (p : Product) (q : Z)
| RemoveItem (pid : Z).

(** The order after a call, whether the call returned or raised. *)
Definition order_after (self : Order) (c : order_call) : Order :=
  match c with
  | AddItem p q => snd (add_item p q self)
  | RemoveItem pid => snd (remove_item pid self)
  end.

(** A call that adds a positive quantity of a product whose price is not
    negative, or removes a line. *)
Definition well_formed_call (c : order_call) : Prop :=
  match c with
  | AddItem p q => 0 < q /\ 0 <= price p
  | RemoveItem _ => True
  end.

(** ** Reading the graphs *)

(** The attributes [add_node] gives the node of a customer. *)
Definition named (c : Customer) : nx.node_attr :=
  {| nx.node_name := Some (name c); nx.node_city := Some (city c) |}.

(** The customers of a list that carry the id [n]. *)
Definition with_id (n : Z) (customers : list Customer) : list Customer :=
  filter (fun c => customer_id c = n) customers.

(** A graph in which the end points of every edge are nodes. *)
Definition closed (G : nx.Graph) : Prop :=
  forall u v, is_Some (nx.edges G !! nx.ekey u v) ->
              is_Some (nx.nodes G !! u) /\ is_Some (nx.nodes G !! v).

Definition endpoint (n : Z) (c : Z * Z) : Prop := n = c.1 \/ n = c.2.

#[global] Instance endpoint_dec n c : Decision (endpoint n c).
Proof. unfold endpoint. apply _. Defined.

(** The edges of a graph that carry the city [ct]. *)
Definition edges_of_city (ct : string) (G : nx.Graph) : gmap (Z * Z) nx.edge_attr :=
  filter (fun ke : (Z * Z) * nx.edge_attr => ke.2 = city_tag ct) (nx.edges G).

(** The customers of a list that carry the id [n] and have a city. *)
Definition located (n : Z) (customers : list Customer) : list Customer :=
  filter (fun c => customer_id c = n /\ city c <> "") customers.

(** ** Reading the validation *)

(** A string followed by one line feed. *)
Definition with_newline (s : string) : string :=
  String.append s (String newline EmptyString).

(** The number of ["@"] in a string. *)
Definition count_at (s : string) : nat :=
  length (filter (fun c => c = "@"%char) (list_ascii_of_string s)).

(** * Properties *)

(** ** Stock never goes negative *)

Lemma Product_new_stock pid n pr c d s p :
  Product_new pid n pr c d s = Return p -> 0 <= stock p /\ 0 <= price p.
Proof.
  unfold Product_new.
  destruct (pr <? 0) eqn:Hp; [discriminate|].
  destruct (s <? 0) eqn:Hs; [discriminate|].
  intros [= <-]. simpl. lia.
Qed.

Lemma update_stock_raise self d :
  stock self + d < 0 ->
  update_stock d self = (Raise (ValueError insufficient_stock), self).
Proof.
  intros H. unfold update_stock.
  destruct (Z.ltb_spec (stock self + d) 0); [reflexivity | lia].
Qed.

Lemma update_stock_return self d :
  0 <= stock self + d ->
  update_stock d self = (Return true, set_stock self (stock self + d)).
Proof.
  intros H. unfold update_stock.
  destruct (Z.ltb_spec (stock self + d) 0); [lia | reflexivity].
Qed.

Lemma update_stock_nonneg self d :
  0 <= stock self -> 0 <= stock (snd (update_stock d self)).
Proof.
  intros H. unfold update_stock.
  destruct (Z.ltb_spec (stock self + d) 0); simpl; lia.
Qed.

Lemma update_stock_calls_nonneg deltas : forall self,
  0 <= stock self ->
  Forall (fun r => 0 <= stock (snd r)) (update_stock_calls self deltas).
Proof.
  induction deltas as [|d ds IH]; intros self H; simpl.
  - constructor.
  - constructor.
    + now apply update_stock_nonneg.
    + apply IH. now apply update_stock_nonneg.
Qed.

(** C1.  A product built by [Product_new] keeps [0 <= stock] after every call
    of any sequence of [update_stock] calls; in every state of such a run a
    call with [stock + delta < 0] raises and leaves the product as it was,
    and any other call stores [stock + delta] and returns [True]. *)
Theorem C1_stock_never_negative pid n pr c d s p deltas :
  Product_new pid n pr c d s = Return p ->
  Forall (fun r => 0 <= stock (snd r)) (update_stock_calls p deltas) /\
  (forall self delta,
      (stock self + delta < 0 ->
         update_stock delta self = (Raise (ValueError insufficient_stock), self)) /\
      (0 <= stock self + delta ->
         fst (update_stock delta self) = Return true /\
         stock (snd (update_stock delta self)) = stock self + delta)).
Proof.
  intros Hnew. split.
  - apply update_stock_calls_nonneg.
    now destruct (Product_new_stock _ _ _ _ _ _ _ Hnew).
  - intros self delta. split.
    + apply update_stock_raise.
    + intros H. rewrite (update_stock_return _ _ H). now simpl.
Qed.

Lemma C1_stock_never_negative_witness :
  Forall (fun r => 0 <= stock (snd r))
    (update_stock_calls
       {| product_id := 1; product_name := "p"; price := 100;
          category := ""; description := ""; stock := 10 |}
       [-3; 5; -15]).
Proof.
  refine (proj1 (C1_stock_never_negative 1 "p" 100 "" "" 10 _ [-3; 5; -15] _)).
  reflexivity.
Defined.


(** ** Adding a product to an order *)

Lemma merge_line_None its pid q :
  pid ∉ line_ids its -> merge_line its pid q = None.
Proof.
  induction its as [|it rest IH]; simpl; [reflexivity|].
  intros [Hne Hrest]%not_elem_of_cons.
  destruct (Z.eqb_spec (item_pid it) pid) as [E|_]; [congruence|].
  now rewrite IH.
Qed.

Lemma merge_line_found its pid q :
  pid ∈ line_ids its ->
  exists its', merge_line its pid q = Some its' /\
               line_ids its' = line_ids its /\
               lines_but pid its' = lines_but pid its.
Proof.
  induction its as [|it rest IH]; simpl.
  - intros H. now apply elem_of_nil in H.
  - intros H. destruct (Z.eqb_spec (item_pid it) pid) as [E|Hne].
    + eexists. split; [reflexivity|]. split; [reflexivity|].
      unfold lines_but. rewrite !filter_cons_False; auto.
    + apply elem_of_cons in H as [H|H]; [congruence|].
      destruct (IH H) as (its' & -> & Hids & Hbut). simpl.
      eexists. split; [reflexivity|]. split.
      * unfold line_ids in *. rewrite !fmap_cons. now rewrite Hids.
      * unfold lines_but in *. rewrite !filter_cons_True by assumption.
        now rewrite Hbut.
Qed.

Lemma lines_of_absent its pid : pid ∉ line_ids its -> lines_of pid its = [].
Proof.
  induction its as [|it rest IH]; [reflexivity|].
  intros [Hne Hrest]%not_elem_of_cons. unfold lines_of in *.
  rewrite filter_cons_False by congruence. auto.
Qed.

Lemma merge_line_unique its pid q it :
  NoDup (line_ids its) -> it ∈ its -> item_pid it = pid ->
  exists its', merge_line its pid q = Some its' /\
               lines_of pid its' = [add_quantity it q].
Proof.
  induction its as [|x rest IH]; simpl.
  - intros _ H. now apply elem_of_nil in H.
  - intros [Hx Hnd]%NoDup_cons Hin Hpid.
    destruct (Z.eqb_spec (item_pid x) pid) as [E|Hne].
    + assert (it = x) as ->.
      { apply elem_of_cons in Hin as [->|Hin]; [reflexivity|].
        exfalso. apply Hx. rewrite E, <- Hpid.
        now apply list_elem_of_fmap_2. }
      eexists. split; [reflexivity|]. unfold lines_of.
      rewrite filter_cons_True by exact E.
      fold (lines_of pid rest). rewrite lines_of_absent; [reflexivity|].
      now rewrite <- E.
    + apply elem_of_cons in Hin as [->|Hin]; [congruence|].
      destruct (IH Hnd Hin Hpid) as (its' & -> & Hof). simpl.
      eexists. split; [reflexivity|]. unfold lines_of in *.
      now rewrite filter_cons_False by assumption.
Qed.

(** The constructor and the two mutators keep the lines of an order keyed by
    distinct product ids. *)
Lemma Order_new_unique_lines oid c d now :
  NoDup (line_ids (items (Order_new oid c d now))).
Proof. constructor. Qed.

Lemma add_item_unique_lines p q self :
  NoDup (line_ids (items self)) ->
  NoDup (line_ids (items (snd (add_item p q self)))).
Proof.
  intros Hnd. unfold add_item.
  destruct (negb (is_available p q)); [exact Hnd|].
  destruct (decide (product_id p ∈ line_ids (items self))) as [Hin|Hout].
  - destruct (merge_line_found _ _ q Hin) as (its' & -> & Hids & _).
    simpl. now rewrite Hids.
  - rewrite (merge_line_None _ _ q Hout).
    unfold OrderItem_new. destruct (q <=? 0); [exact Hnd|]. simpl.
    unfold line_ids. rewrite fmap_app. apply NoDup_app. split; [exact Hnd|].
    split; [|apply NoDup_singleton].
    intros x Hx [= ->]%list_elem_of_singleton. now apply Hout.
Qed.

Lemma delete_line_sublist its pid its' :
  delete_line its pid = Some its' -> line_ids its' `sublist_of` line_ids its.
Proof.
  revert its'. induction its as [|x rest IH]; simpl; [discriminate|].
  intros its'. destruct (item_pid x =? pid).
  - intros [= <-]. now apply sublist_cons.
  - destruct (delete_line rest pid) as [r|]; [|discriminate].
    intros [= <-]. simpl. apply sublist_skip. now apply IH.
Qed.

Lemma remove_item_unique_lines pid self :
  NoDup (line_ids (items self)) ->
  NoDup (line_ids (items (snd (remove_item pid self)))).
Proof.
  intros Hnd. unfold remove_item.
  destruct (delete_line (items self) pid) as [its'|] eqn:E; [|exact Hnd].
  simpl. exact (sublist_NoDup _ _ Hnd (delete_line_sublist _ _ _ E)).
Qed.

(** C2.  In an order whose lines have distinct product ids, adding an
    available product that already has a line leaves exactly one line of that
    product, with the two quantities added and the old price snapshot, and
    leaves the other lines alone; adding an available product that has no
    line yet, in a positive quantity, appends one line with that quantity and
    the product's current price.  Adding 2 and then 3 of a product gives one
    line of quantity 5, priced as at the first addition. *)
Theorem C2_add_item_merges self p q :
  NoDup (line_ids (items self)) ->
  is_available p q = true ->
  (forall it, it ∈ items self -> item_pid it = product_id p ->
     exists self',
       add_item p q self = (Return tt, self') /\
       lines_of (product_id p) (items self') = [add_quantity it q] /\
       quantity (add_quantity it q) = quantity it + q /\
       price_at_time (add_quantity it q) = price_at_time it /\
       lines_but (product_id p) (items self') = lines_but (product_id p) (items self) /\
       length (items self') = length (items self)) /\
  (product_id p ∉ line_ids (items self) -> 0 < q ->
     add_item p q self =
       (Return tt,
        set_items self
          (items self ++ [{| product := p; quantity := q; price_at_time := price p |}]))) /\
  (forall p', product_id p ∉ line_ids (items self) ->
     product_id p' = product_id p ->
     is_available p 2 = true -> is_available p' 3 = true ->
     snd (add_item p' 3 (snd (add_item p 2 self))) =
       set_items self
         (items self ++ [{| product := p; quantity := 5; price_at_time := price p |}])).
Proof.
  intros Hnd Hav. split; [|split].
  - intros it Hin Hpid. unfold add_item. rewrite Hav. simpl.
    destruct (merge_line_unique _ _ q it Hnd Hin Hpid) as (its' & Hm & Hof).
    assert (Hmem : product_id p ∈ line_ids (items self)).
    { rewrite <- Hpid. now apply list_elem_of_fmap_2. }
    destruct (merge_line_found _ _ q Hmem) as (its2 & Hm2 & Hids & Hbut).
    rewrite Hm in Hm2. injection Hm2 as <-.
    rewrite Hm. eexists. split; [reflexivity|]. simpl.
    repeat split; try assumption.
    apply (f_equal length) in Hids. unfold line_ids in Hids.
    now rewrite !length_fmap in Hids.
  - intros Hout Hq. unfold add_item. rewrite Hav. simpl.
    rewrite (merge_line_None _ _ q Hout). unfold OrderItem_new.
    destruct (Z.leb_spec q 0); [lia | reflexivity].
  - intros p' Hout Hpid Hav2 Hav3. unfold add_item at 2. rewrite Hav2. simpl.
    rewrite (merge_line_None _ _ 2 Hout). simpl.
    unfold add_item. rewrite Hav3. simpl. rewrite Hpid.
    assert (Hm : merge_line
                   (items self ++ [{| product := p; quantity := 2; price_at_time := price p |}])
                   (product_id p) 3 =
                 Some (items self ++ [{| product := p; quantity := 5; price_at_time := price p |}])).
    { clear -Hout. induction (items self) as [|x rest IH]; simpl.
      - unfold item_pid. simpl. now rewrite Z.eqb_refl.
      - apply not_elem_of_cons in Hout as [Hne Hout].
        destruct (Z.eqb_spec (item_pid x) (product_id p)); [congruence|].
        now rewrite IH. }
    rewrite Hm. reflexivity.
Qed.

Lemma C2_add_item_merges_witness :
  snd (add_item (set_stock laptop 4) 3
         (snd (add_item laptop 2 (Order_new 1 ivan None 0)))) =
  set_items (Order_new 1 ivan None 0)
    [{| product := laptop; quantity := 5; price_at_time := 50000 |}].
Proof.
  refine (proj2 (proj2 (C2_add_item_merges (Order_new 1 ivan None 0) laptop 2 _ _))
            (set_stock laptop 4) _ _ _ _).
  - constructor.
  - reflexivity.
  - simpl. apply not_elem_of_nil.
  - reflexivity.
  - reflexivity.
  - reflexivity.
Defined.

(** ** Non-positive quantities *)

(** The line constructor rejects a non-positive quantity. *)
Lemma OrderItem_new_non_positive p q pr :
  q <= 0 -> OrderItem_new p q pr = Raise (ValueError non_positive_quantity).
Proof.
  intros H. unfold OrderItem_new.
  destruct (Z.leb_spec q 0); [reflexivity | lia].
Qed.

(** So does [add_item] for a product that has no line yet, and the order is
    left as it was. *)
Lemma add_item_new_line_non_positive p q self :
  q <= 0 -> 0 <= stock p -> product_id p ∉ line_ids (items self) ->
  add_item p q self = (Raise (ValueError non_positive_quantity), self).
Proof.
  intros Hq Hs Hout. unfold add_item, is_available.
  destruct (Z.leb_spec q (stock p)); [|lia]. simpl.
  rewrite (merge_line_None _ _ q Hout).
  now rewrite OrderItem_new_non_positive.
Qed.

(** C3.  The merge branch of [add_item] does no quantity check: after
    [add_item laptop 2] on a new order, [add_item laptop (-5)] returns
    normally and leaves a line of quantity [-3], and [add_item laptop 0]
    returns normally too. *)
Theorem C3_add_item_merge_accepts_non_positive :
  let o1 := snd (add_item laptop 2 (Order_new 1 ivan None 0)) in
  items o1 = [{| product := laptop; quantity := 2; price_at_time := 50000 |}] /\
  add_item laptop (-5) o1 =
    (Return tt,
     set_items o1 [{| product := laptop; quantity := -3; price_at_time := 50000 |}]) /\
  fst (add_item laptop 0 o1) = Return tt.
Proof. vm_compute. repeat split. Qed.

(** ** The sorting functions *)

Lemma in_order_total reverse a b : in_order reverse a b \/ in_order reverse b a.
Proof. unfold in_order. destruct reverse; lia. Qed.

Lemma in_order_antisym reverse a b :
  in_order reverse a b -> in_order reverse b a -> a = b.
Proof. unfold in_order. destruct reverse; lia. Qed.

Lemma in_order_trans reverse a b c :
  in_order reverse a b -> in_order reverse b c -> in_order reverse a c.
Proof. unfold in_order. destruct reverse; lia. Qed.

Lemma in_order_refl reverse a : in_order reverse a a.
Proof. unfold in_order. destruct reverse; lia. Qed.

Section StableSort.
Variable key : Order -> Z.
Variable reverse : bool.

Lemma elem_of_group k x l : x ∈ group key k l <-> key x = k /\ x ∈ l.
Proof. exact (list_elem_of_filter (fun y => key y = k) l x). Qed.

Lemma group_cons k x l :
  group key k (x :: l) =
    if decide (key x = k) then x :: group key k l else group key k l.
Proof. exact (filter_cons (fun y => key y = k) x l). Qed.

Lemma group_app k l1 l2 :
  group key k (l1 ++ l2) = group key k l1 ++ group key k l2.
Proof. unfold group. apply filter_app. Qed.

(** Lists with the same groups have the same elements. *)
Lemma same_groups_elem_of l1 l2 x :
  (forall k, group key k l1 = group key k l2) -> x ∈ l1 -> x ∈ l2.
Proof.
  intros Hg Hx. assert (H : x ∈ group key (key x) l2).
  { rewrite <- Hg. now apply elem_of_group. }
  now apply elem_of_group in H.
Qed.

(** A list is determined by its groups once it is sorted by the key: this
    is what makes "the" stable sort of a list unique. *)
Lemma stable_sort_unique l1 : forall l2,
  sorted_by key reverse l1 -> sorted_by key reverse l2 ->
  (forall k, group key k l1 = group key k l2) -> l1 = l2.
Proof.
  unfold sorted_by.
  induction l1 as [|a l1 IH]; intros [|b l2] S1 S2 Hg; [reflexivity| | |].
  - specialize (Hg (key b)). rewrite group_cons in Hg.
    destruct (decide (key b = key b)); [discriminate | congruence].
  - specialize (Hg (key a)). rewrite group_cons in Hg.
    destruct (decide (key a = key a)); [discriminate | congruence].
  - apply StronglySorted_cons in S1 as [Fa S1].
    apply StronglySorted_cons in S2 as [Fb S2].
    rewrite Forall_forall in Fa, Fb.
    assert (Hab : key a = key b).
    { assert (Ha : a ∈ b :: l2)
        by (eapply same_groups_elem_of; [exact Hg | apply elem_of_cons; auto]).
      assert (Hb : b ∈ a :: l1)
        by (eapply same_groups_elem_of;
            [intros k; symmetry; apply Hg | apply elem_of_cons; auto]).
      apply elem_of_cons in Ha as [->|Ha]; [reflexivity|].
      apply elem_of_cons in Hb as [->|Hb]; [reflexivity|].
      apply (in_order_antisym reverse); auto. }
    pose proof (Hg (key a)) as Hk. rewrite !group_cons in Hk.
    destruct (decide (key a = key a)); [|congruence].
    destruct (decide (key b = key a)); [|congruence].
    injection Hk as -> Hk. f_equal. apply IH; try assumption.
    intros k. destruct (decide (key b = k)) as [<-|Hne]; [assumption|].
    specialize (Hg k). rewrite !group_cons in Hg.
    destruct (decide (key b = k)); [contradiction | assumption].
Qed.

(** A list comprehension on the key keeps a group whole or drops it. *)
Lemma group_filter (P : Order -> Prop) `{!forall x, Decision (P x)}
    (Q : Z -> Prop) `{!forall z, Decision (Q z)} k l :
  (forall x, P x <-> Q (key x)) ->
  group key k (filter P l) = if decide (Q k) then group key k l else [].
Proof.
  intros HPQ. induction l as [|x l IH].
  - now destruct (decide (Q k)).
  - rewrite filter_cons, (group_cons k x l).
    destruct (decide (P x)) as [Hq|Hq]; rewrite HPQ in Hq.
    + rewrite group_cons, IH.
      destruct (decide (key x = k)) as [<-|Hne]; [|reflexivity].
      destruct (decide (Q (key x))); [reflexivity | contradiction].
    + rewrite IH. destruct (decide (key x = k)) as [<-|Hne]; [|reflexivity].
      destruct (decide (Q (key x))); [contradiction | reflexivity].
Qed.

Lemma sorted_by_equal_keys d l :
  Forall (fun x => key x = d) l -> sorted_by key reverse l.
Proof.
  unfold sorted_by. induction 1 as [|x l Hx Hl IH]; constructor; [exact IH|].
  eapply Forall_impl; [exact Hl|]. intros y Hy. simpl in *.
  rewrite Hx, Hy. apply in_order_refl.
Qed.

(** The reference sort. *)
Lemma insert_stable_elem_of x y l :
  y ∈ insert_stable key reverse x l <-> y = x \/ y ∈ l.
Proof.
  induction l as [|z l IH]; simpl.
  - rewrite list_elem_of_singleton, elem_of_nil. tauto.
  - destruct (decide (in_order reverse (key x) (key z))).
    + rewrite !elem_of_cons. tauto.
    + rewrite !elem_of_cons, IH. tauto.
Qed.

Lemma insert_stable_sorted x l :
  sorted_by key reverse l -> sorted_by key reverse (insert_stable key reverse x l).
Proof.
  unfold sorted_by. induction l as [|y l IH]; simpl; intros S.
  - repeat constructor.
  - destruct (decide (in_order reverse (key x) (key y))) as [Hxy|Hxy].
    + constructor; [exact S|]. constructor; [exact Hxy|].
      apply StronglySorted_cons in S as [Fy _].
      eapply Forall_impl; [exact Fy|]. intros z Hz. simpl in *.
      eapply in_order_trans; eassumption.
    + apply StronglySorted_cons in S as [Fy S].
      constructor; [now apply IH|].
      rewrite Forall_forall in *. intros z [->|Hz]%insert_stable_elem_of.
      * destruct (in_order_total reverse (key x) (key y)); [contradiction | assumption].
      * now apply Fy.
Qed.

Lemma insert_stable_group k x l :
  group key k (insert_stable key reverse x l) = group key k (x :: l).
Proof.
  induction l as [|y l IH]; simpl; [reflexivity|].
  destruct (decide (in_order reverse (key x) (key y))) as [Hxy|Hxy];
    [reflexivity|].
  rewrite (group_cons k y), IH, !group_cons.
  destruct (decide (key y = k)) as [E1|N1];
    destruct (decide (key x = k)) as [E2|N2]; try reflexivity.
  exfalso. apply Hxy. rewrite E1, E2. apply in_order_refl.
Qed.

Lemma reference_sort_sorted l : sorted_by key reverse (reference_sort key reverse l).
Proof.
  induction l as [|x l IH]; simpl; [constructor|].
  now apply insert_stable_sorted.
Qed.

Lemma reference_sort_group k l :
  group key k (reference_sort key reverse l) = group key k l.
Proof.
  induction l as [|x l IH]; simpl; [reflexivity|].
  rewrite insert_stable_group, !group_cons. now rewrite IH.
Qed.

(** Any function that sorts by the key and keeps the groups is the
    reference sort, is idempotent and leaves sorted lists alone. *)
Lemma is_reference_sort (f : list Order -> list Order) :
  (forall l, sorted_by key reverse (f l)) ->
  (forall l k, group key k (f l) = group key k l) ->
  forall l, f l = reference_sort key reverse l /\ f (f l) = f l.
Proof.
  intros Hs Hg l. split.
  - apply stable_sort_unique; [apply Hs | apply reference_sort_sorted |].
    intros k. now rewrite Hg, reference_sort_group.
  - apply stable_sort_unique; [apply Hs | apply Hs |].
    intros k. now rewrite Hg.
Qed.
End StableSort.

(** *** Quicksort *)

Lemma quicksort_group k orders reverse :
  group order_date k (quicksort_orders_by_date orders reverse) =
  group order_date k orders.
Proof.
  funelim (quicksort_orders_by_date orders reverse); try reflexivity.
  all: rewrite !group_app;
    repeat match goal with
           | IH : forall k, group _ k (quicksort_orders_by_date _ _) = _ |- _ =>
               rewrite IH; clear IH
           end.
  all: rewrite
         (group_filter order_date (fun x => order_date x > order_date pivot)
            (fun z => z > order_date pivot)),
         (group_filter order_date (fun x => order_date x = order_date pivot)
            (fun z => z = order_date pivot)),
         (group_filter order_date (fun x => order_date x < order_date pivot)
            (fun z => z < order_date pivot))
         by (intros; reflexivity).
  all: repeat case_decide; try lia; rewrite ?app_nil_r; reflexivity.
Qed.

Lemma quicksort_elem_of x orders reverse :
  x ∈ quicksort_orders_by_date orders reverse <-> x ∈ orders.
Proof.
  split; apply same_groups_elem_of with (key := order_date); intros k;
    now rewrite quicksort_group.
Qed.

Lemma sorted_by_short key reverse l :
  (length l <= 1)%nat -> sorted_by key reverse l.
Proof.
  destruct l as [|x [|y l]]; simpl; intros H; try lia; repeat constructor.
Qed.

Lemma middle_lookup {A} (l : list A) :
  ~ (length l <= 1)%nat -> is_Some (l !! (length l `div` 2)%nat).
Proof.
  intros H. apply lookup_lt_is_Some. apply Nat.div_lt; lia.
Qed.

Lemma quicksort_sorted orders reverse :
  sorted_by order_date reverse (quicksort_orders_by_date orders reverse).
Proof.
  funelim (quicksort_orders_by_date orders reverse).
  - now apply sorted_by_short.
  - match goal with H : ~ (length _ <= 1)%nat |- _ =>
      destruct (middle_lookup _ H) as [? ?] end. congruence.
  - unfold sorted_by in *.
    apply StronglySorted_app; split; [|split; [assumption|]].
    + intros x1 x2 Hx1%quicksort_elem_of%list_elem_of_filter
        [Hx2%list_elem_of_filter|Hx2%quicksort_elem_of%list_elem_of_filter]%elem_of_app;
        unfold in_order; lia.
    + apply StronglySorted_app; split; [|split; [|assumption]].
      * intros x1 x2 Hx1%list_elem_of_filter
          Hx2%quicksort_elem_of%list_elem_of_filter; unfold in_order; lia.
      * apply (sorted_by_equal_keys order_date true (order_date pivot)).
        apply Forall_forall. now intros x [? _]%list_elem_of_filter.
  - unfold sorted_by in *.
    apply StronglySorted_app; split; [|split; [assumption|]].
    + intros x1 x2 Hx1%quicksort_elem_of%list_elem_of_filter
        [Hx2%list_elem_of_filter|Hx2%quicksort_elem_of%list_elem_of_filter]%elem_of_app;
        unfold in_order; lia.
    + apply StronglySorted_app; split; [|split; [|assumption]].
      * intros x1 x2 Hx1%list_elem_of_filter
          Hx2%quicksort_elem_of%list_elem_of_filter; unfold in_order; lia.
      * apply (sorted_by_equal_keys order_date false (order_date pivot)).
        apply Forall_forall. now intros x [? _]%list_elem_of_filter.
Qed.

(** *** Merge sort *)

Lemma takes_left_in_order reverse a b :
  takes_left reverse a b = true <-> in_order reverse (get_total a) (get_total b).
Proof. unfold takes_left, in_order. destruct reverse; apply Z.leb_le. Qed.

Lemma merge_elem_of x lhs rhs reverse :
  x ∈ merge_two_sorted_lists lhs rhs reverse <-> x ∈ lhs \/ x ∈ rhs.
Proof.
  funelim (merge_two_sorted_lists lhs rhs reverse).
  - rewrite elem_of_nil. tauto.
  - rewrite elem_of_nil. tauto.
  - rewrite elem_of_cons, H, !elem_of_cons. tauto.
  - rewrite elem_of_cons, H, !elem_of_cons. tauto.
Qed.

Lemma merge_sorted lhs rhs reverse :
  sorted_by get_total reverse lhs -> sorted_by get_total reverse rhs ->
  sorted_by get_total reverse (merge_two_sorted_lists lhs rhs reverse).
Proof.
  unfold sorted_by.
  funelim (merge_two_sorted_lists lhs rhs reverse); intros Sl Sr; try assumption.
  - pose proof Heq as Hab. apply takes_left_in_order in Hab.
    apply StronglySorted_cons in Sl as [Fa Sl].
    pose proof Sr as [Fb _]%StronglySorted_cons.
    constructor; [now apply H|].
    rewrite Forall_forall in *. intros x [Hx|Hx]%merge_elem_of; [now apply Fa|].
    apply elem_of_cons in Hx as [->|Hx]; [assumption|].
    eapply in_order_trans; [exact Hab|]. now apply Fb.
  - assert (Hba : in_order reverse0 (get_total b) (get_total a)).
    { destruct (in_order_total reverse0 (get_total a) (get_total b)) as [Hab|Hba];
        [|assumption].
      apply takes_left_in_order in Hab. congruence. }
    apply StronglySorted_cons in Sr as [Fb Sr].
    pose proof Sl as [Fa _]%StronglySorted_cons.
    constructor; [now apply H|].
    rewrite Forall_forall in *. intros x [Hx|Hx]%merge_elem_of; [|now apply Fb].
    apply elem_of_cons in Hx as [->|Hx]; [assumption|].
    eapply in_order_trans; [exact Hba|]. now apply Fa.
Qed.

(** When the left list is sorted, merging keeps every group of the left list
    in front of the same group of the right list: the merge is stable. *)
Lemma merge_group k lhs rhs reverse :
  sorted_by get_total reverse lhs ->
  group get_total k (merge_two_sorted_lists lhs rhs reverse) =
  group get_total k lhs ++ group get_total k rhs.
Proof.
  unfold sorted_by.
  funelim (merge_two_sorted_lists lhs rhs reverse); intros Sl.
  - reflexivity.
  - now rewrite app_nil_r.
  - apply StronglySorted_cons in Sl as [Fa Sl].
    rewrite (group_cons _ k a), (group_cons _ k a lhs), (H k Sl).
    now destruct (decide (get_total a = k)).
  - rewrite (group_cons _ k b), (H k Sl), (group_cons _ k b rhs).
    destruct (decide (get_total b = k)) as [E|N]; [|reflexivity].
    assert (Hnil : group get_total k (a :: lhs) = []).
    { apply elem_of_nil_inv. intros x [Hk Hx]%elem_of_group.
      assert (Hax : in_order reverse0 (get_total a) (get_total x)).
      { apply StronglySorted_cons in Sl as [Fa _]. rewrite Forall_forall in Fa.
        apply elem_of_cons in Hx as [->|Hx]; [apply in_order_refl | now apply Fa]. }
      rewrite Hk, <- E in Hax. apply takes_left_in_order in Hax. congruence. }
    now rewrite Hnil.
Qed.

Lemma merge_sort_sorted orders reverse :
  sorted_by get_total reverse (merge_sort_orders_by_total orders reverse).
Proof.
  funelim (merge_sort_orders_by_total orders reverse).
  - now apply sorted_by_short.
  - now apply merge_sorted.
Qed.

Lemma merge_sort_group k orders reverse :
  group get_total k (merge_sort_orders_by_total orders reverse) =
  group get_total k orders.
Proof.
  funelim (merge_sort_orders_by_total orders reverse); [reflexivity|].
  rewrite merge_group by apply merge_sort_sorted.
  rewrite H, H0, <- group_app. now rewrite take_drop.
Qed.

(** C4.  Both sorting functions return the stable reference sort of their
    input by their key, in either direction; both are idempotent; both return
    the empty list and one-element lists unchanged. *)
Theorem C4_sorts_equal_stable_reference orders reverse :
  quicksort_orders_by_date orders reverse =
    reference_sort order_date reverse orders /\
  merge_sort_orders_by_total orders reverse =
    reference_sort get_total reverse orders /\
  quicksort_orders_by_date (quicksort_orders_by_date orders reverse) reverse =
    quicksort_orders_by_date orders reverse /\
  merge_sort_orders_by_total (merge_sort_orders_by_total orders reverse) reverse =
    merge_sort_orders_by_total orders reverse /\
  quicksort_orders_by_date [] reverse = [] /\
  merge_sort_orders_by_total [] reverse = [] /\
  (forall o, quicksort_orders_by_date [o] reverse = [o] /\
             merge_sort_orders_by_total [o] reverse = [o]).
Proof.
  pose proof (is_reference_sort order_date reverse
                (fun l => quicksort_orders_by_date l reverse)
                (fun l => quicksort_sorted l reverse)
                (fun l k => quicksort_group k l reverse) orders) as [Hq1 Hq2].
  pose proof (is_reference_sort get_total reverse
                (fun l => merge_sort_orders_by_total l reverse)
                (fun l => merge_sort_sorted l reverse)
                (fun l k => merge_sort_group k l reverse) orders) as [Hm1 Hm2].
  repeat split; try assumption; now simp quicksort_orders_by_date
                                          merge_sort_orders_by_total.
Qed.

(** ** Sales dynamics *)

Example calendar_examples :
  (* 2023-01-15, 2024-02-29 and 2024-12-31 at 00:00 *)
  (day_number 63809337600000000, week_number 63809337600000000,
   month_number 63809337600000000) = (738534, 105504, 24276) /\
  (day_number 63844761600000000, week_number 63844761600000000,
   month_number 63844761600000000) = (738944, 105563, 24289) /\
  (day_number 63871200000000000, week_number 63871200000000000,
   month_number 63871200000000000) = (739250, 105607, 24299) /\
  month_number 63113817600000000 = 24011 /\
  month_number 59931705600000000 = 22802 /\
  month_number 0 = 12.
Proof. vm_compute. repeat split. Qed.

(** *** Sums in 64 bits *)

Lemma int64_fits x : fits_int64 (int64 x).
Proof.
  unfold fits_int64, int64.
  pose proof (Z.mod_pos_bound (x + 2 ^ 63) (2 ^ 64) eq_refl). lia.
Qed.

Lemma int64_id x : fits_int64 x -> int64 x = x.
Proof.
  unfold fits_int64, int64. intros H. rewrite Z.mod_small by lia. lia.
Qed.

Lemma int64_add_l x y : int64 (int64 x + y) = int64 (x + y).
Proof.
  unfold int64. f_equal.
  replace ((x + 2 ^ 63) `mod` 2 ^ 64 - 2 ^ 63 + y + 2 ^ 63)
    with ((x + 2 ^ 63) `mod` 2 ^ 64 + y) by lia.
  rewrite Zplus_mod_idemp_l. f_equal. lia.
Qed.

Lemma sum64_spec l : forall a, fits_int64 a -> sum64 a l = int64 (a + sumZ l).
Proof.
  unfold sum64. induction l as [|x l IH]; intros a Ha; simpl.
  - rewrite Z.add_0_r. symmetry. apply int64_id, Ha.
  - rewrite IH by apply int64_fits. rewrite int64_add_l. f_equal. lia.
Qed.

(** *** The rows, one by one *)

Lemma group_order_Forall (P : Z -> Prop) p o rows :
  P (period_index p) ->
  Forall (fun r => P (period_index (Sales.period r))) rows ->
  Forall (fun r => P (period_index (Sales.period r))) (group_order p o rows).
Proof.
  intros Hp. induction 1 as [|r rs Hr Hrs IH]; simpl.
  - repeat constructor. exact Hp.
  - destruct (period_index p <? period_index (Sales.period r)).
    + repeat constructor; assumption.
    + destruct (period_index p =? period_index (Sales.period r));
        constructor; assumption.
Qed.

Lemma group_order_ascending p o rows :
  ascending_periods rows -> ascending_periods (group_order p o rows).
Proof.
  unfold ascending_periods. induction 1 as [|r rs Hrs IH Hr]; simpl.
  - repeat constructor.
  - destruct (Z.ltb_spec (period_index p) (period_index (Sales.period r))) as [Hlt|Hge].
    + constructor; [constructor; assumption|]. constructor; [exact Hlt|].
      eapply Forall_impl; [exact Hr|]. simpl. intros; lia.
    + destruct (Z.eqb_spec (period_index p) (period_index (Sales.period r))) as [Heq|Hne].
      * constructor; assumption.
      * constructor; [exact IH|].
        apply (group_order_Forall (fun i => period_index (Sales.period r) < i));
          [lia | exact Hr].
Qed.

Lemma row_at_below i rows :
  Forall (fun r => i < period_index (Sales.period r)) rows -> row_at i rows = None.
Proof.
  induction 1 as [|r rs Hr _ IH]; simpl; [reflexivity|].
  destruct (Z.eqb_spec (period_index (Sales.period r)) i); [lia | exact IH].
Qed.

Lemma row_at_group_order i p o rows :
  ascending_periods rows ->
  row_at i (group_order p o rows) =
    if period_index p =? i
    then Some (match row_at i rows with
               | Some r => next_in_period r o
               | None => first_in_period p o
               end)
    else row_at i rows.
Proof.
  unfold ascending_periods. induction 1 as [|r rs Hrs IH Hr]; simpl.
  - reflexivity.
  - destruct (Z.ltb_spec (period_index p) (period_index (Sales.period r))) as [Hlt|Hge].
    + simpl. destruct (Z.eqb_spec (period_index p) i) as [<-|Hne]; [|reflexivity].
      destruct (Z.eqb_spec (period_index (Sales.period r)) (period_index p)); [lia|].
      rewrite row_at_below; [reflexivity|].
      eapply Forall_impl; [exact Hr|]. simpl. intros; lia.
    + destruct (Z.eqb_spec (period_index p) (period_index (Sales.period r))) as [Heq|Hne].
      * simpl. rewrite Heq.
        destruct (period_index (Sales.period r) =? i); reflexivity.
      * simpl. rewrite IH.
        destruct (Z.eqb_spec (period_index (Sales.period r)) i) as [<-|Hri];
          [|reflexivity].
        destruct (Z.eqb_spec (period_index p) (period_index (Sales.period r)));
          [lia | reflexivity].
Qed.

Lemma groupby_rows key os : forall rows,
  ascending_periods rows ->
  ascending_periods (fold_left (fun rows o => group_order (key o) o rows) os rows) /\
  forall i,
    row_at i (fold_left (fun rows o => group_order (key o) o rows) os rows) =
      aggregate key (filter (fun o => period_index (key o) = i) os) (row_at i rows).
Proof.
  induction os as [|o os IH]; intros rows Hrows; simpl.
  - split; [exact Hrows | reflexivity].
  - destruct (IH (group_order (key o) o rows)) as [Hasc Hat];
      [apply group_order_ascending; exact Hrows|].
    split; [exact Hasc|]. intros i. rewrite Hat, row_at_group_order by exact Hrows.
    rewrite filter_cons. destruct (decide (period_index (key o) = i)) as [Hi|Hi].
    + apply Z.eqb_eq in Hi as ->. reflexivity.
    + apply Z.eqb_neq in Hi as ->. reflexivity.
Qed.

Lemma aggregate_Some key os : forall r,
  aggregate key os (Some r) =
    Some {| Sales.period := Sales.period r;
            Sales.orders_count := Sales.orders_count r + Z.of_nat (length os);
            Sales.total_revenue := sum64 (Sales.total_revenue r) (get_total <$> os);
            Sales.total_items :=
              sum64 (Sales.total_items r) (get_items_count <$> os) |}.
Proof.
  unfold aggregate, sum64. induction os as [|o os IH]; intros r.
  - simpl. destruct r; simpl. do 2 f_equal; lia.
  - cbn [fold_left]. rewrite IH. rewrite !fmap_cons.
    cbn [length fold_left Sales.period Sales.orders_count Sales.total_revenue
         Sales.total_items next_in_period].
    do 2 f_equal; lia.
Qed.

Lemma aggregate_None key o os :
  aggregate key (o :: os) None =
    Some {| Sales.period := key o;
            Sales.orders_count := Z.of_nat (length (o :: os));
            Sales.total_revenue := sum64 (get_total o) (get_total <$> os);
            Sales.total_items :=
              sum64 (get_items_count o) (get_items_count <$> os) |}.
Proof.
  change (aggregate key (o :: os) None)
    with (aggregate key os (Some (first_in_period (key o) o))).
  rewrite aggregate_Some.
  cbn [length first_in_period Sales.period Sales.orders_count
       Sales.total_revenue Sales.total_items].
  do 2 f_equal; lia.
Qed.

Lemma row_at_elem_of rows r :
  ascending_periods rows -> r ∈ rows ->
  row_at (period_index (Sales.period r)) rows = Some r.
Proof.
  unfold ascending_periods. induction 1 as [|r' rs Hrs IH Hr]; intros Hin.
  - inversion Hin.
  - simpl. apply elem_of_cons in Hin as [->|Hin].
    + rewrite Z.eqb_refl. reflexivity.
    + rewrite Forall_forall in Hr. specialize (Hr r Hin).
      destruct (Z.eqb_spec (period_index (Sales.period r'))
                  (period_index (Sales.period r))); [lia | auto].
Qed.

Lemma row_at_Some i rows r :
  row_at i rows = Some r -> r ∈ rows /\ period_index (Sales.period r) = i.
Proof.
  induction rows as [|r' rs IH]; simpl; [discriminate|].
  destruct (Z.eqb_spec (period_index (Sales.period r')) i) as [Heq|Hne].
  - intros [= ->]. split; [left | exact Heq].
  - intros [Hin Hi]%IH. split; [right; exact Hin | exact Hi].
Qed.

Lemma order_period_index period o o' :
  period_index (order_period period o) = period_index (order_period period o') <->
  order_period period o = order_period period o'.
Proof.
  unfold order_period, period_of.
  destruct (String.eqb period "weekly"), (String.eqb period "monthly"); simpl;
    split; congruence.
Qed.

Lemma orders_in_index period o orders :
  filter (fun o' => period_index (order_period period o') =
                    period_index (order_period period o)) orders =
  orders_in period (order_period period o) orders.
Proof.
  unfold orders_in. induction orders as [|o' os IH]; [reflexivity|].
  rewrite !filter_cons, IH.
  destruct (decide (period_index (order_period period o') =
                    period_index (order_period period o))) as [H|H],
           (decide (order_period period o' = order_period period o)) as [H'|H'];
    try reflexivity; exfalso.
  - apply H', order_period_index, H.
  - apply H, order_period_index, H'.
Qed.

Lemma sales_dynamics_fold orders period :
  get_sales_dynamics orders period =
  fold_left (fun rows o => group_order (order_period period o) o rows) orders [].
Proof. destruct orders; reflexivity. Qed.

Lemma sales_dynamics_ascending orders period :
  ascending_periods (get_sales_dynamics orders period).
Proof.
  rewrite sales_dynamics_fold.
  apply (groupby_rows (order_period period) orders []). constructor.
Qed.

(** A row is made of the orders of its period: it counts them, and holds the
    64-bit sums of their totals and of their item counts, taken in the order
    of the list. *)
Lemma sales_dynamics_row orders period r :
  r ∈ get_sales_dynamics orders period ->
  exists o os,
    orders_in period (Sales.period r) orders = o :: os /\
    Sales.orders_count r = Z.of_nat (length (o :: os)) /\
    Sales.total_revenue r = sum64 (get_total o) (get_total <$> os) /\
    Sales.total_items r = sum64 (get_items_count o) (get_items_count <$> os).
Proof.
  intros Hr. pose proof (sales_dynamics_ascending orders period) as Hasc.
  pose proof (row_at_elem_of _ _ Hasc Hr) as Hat.
  rewrite sales_dynamics_fold in Hat.
  rewrite (proj2 (groupby_rows (order_period period) orders []
                    ltac:(constructor))) in Hat.
  cbn [row_at] in Hat.
  destruct (filter _ orders) as [|o os] eqn:Hf in Hat; [discriminate|].
  rewrite aggregate_None in Hat. injection Hat as Hat.
  assert (Hp : Sales.period r = order_period period o) by (rewrite <- Hat; reflexivity).
  rewrite Hp, orders_in_index in Hf.
  exists o, os. rewrite Hp, Hf, <- Hat. cbn. auto.
Qed.

Lemma sales_dynamics_cover orders period o :
  o ∈ orders ->
  exists r, r ∈ get_sales_dynamics orders period /\
            Sales.period r = order_period period o.
Proof.
  intros Ho. rewrite sales_dynamics_fold.
  destruct (groupby_rows (order_period period) orders []) as [_ Hat];
    [constructor|].
  specialize (Hat (period_index (order_period period o))).
  cbn [row_at] in Hat. rewrite orders_in_index in Hat.
  destruct (orders_in period (order_period period o) orders) as [|o1 os] eqn:Hin.
  - exfalso. assert (Hmem : o ∈ orders_in period (order_period period o) orders).
    { apply (list_elem_of_filter
               (fun o' => order_period period o' = order_period period o)).
      split; [reflexivity | exact Ho]. }
    rewrite Hin in Hmem. inversion Hmem.
  - rewrite aggregate_None in Hat. apply row_at_Some in Hat as [Hr _].
    assert (Hmem : o1 ∈ orders_in period (order_period period o) orders)
      by (rewrite Hin; left).
    apply (list_elem_of_filter
             (fun o' => order_period period o' = order_period period o))
      in Hmem as [H1 _].
    eexists. split; [exact Hr|]. exact H1.
Qed.

(** *** The rows, together *)

Lemma ascending_labels rows :
  ascending_periods rows -> NoDup (Sales.period <$> rows).
Proof.
  unfold ascending_periods. induction 1 as [|r rs Hrs IH Hr]; csimpl; constructor.
  - intros (r' & Hp & Hr')%list_elem_of_fmap.
    rewrite Forall_forall in Hr. specialize (Hr r' Hr'). rewrite Hp in Hr. lia.
  - exact IH.
Qed.

Lemma sum_at_label (q : period_label) (x : Z) (h : period_label -> Z) ps :
  NoDup ps ->
  sumZ ((fun p => (if decide (q = p) then x else 0) + h p) <$> ps) =
  (if decide (q ∈ ps) then x else 0) + sumZ (h <$> ps).
Proof.
  induction 1 as [|p ps Hp Hps IH]; [reflexivity|].
  rewrite !fmap_cons. cbn [sumZ]. rewrite IH.
  destruct (decide (q = p)) as [->|Hne].
  - destruct (decide (p ∈ ps)); [contradiction|].
    destruct (decide (p ∈ p :: ps)) as [|Hno]; [lia|].
    exfalso. apply Hno. left.
  - destruct (decide (q ∈ ps)) as [Hin|Hout],
             (decide (q ∈ p :: ps)) as [Hin'|Hout']; try lia; exfalso.
    + apply Hout'. right. exact Hin.
    + apply elem_of_cons in Hin' as [?|?]; contradiction.
Qed.

(** The sums over the periods of a list of distinct labels that holds the
    period of every order add up to the sum over all orders. *)
Lemma period_sums_add_up f period ps orders :
  NoDup ps ->
  Forall (fun o => order_period period o ∈ ps) orders ->
  sumZ (period_sum f period orders <$> ps) = sumZ (f <$> orders).
Proof.
  intros Hps. unfold period_sum, orders_in.
  induction 1 as [|o os Ho Hos IH].
  - induction ps as [|p ps IHps]; [reflexivity|].
    apply NoDup_cons in Hps as [_ Hps]. rewrite fmap_cons. cbn [sumZ].
    rewrite (IHps Hps). reflexivity.
  - rewrite fmap_cons. cbn [sumZ]. rewrite <- IH.
    rewrite <- (decide_True (P := order_period period o ∈ ps) (f o) 0 Ho).
    rewrite <- (sum_at_label (order_period period o) (f o)) by exact Hps.
    f_equal. apply list_fmap_ext. intros _ p _.
    rewrite filter_cons. destruct (decide (order_period period o = p)); csimpl; lia.
Qed.

Lemma sumZ_fmap_ext {A} (g h : A -> Z) l :
  (forall x, x ∈ l -> g x = h x) -> sumZ (g <$> l) = sumZ (h <$> l).
Proof.
  induction l as [|x l IH]; intros H; [reflexivity|].
  rewrite !fmap_cons. cbn [sumZ]. rewrite (H x) by left.
  rewrite IH; [reflexivity|]. intros y Hy. apply H. right. exact Hy.
Qed.

(** A column of 64-bit sums adds up to the exact sum over the orders when no
    sum overflows. *)
Lemma column_adds_up (col : Sales.row -> Z) (f : Order -> Z) orders period :
  (forall r, r ∈ get_sales_dynamics orders period ->
     exists o os, orders_in period (Sales.period r) orders = o :: os /\
                  col r = sum64 (f o) (f <$> os)) ->
  no_overflow f period orders ->
  sumZ (col <$> get_sales_dynamics orders period) = sumZ (f <$> orders).
Proof.
  intros Hcol Hfit. unfold no_overflow in Hfit. rewrite Forall_forall in Hfit.
  rewrite <- (period_sums_add_up f period
                (Sales.period <$> get_sales_dynamics orders period) orders).
  - rewrite <- list_fmap_compose. apply sumZ_fmap_ext. intros r Hr. simpl.
    destruct (Hcol r Hr) as (o & os & Hin & ->).
    assert (Ho : o ∈ orders_in period (Sales.period r) orders) by (rewrite Hin; left).
    apply (list_elem_of_filter (fun o => order_period period o = Sales.period r))
      in Ho as [Hp Ho].
    destruct (Hfit o Ho) as [Hfo Hsum]. rewrite Hp in Hsum.
    unfold period_sum in *. rewrite Hin in *. rewrite fmap_cons in *.
    cbn [sumZ] in *. rewrite sum64_spec by exact Hfo. apply int64_id, Hsum.
  - apply ascending_labels, sales_dynamics_ascending.
  - apply Forall_forall. intros o Ho.
    destruct (sales_dynamics_cover orders period o Ho) as (r & Hr & <-).
    apply list_elem_of_fmap. eauto.
Qed.

(** C5, as the code has it.  For orders whose totals fit in 64 bits and add
    up, period by period, to a number that fits in 64 bits, the revenues of
    the rows of [get_sales_dynamics] add up to the sum of the order totals,
    for every period selector. *)
Theorem C5_sales_dynamics_conserves_revenue orders period :
  no_overflow get_total period orders ->
  sumZ (Sales.total_revenue <$> get_sales_dynamics orders period) =
  sumZ (get_total <$> orders).
Proof.
  apply column_adds_up. intros r Hr.
  destruct (sales_dynamics_row orders period r Hr) as (o & os & Hin & _ & Hrev & _).
  eauto.
Qed.

Lemma C5_sales_dynamics_conserves_revenue_witness :
  sumZ (Sales.total_revenue <$> get_sales_dynamics test_orders "weekly") =
  sumZ (get_total <$> test_orders).
Proof.
  apply C5_sales_dynamics_conserves_revenue.
  unfold no_overflow, fits_int64. repeat constructor; vm_compute; discriminate.
Defined.

(** The sum of a period is a 64-bit sum: two orders of one day with a total
    of [2 ^ 62] each give a row with the revenue [- 2 ^ 63], and the revenues
    of the rows do not add up to the sum of the order totals. *)
Lemma C5_int64_overflow_counterexample :
  get_sales_dynamics big_orders "daily" =
    [ {| Sales.period := Day 738534; Sales.orders_count := 2;
         Sales.total_revenue := - 2 ^ 63; Sales.total_items := 2 |} ] /\
  sumZ (get_total <$> big_orders) = 2 ^ 63 /\
  sumZ (Sales.total_revenue <$> get_sales_dynamics big_orders "daily") <>
  sumZ (get_total <$> big_orders).
Proof. vm_compute. repeat split; discriminate. Qed.

(** C10.  A period selector other than ['weekly'] and ['monthly'] gives the
    rows of ['daily']; no selector is rejected. *)
Theorem C10_unknown_period_is_daily orders period :
  period <> "weekly" -> period <> "monthly" ->
  get_sales_dynamics orders period = get_sales_dynamics orders "daily".
Proof.
  intros Hw Hm. unfold get_sales_dynamics, period_of.
  apply String.eqb_neq in Hw, Hm. now rewrite Hw, Hm.
Qed.

Lemma C10_unknown_period_is_daily_witness :
  get_sales_dynamics [mk_order 1 63809337600000000 []] "Weekly" =
  get_sales_dynamics [mk_order 1 63809337600000000 []] "daily".
Proof.
  apply C10_unknown_period_is_daily; discriminate.
Defined.

Example sales_dynamics_test :
  sumZ (Sales.total_revenue <$> get_sales_dynamics test_orders "daily") = 61000 /\
  length (get_sales_dynamics test_orders "daily") = 3%nat /\
  length (get_sales_dynamics test_orders "monthly") = 1%nat.
Proof. vm_compute. repeat split. Qed.

(** ** Per-product statistics *)

Example product_sales_stats_test :
  exists r1 r3,
    get_product_sales_stats insertion_sort_values test_orders =
      Return [r1;
              {| ProductSales.row_product_id := 2; ProductSales.row_name := "mouse";
                 ProductSales.row_category := "accessories";
                 ProductSales.quantity_sold := 3; ProductSales.row_revenue := 6000;
                 ProductSales.orders_count := 2 |};
              r3].
Proof. eexists _, _. vm_compute. reflexivity. Qed.

(** C6.  On a list of orders without any line, and so on the empty list, the
    frame has no ['revenue'] column and the call raises [KeyError] instead of
    returning a frame without rows. *)
Theorem C6_product_sales_stats_empty_raises sort_values :
  get_product_sales_stats sort_values [] = Raise (KeyError "revenue") /\
  get_product_sales_stats sort_values [mk_order 1 0 []; mk_order 2 0 []] =
    Raise (KeyError "revenue").
Proof. split; reflexivity. Qed.

(** Everywhere else the rows are those of the claim.  The statistics of a
    product are folded over its lines, in the order the loops visit them. *)
Lemma product_stats_all_lines orders : forall st,
  fold_left (fun st o => fold_left record_line (items o) st) orders st =
  fold_left record_line (all_lines orders) st.
Proof.
  unfold all_lines. induction orders as [|o os IH]; intros st; csimpl.
  - reflexivity.
  - now rewrite fold_left_app, IH.
Qed.

Lemma entry_elem_of {K V} `{EqDecision K} (k : K) (v : V) d :
  entry k d = Some v -> (k, v) ∈ d.
Proof.
  induction d as [|[k' v'] d IH]; simpl; [discriminate|].
  destruct (decide (k' = k)) as [->|_].
  - intros [= ->]. apply elem_of_cons. now left.
  - intros H. apply elem_of_cons. right. auto.
Qed.

Lemma elem_of_entry {K V} `{EqDecision K} (k : K) (v : V) d :
  NoDup d.*1 -> (k, v) ∈ d -> entry k d = Some v.
Proof.
  induction d as [|[k' v'] d IH]; simpl.
  - intros _ H. now apply elem_of_nil in H.
  - intros [Hk Hnd]%NoDup_cons [[= <- <-]|Hin]%elem_of_cons.
    + now destruct (decide (k = k)).
    + destruct (decide (k' = k)) as [->|_]; [|auto].
      exfalso. apply Hk. apply list_elem_of_fmap. now exists (k, v).
Qed.

Lemma entry_None {K V} `{EqDecision K} (k : K) (d : list (K * V)) :
  entry k d = None <-> k ∉ d.*1.
Proof.
  induction d as [|[k' v'] d IH]; simpl.
  - split; [intros _; apply not_elem_of_nil | reflexivity].
  - rewrite not_elem_of_cons. destruct (decide (k' = k)) as [->|Hne].
    + split; [discriminate | tauto].
    + rewrite IH. split; [auto | tauto].
Qed.

Lemma entry_record_line k st item :
  entry k (record_line st item) =
    if decide (k = item_pid item)
    then Some (count_line (default fresh_stats (entry k st)) item)
    else entry k st.
Proof.
  induction st as [|[k' s] st IH]; simpl.
  - destruct (decide (k = item_pid item)) as [->|Hne].
    + now destruct (decide (item_pid item = item_pid item)).
    + destruct (decide (item_pid item = k)); [congruence | reflexivity].
  - destruct (Z.eqb_spec k' (item_pid item)) as [E|Hne]; simpl.
    + destruct (decide (k' = k)) as [E'|Hne'];
        destruct (decide (k = item_pid item)); try congruence; reflexivity.
    + destruct (decide (k' = k)) as [E'|Hne']; [|exact IH].
      destruct (decide (k = item_pid item)); [congruence | reflexivity].
Qed.

Lemma keys_record_line st item :
  NoDup st.*1 -> NoDup (record_line st item).*1.
Proof.
  induction st as [|[k' s] st IH]; simpl.
  - intros _. apply NoDup_singleton.
  - intros [Hk Hnd]%NoDup_cons.
    destruct (Z.eqb_spec k' (item_pid item)) as [E|Hne]; csimpl.
    + now apply NoDup_cons.
    + apply NoDup_cons. split; [|auto].
      apply entry_None. rewrite entry_record_line.
      destruct (decide (k' = item_pid item)); [contradiction|].
      now apply entry_None.
Qed.

Lemma entry_fold_record k lines : forall st,
  entry k (fold_left record_line lines st) =
  fold_lines (lines_of k lines) (entry k st).
Proof.
  induction lines as [|item rest IH]; intros st; simpl; [reflexivity|].
  rewrite IH, entry_record_line. unfold lines_of. rewrite filter_cons.
  destruct (decide (k = item_pid item)) as [->|Hne].
  - destruct (decide (item_pid item = item_pid item)); [|congruence]. simpl.
    now destruct (filter _ rest).
  - destruct (decide (item_pid item = k)); [congruence | reflexivity].
Qed.

Lemma keys_fold_record lines : forall st,
  NoDup st.*1 -> NoDup (fold_left record_line lines st).*1.
Proof.
  induction lines as [|item rest IH]; intros st H; simpl; [exact H|].
  apply IH. now apply keys_record_line.
Qed.

Lemma fold_count_line ls : forall s,
  let s' := fold_left count_line ls s in
  ProductSales.quantity s' = ProductSales.quantity s + sumZ (quantity <$> ls) /\
  ProductSales.revenue s' = ProductSales.revenue s + sumZ (item_total <$> ls) /\
  ProductSales.orders s' = ProductSales.orders s + Z.of_nat (length ls) /\
  ProductSales.name s' = from_option (fun it => product_name (product it))
                           (ProductSales.name s) (last ls) /\
  ProductSales.category s' = from_option (fun it => category (product it))
                               (ProductSales.category s) (last ls).
Proof.
  induction ls as [|it ls IH]; intros s; csimpl.
  - repeat split; lia.
  - destruct (IH (count_line s it)) as (Hq & Hr & Ho & Hn & Hc).
    cbv zeta. rewrite Hq, Hr, Ho, Hn, Hc. simpl.
    repeat split; try lia; rewrite last_cons; now destruct (last ls).
Qed.

Lemma lines_of_nonempty pid its :
  pid ∈ item_pid <$> its <-> lines_of pid its <> [].
Proof.
  split.
  - intros (it & -> & Hin)%list_elem_of_fmap Hnil.
    exact (filter_nil_not_elem_of _ _ it Hnil eq_refl Hin).
  - intros H. destruct (lines_of pid its) as [|it l] eqn:E; [congruence|].
    assert (Hit : it ∈ lines_of pid its) by (rewrite E; apply elem_of_cons; auto).
    apply list_elem_of_filter in Hit as [<- Hit].
    now apply list_elem_of_fmap_2.
Qed.

(** The rows on a list of orders that has a line: one row for each product
    id of a line, with the sums over the lines of that product, the number of
    these lines and the name and category of the last of them, in descending
    order of revenue. *)
Lemma product_sales_stats_rows sort_values orders :
  sorts_by_revenue sort_values ->
  all_lines orders <> [] ->
  exists rows,
    get_product_sales_stats sort_values orders = Return rows /\
    revenue_descending rows /\
    NoDup (ProductSales.row_product_id <$> rows) /\
    (forall pid, pid ∈ ProductSales.row_product_id <$> rows <->
                 pid ∈ item_pid <$> all_lines orders) /\
    (forall r, r ∈ rows ->
       let ls := lines_of (ProductSales.row_product_id r) (all_lines orders) in
       ProductSales.quantity_sold r = sumZ (quantity <$> ls) /\
       ProductSales.row_revenue r = sumZ (item_total <$> ls) /\
       ProductSales.orders_count r = Z.of_nat (length ls) /\
       exists it, last ls = Some it /\
                  ProductSales.row_name r = product_name (product it) /\
                  ProductSales.row_category r = category (product it)).
Proof.
  intros Hsort Hlines. unfold get_product_sales_stats, product_stats.
  rewrite product_stats_all_lines.
  set (st := fold_left record_line (all_lines orders) []).
  assert (Hnd : NoDup st.*1) by (apply keys_fold_record; constructor).
  assert (Hentry : forall k, entry k st = fold_lines (lines_of k (all_lines orders)) None)
    by (intros k; apply entry_fold_record).
  assert (Hkeys : forall k, k ∈ st.*1 <-> k ∈ item_pid <$> all_lines orders).
  { intros k. rewrite lines_of_nonempty. split.
    - intros Hk Hnil. apply (proj1 (entry_None k st)); [|exact Hk].
      now rewrite Hentry, Hnil.
    - intros Hne. destruct (decide (k ∈ st.*1)) as [|Hout]; [assumption|].
      apply entry_None in Hout. rewrite Hentry in Hout.
      destruct (lines_of k (all_lines orders)); [congruence | discriminate]. }
  assert (Hids : ProductSales.row_product_id <$> (stats_row <$> st) = st.*1).
  { rewrite <- list_fmap_compose. now apply list_fmap_ext. }
  destruct (Hsort (stats_row <$> st)) as [Hperm Hdesc].
  destruct (stats_row <$> st) as [|r0 data] eqn:Edata.
  { exfalso. apply fmap_nil_inv in Edata.
    destruct (all_lines orders) as [|it l] eqn:E; [congruence|].
    assert (Hin : item_pid it ∈ st.*1)
      by (apply Hkeys; rewrite fmap_cons; apply elem_of_cons; auto).
    rewrite Edata in Hin. now apply elem_of_nil in Hin. }
  eexists. split; [reflexivity|]. split; [exact Hdesc|].
  rewrite <- Edata in *. clear Edata r0 data.
  split; [|split].
  - rewrite Hperm, Hids. exact Hnd.
  - intros pid. rewrite Hperm, Hids. apply Hkeys.
  - intros r Hr. rewrite Hperm in Hr.
    apply list_elem_of_fmap in Hr as ([k s] & -> & Hks).
    apply (elem_of_entry _ _ _ Hnd) in Hks. rewrite Hentry in Hks.
    destruct (lines_of k (all_lines orders)) as [|it l] eqn:E; [discriminate|].
    assert (Hs : fold_left count_line (it :: l) fresh_stats = s)
      by (now injection Hks).
    pose proof (fold_count_line (it :: l) fresh_stats) as Hf.
    cbv zeta in Hf. rewrite Hs in Hf. clear Hs Hks.
    destruct Hf as (Hq & Hr & Ho & Hn & Hc).
    simpl. rewrite E, Hq, Hr, Ho, Hn, Hc. simpl.
    repeat split; try lia.
    destruct (last (it :: l)) as [it'|] eqn:El.
    + exists it'. repeat split.
    + now apply last_None in El.
Qed.

(** With lines keyed by distinct product ids inside each order, the number of
    lines of a product is the number of orders that contain it. *)
Lemma lines_of_unique pid its :
  NoDup (line_ids its) ->
  length (lines_of pid its) = if decide (pid ∈ line_ids its) then 1%nat else 0%nat.
Proof.
  induction its as [|it its IH]; csimpl; [reflexivity|].
  intros [Hit Hnd]%NoDup_cons. unfold lines_of in *. rewrite filter_cons.
  destruct (decide (item_pid it = pid)) as [<-|Hne].
  - fold (lines_of (item_pid it) its). rewrite lines_of_absent by assumption.
    destruct (decide (item_pid it ∈ item_pid it :: line_ids its)) as [|Hout];
      [reflexivity|]. exfalso. apply Hout, elem_of_cons. now left.
  - rewrite (IH Hnd).
    destruct (decide (pid ∈ line_ids its)) as [Hin|Hout];
      destruct (decide (pid ∈ item_pid it :: line_ids its)) as [Hin'|Hout'];
      try reflexivity.
    + exfalso. apply Hout', elem_of_cons. now right.
    + apply elem_of_cons in Hin' as [->|Hin']; [congruence | contradiction].
Qed.

Lemma lines_per_order pid orders :
  Forall (fun o => NoDup (line_ids (items o))) orders ->
  length (lines_of pid (all_lines orders)) =
  length (filter (fun o => pid ∈ line_ids (items o)) orders).
Proof.
  unfold all_lines. induction 1 as [|o os Ho Hos IH]; csimpl; [reflexivity|].
  unfold lines_of in *. rewrite filter_app, length_app, IH, filter_cons.
  fold (lines_of pid (items o)). rewrite (lines_of_unique _ _ Ho).
  now destruct (decide (pid ∈ line_ids (items o))).
Qed.

(** The insertion sort is a [sort_values]. *)
Lemma insert_row_perm r rows : insert_row r rows ≡ₚ r :: rows.
Proof.
  induction rows as [|r' rest IH]; simpl; [reflexivity|].
  destruct (ProductSales.row_revenue r' <=? ProductSales.row_revenue r);
    [reflexivity|].
  rewrite IH. apply Permutation_swap.
Qed.

Lemma insert_row_sorted r rows :
  revenue_descending rows -> revenue_descending (insert_row r rows).
Proof.
  unfold revenue_descending. induction rows as [|r' rest IH]; simpl; intros S.
  - repeat constructor.
  - destruct (Z.leb_spec (ProductSales.row_revenue r') (ProductSales.row_revenue r)).
    + constructor; [exact S|]. constructor; [assumption|].
      apply StronglySorted_cons in S as [F _].
      eapply Forall_impl; [exact F|]. intros x Hx. simpl in *. lia.
    + apply StronglySorted_cons in S as [F S].
      constructor; [auto|]. rewrite insert_row_perm.
      constructor; [lia | exact F].
Qed.

Lemma insertion_sort_values_sorts : sorts_by_revenue insertion_sort_values.
Proof.
  intros rows. unfold insertion_sort_values.
  induction rows as [|r rows [IHp IHs]]; simpl.
  - split; [reflexivity | constructor].
  - split; [now rewrite insert_row_perm, IHp | now apply insert_row_sorted].
Qed.

(** ** The shared-purchase graph *)

Example product_graph_example :
  let a := person 1 "Moscow" in
  let b := person 2 "Moscow" in
  let c := person 3 "" in
  let G := build_customer_product_graph [a; b; c]
             [order_of 1 a [line laptop 1; line mouse 2];
              order_of 2 b [line mouse 1];
              order_of 3 b [line laptop 3; line mouse 1]] in
  nx.edges G !! nx.ekey 2 1 = Some (weighted 2) /\
  nx.edges G !! nx.ekey 1 3 = None /\
  is_Some (nx.nodes G !! 3).
Proof. vm_compute. repeat split. eexists. reflexivity. Qed.

Lemma fold_left_fmap {A B C} (f : A -> B -> A) (g : C -> B) (l : list C) : forall a,
  fold_left f (g <$> l) a = fold_left (fun a x => f a (g x)) l a.
Proof. induction l as [|x l IH]; intros a; csimpl; [reflexivity | apply IH]. Qed.

Lemma fold_left_bind {A B C} (f : A -> B -> A) (g : C -> list B) (l : list C) : forall a,
  fold_left f (l ≫= g) a = fold_left (fun a x => fold_left f (g x) a) l a.
Proof.
  induction l as [|x l IH]; intros a; csimpl; [reflexivity|].
  now rewrite fold_left_app, IH.
Qed.

Lemma ekey_eq x y a b :
  nx.ekey x y = nx.ekey a b <-> (x = a /\ y = b) \/ (x = b /\ y = a).
Proof.
  unfold nx.ekey.
  destruct (Z.leb_spec x y), (Z.leb_spec a b); split;
    try (intros [= -> ->]); try (intros [[-> ->]|[-> ->]]);
    try reflexivity; try lia; auto; f_equal; lia.
Qed.

Lemma ekey_sym a b : nx.ekey a b = nx.ekey b a.
Proof. apply ekey_eq. auto. Qed.

(** One run of the body of the pair loop, seen from an edge key. *)
Lemma link_edges G c k :
  nx.edges (link G c) !! k =
    if decide (pair_key c = k)
    then Some (match nx.edges G !! k with
               | Some e => {| nx.weight := Z.succ <$> nx.weight e;
                              nx.edge_city := nx.edge_city e |}
               | None => weighted 1
               end)
    else nx.edges G !! k.
Proof.
  unfold link, nx.has_edge, pair_key.
  destruct (decide (nx.ekey c.1 c.2 = k)) as [<-|Hne].
  - case_bool_decide as Hs; simpl.
    + rewrite lookup_alter_eq. destruct Hs as [e ->]. reflexivity.
    + rewrite lookup_insert_eq.
      destruct (nx.edges G !! nx.ekey c.1 c.2) eqn:E; [|reflexivity].
      exfalso. apply Hs. eauto.
  - case_bool_decide; simpl.
    + now rewrite lookup_alter_ne.
    + now rewrite lookup_insert_ne.
Qed.

Lemma link_count G c k n :
  nx.edges G !! k = edge_of_count n ->
  nx.edges (link G c) !! k =
    edge_of_count (n + length (filter (fun c => pair_key c = k) [c])).
Proof.
  intros H. rewrite link_edges, H, filter_cons, filter_nil.
  destruct (decide (pair_key c = k)); simpl.
  - destruct n as [|n]; simpl; [reflexivity|].
    unfold weighted. simpl. do 3 f_equal. lia.
  - now rewrite Nat.add_0_r.
Qed.

Lemma fold_link_count k ps : forall G n,
  nx.edges G !! k = edge_of_count n ->
  nx.edges (fold_left link ps G) !! k =
    edge_of_count (n + length (filter (fun c => pair_key c = k) ps)).
Proof.
  induction ps as [|c ps IH]; intros G n H; simpl.
  - now rewrite Nat.add_0_r.
  - rewrite (IH _ _ (link_count _ c _ _ H)).
    rewrite (filter_cons _ c ps), filter_cons, filter_nil.
    destruct (decide (pair_key c = k)); simpl; f_equal; lia.
Qed.

(** In a list without repetition every unordered pair of distinct elements
    is visited once by the two nested loops, and nothing else is. *)
Lemma count_eq (c : Z) xs :
  NoDup xs ->
  length (filter (fun y => y = c) xs) = if decide (c ∈ xs) then 1%nat else 0%nat.
Proof.
  induction xs as [|x xs IH]; [reflexivity|].
  intros [Hx Hnd]%NoDup_cons. rewrite filter_cons.
  destruct (decide (x = c)) as [->|Hne]; simpl; rewrite (IH Hnd).
  - destruct (decide (c ∈ xs)); [contradiction|].
    destruct (decide (c ∈ c :: xs)) as [|Hout]; [reflexivity|].
    exfalso. apply Hout, elem_of_cons. auto.
  - destruct (decide (c ∈ xs)) as [Hin|Hout];
      destruct (decide (c ∈ x :: xs)) as [Hin'|Hout']; try reflexivity.
    + exfalso. apply Hout', elem_of_cons. auto.
    + apply elem_of_cons in Hin' as [->|?]; [congruence | contradiction].
Qed.

Lemma filter_pair_fmap (P : Z * Z -> Prop) `{!forall c, Decision (P c)} x xs :
  length (filter P (pair x <$> xs)) = length (filter (fun y => P (x, y)) xs).
Proof.
  induction xs as [|y ys IH]; [reflexivity|].
  rewrite fmap_cons, !filter_cons.
  destruct (decide (P (x, y))); simpl; now rewrite IH.
Qed.

Lemma pairs_count cl a b :
  NoDup cl ->
  length (filter (fun c => pair_key c = nx.ekey a b) (pairs cl)) =
    if decide (a <> b /\ a ∈ cl /\ b ∈ cl) then 1%nat else 0%nat.
Proof.
  induction cl as [|x xs IH]; simpl.
  - intros _. destruct (decide _) as [(_ & H & _)|]; [|reflexivity].
    now apply elem_of_nil in H.
  - intros [Hx Hnd]%NoDup_cons.
    rewrite filter_app, length_app, (IH Hnd), filter_pair_fmap.
    unfold pair_key. simpl.
    assert (Hcount : length (filter (fun y => nx.ekey x y = nx.ekey a b) xs) =
                     if decide ((x = a /\ b ∈ xs) \/ (x = b /\ a ∈ xs))
                     then 1%nat else 0%nat).
    { clear IH. destruct (decide (x = a)) as [->|Hxa].
      - rewrite (list_filter_iff _ (fun y => y = b)).
        + rewrite (count_eq _ _ Hnd).
          destruct (decide (b ∈ xs)) as [Hb|Hb];
            destruct (decide _) as [Hd|Hd]; try reflexivity; exfalso; naive_solver.
        + intros y. rewrite ekey_eq. naive_solver.
      - destruct (decide (x = b)) as [->|Hxb].
        + rewrite (list_filter_iff _ (fun y => y = a)).
          * rewrite (count_eq _ _ Hnd).
            destruct (decide (a ∈ xs)) as [Ha|Ha];
              destruct (decide _) as [Hd|Hd]; try reflexivity; exfalso; naive_solver.
          * intros y. rewrite ekey_eq. naive_solver.
        + rewrite (list_filter_iff _ (fun _ => False)).
          * destruct (decide _) as [[[? _]|[? _]]|]; try congruence.
            clear. induction xs as [|y ys IH]; [reflexivity|].
            now rewrite filter_cons_False by tauto.
          * intros y. rewrite ekey_eq. naive_solver. }
    rewrite Hcount. clear Hcount IH.
    repeat match goal with
           | |- context [decide ?P] => destruct (decide P)
           end; try reflexivity; exfalso;
      repeat match goal with
             | H : context [_ ∈ _ :: _] |- _ => setoid_rewrite elem_of_cons in H
             end; naive_solver.
Qed.

(** The dictionary [product_customers]. *)
Lemma product_customers_purchases orders : forall pc,
  fold_left
    (fun pc o =>
       fold_left (fun pc item => note_purchase pc (item_pid item) (customer_id (customer o)))
         (items o) pc)
    orders pc =
  fold_left (fun pc e => note_purchase pc e.1 e.2) (purchases orders) pc.
Proof.
  unfold purchases. induction orders as [|o os IH]; intros pc; csimpl.
  - reflexivity.
  - now rewrite fold_left_app, fold_left_fmap, IH.
Qed.

Lemma elem_of_purchases orders p c :
  (p, c) ∈ purchases orders <->
  exists o it, o ∈ orders /\ it ∈ items o /\
               item_pid it = p /\ customer_id (customer o) = c.
Proof.
  unfold purchases. rewrite list_elem_of_bind. split.
  - intros (o & (it & [= -> ->] & Hit)%list_elem_of_fmap & Ho). eauto 6.
  - intros (o & it & Ho & Hit & <- & <-). exists o. split; [|exact Ho].
    apply list_elem_of_fmap. eauto.
Qed.

Lemma elem_of_purchased orders p c :
  p ∈ purchased orders c <-> (p, c) ∈ purchases orders.
Proof.
  unfold purchased. rewrite elem_of_list_to_set, list_elem_of_fmap. split.
  - intros ([p' c'] & -> & [Hc Hin]%list_elem_of_filter). simpl in *. now subst.
  - intros H. exists (p, c). split; [reflexivity|].
    apply list_elem_of_filter. auto.
Qed.

Lemma entry_note_purchase p pc p' c :
  entry p (note_purchase pc p' c) =
    if decide (p = p')
    then Some (let cs := default [] (entry p pc) in
               if decide (c ∈ cs) then cs else cs ++ [c])
    else entry p pc.
Proof.
  induction pc as [|[k cs] pc IH]; simpl.
  - destruct (decide (p' = p)), (decide (p = p')); congruence.
  - destruct (decide (k = p')) as [->|Hk]; simpl.
    + destruct (decide (p' = p)), (decide (p = p')); try congruence; reflexivity.
    + destruct (decide (k = p)) as [->|Hkp]; [|exact IH].
      destruct (decide (p = p')); congruence.
Qed.

Lemma records_nil : records [] [].
Proof.
  split; [constructor|]. intros p c H. now apply elem_of_nil in H.
Qed.

Lemma records_note_purchase pc evs p c :
  records pc evs -> records (note_purchase pc p c) (evs ++ [(p, c)]).
Proof.
  intros [Hnd Hent]. split.
  - clear Hent. induction pc as [|[k cs] pc IH]; simpl.
    + apply NoDup_singleton.
    + apply NoDup_cons in Hnd as [Hk Hnd].
      destruct (decide (k = p)) as [->|Hne]; csimpl.
      * now apply NoDup_cons.
      * apply NoDup_cons. split; [|auto].
        apply entry_None. rewrite entry_note_purchase.
        destruct (decide (k = p)); [contradiction|]. now apply entry_None.
  - intros q. rewrite entry_note_purchase. specialize (Hent q).
    destruct (decide (q = p)) as [->|Hne].
    + destruct (entry p pc) as [cl|]; simpl.
      * destruct Hent as [Hcl Hin]. destruct (decide (c ∈ cl)) as [Hc|Hc].
        -- split; [exact Hcl|]. intros c'.
           rewrite elem_of_app, list_elem_of_singleton, Hin. naive_solver.
        -- split.
           ++ apply NoDup_app. split; [exact Hcl|]. split; [|apply NoDup_singleton].
              intros x Hx [= ->]%list_elem_of_singleton. contradiction.
           ++ intros c'. rewrite !elem_of_app, !list_elem_of_singleton, Hin.
              naive_solver.
      * destruct (decide (c ∈ [])) as [H|_]; [now apply elem_of_nil in H|].
        split; [apply NoDup_singleton|]. intros c'. simpl.
        rewrite elem_of_app, !list_elem_of_singleton. naive_solver.
    + destruct (entry q pc) as [cl|].
      * destruct Hent as [Hcl Hin]. split; [exact Hcl|]. intros c'.
        rewrite elem_of_app, list_elem_of_singleton, Hin. naive_solver.
      * intros c'. rewrite elem_of_app, list_elem_of_singleton. naive_solver.
Qed.

Lemma records_fold evs : forall pc evs0,
  records pc evs0 ->
  records (fold_left (fun pc e => note_purchase pc e.1 e.2) evs pc) (evs0 ++ evs).
Proof.
  induction evs as [|[p c] evs IH]; intros pc evs0 H; simpl.
  - now rewrite app_nil_r.
  - replace (evs0 ++ (p, c) :: evs) with ((evs0 ++ [(p, c)]) ++ evs)
      by now rewrite <- app_assoc.
    apply IH. now apply records_note_purchase.
Qed.

Lemma records_product_customers orders :
  records (product_customers orders) (purchases orders).
Proof.
  unfold product_customers. rewrite product_customers_purchases.
  apply (records_fold _ [] []), records_nil.
Qed.

(** Nodes: every customer passed in is a node, and the edge pass loses none. *)
Lemma add_nodes_edges customers : forall G,
  nx.edges (fold_left (fun G c => nx.add_node (customer_id c) (name c) (city c) G)
              customers G) = nx.edges G.
Proof.
  induction customers as [|c cs IH]; intros G; simpl; [reflexivity|].
  now rewrite IH.
Qed.

Lemma add_nodes_nodes customers : forall G n,
  is_Some (nx.nodes G !! n) \/ n ∈ customer_id <$> customers ->
  is_Some (nx.nodes
             (fold_left (fun G c => nx.add_node (customer_id c) (name c) (city c) G)
                customers G) !! n).
Proof.
  induction customers as [|c cs IH]; intros G n; csimpl.
  - intros [H|H]; [exact H | now apply elem_of_nil in H].
  - intros H. apply IH. simpl.
    destruct (decide (customer_id c = n)) as [->|Hne].
    + left. rewrite lookup_insert_eq. eauto.
    + rewrite lookup_insert_ne by assumption.
      destruct H as [H|[->|H]%elem_of_cons]; [auto | congruence | auto].
Qed.

Lemma touch_keeps n m ns : is_Some (ns !! n) -> is_Some (nx.touch m ns !! n).
Proof.
  intros H. unfold nx.touch. destruct (ns !! m) eqn:E; [exact H|].
  destruct (decide (m = n)) as [->|Hne].
  - rewrite lookup_insert_eq. eauto.
  - now rewrite lookup_insert_ne.
Qed.

Lemma link_keeps_node G c n :
  is_Some (nx.nodes G !! n) -> is_Some (nx.nodes (link G c) !! n).
Proof.
  intros H. unfold link. destruct (nx.has_edge c.1 c.2 G); simpl; [exact H|].
  now do 2 apply touch_keeps.
Qed.

Lemma links_keep_node ps : forall G n,
  is_Some (nx.nodes G !! n) -> is_Some (nx.nodes (fold_left link ps G) !! n).
Proof.
  induction ps as [|c ps IH]; intros G n H; simpl; [exact H|].
  now apply IH, link_keeps_node.
Qed.

(** Edges: the weight of a pair counts the dictionary entries that hold both
    customers. *)
Lemma product_edges (pc : list (Z * list Z)) k : forall G n,
  nx.edges G !! k = edge_of_count n ->
  nx.edges (fold_left (fun G e => fold_left link (pairs e.2) G) pc G) !! k =
    edge_of_count
      (n + length (filter (fun c => pair_key c = k)
                     (pc ≫= fun e : Z * list Z => pairs e.2))).
Proof.
  intros G n H.
  rewrite <- (fold_left_bind link (fun e : Z * list Z => pairs e.2)).
  now apply fold_link_count.
Qed.

Lemma bind_pairs_count (pc : list (Z * list Z)) a b :
  (forall e, e ∈ pc -> NoDup e.2) ->
  length (filter (fun c => pair_key c = nx.ekey a b)
            (pc ≫= fun e : Z * list Z => pairs e.2)) =
  length (filter (fun e : Z * list Z => a <> b /\ a ∈ e.2 /\ b ∈ e.2) pc).
Proof.
  induction pc as [|e pc IH]; intros Hnd; [reflexivity|].
  rewrite bind_cons, filter_app, length_app, filter_cons.
  rewrite pairs_count by (apply Hnd, elem_of_cons; auto).
  rewrite IH by (intros e' He'; apply Hnd, elem_of_cons; auto).
  now destruct (decide (a <> b /\ a ∈ e.2 /\ b ∈ e.2)).
Qed.

Lemma shared_count orders a b :
  a <> b ->
  length (filter (fun e : Z * list Z => a <> b /\ a ∈ e.2 /\ b ∈ e.2)
            (product_customers orders)) =
  size (purchased orders a ∩ purchased orders b).
Proof.
  intros Hab. destruct (records_product_customers orders) as [Hnd Hent].
  set (pc := product_customers orders) in *.
  set (L := (filter (fun e : Z * list Z => a <> b /\ a ∈ e.2 /\ b ∈ e.2) pc).*1).
  assert (HL : NoDup L).
  { eapply sublist_NoDup; [exact Hnd|]. unfold L.
    apply fmap_sublist, sublist_filter. }
  rewrite <- (length_fmap fst). fold L.
  rewrite <- (size_list_to_set (C := gset Z) L HL). f_equal.
  apply set_eq. intros p.
  rewrite elem_of_list_to_set, elem_of_intersection, !elem_of_purchased.
  unfold L. rewrite list_elem_of_fmap. specialize (Hent p). split.
  - intros ([p' cl] & -> & [(_ & Ha & Hb) Hin]%list_elem_of_filter). simpl in *.
    rewrite (elem_of_entry _ _ _ Hnd Hin) in Hent. destruct Hent as [_ Hcl].
    split; now apply Hcl.
  - intros [Ha Hb]. destruct (entry p pc) as [cl|] eqn:E.
    + destruct Hent as [_ Hcl]. exists (p, cl). split; [reflexivity|].
      apply list_elem_of_filter. simpl. rewrite !Hcl.
      split; [auto | now apply entry_elem_of].
    + now apply Hent in Ha.
Qed.

Lemma product_graph_edge customers orders a b :
  nx.edges (build_customer_product_graph customers orders) !! nx.ekey a b =
    if decide (a <> b /\ purchased orders a ∩ purchased orders b <> ∅)
    then Some (weighted (Z.of_nat (size (purchased orders a ∩ purchased orders b))))
    else None.
Proof.
  unfold build_customer_product_graph.
  rewrite (product_edges _ _ _ 0%nat)
    by (rewrite add_nodes_edges; apply lookup_empty).
  rewrite bind_pairs_count.
  2:{ intros [p cl] Hin. simpl.
      destruct (records_product_customers orders) as [Hnd Hent].
      specialize (Hent p). rewrite (elem_of_entry _ _ _ Hnd Hin) in Hent.
      apply Hent. }
  simpl. destruct (decide (a = b)) as [->|Hab].
  - rewrite (list_filter_iff _ (fun _ => False)) by tauto.
    replace (filter (fun _ => False) (product_customers orders)) with (@nil (Z * list Z)).
    + simpl. destruct (decide _) as [[? _]|]; [congruence | reflexivity].
    + induction (product_customers orders) as [|e l IH]; [reflexivity|].
      now rewrite filter_cons_False by tauto.
  - rewrite (shared_count _ _ _ Hab).
    destruct (size (purchased orders a ∩ purchased orders b)) as [|n] eqn:E.
    + apply size_empty_iff, leibniz_equiv in E. simpl.
      destruct (decide _) as [[_ ?]|]; [congruence | reflexivity].
    + simpl. destruct (decide _) as [|Hno]; [reflexivity|].
      exfalso. apply Hno. split; [exact Hab|]. intros Hempty.
      rewrite Hempty, size_empty in E. discriminate.
Qed.

(** C7.  The edge of two distinct customers exists exactly when they have a
    purchased product in common, and its weight is the number of distinct
    products both have purchased; a customer has no edge to itself; every
    customer passed in is a node, without any edge when it bought nothing;
    two customers whose common products are [P] and [Q] are joined with
    weight 2. *)
Theorem C7_shared_purchase_graph customers orders :
  let G := build_customer_product_graph customers orders in
  (forall a b,
     nx.edges G !! nx.ekey a b =
       if decide (a <> b /\ purchased orders a ∩ purchased orders b <> ∅)
       then Some (weighted (Z.of_nat (size (purchased orders a ∩ purchased orders b))))
       else None) /\
  (forall c, c ∈ customers -> is_Some (nx.nodes G !! customer_id c)) /\
  (forall c x, c ∈ customers -> purchased orders (customer_id c) = ∅ ->
     nx.edges G !! nx.ekey (customer_id c) x = None) /\
  (forall A B P Q, A <> B -> P <> Q ->
     purchased orders A ∩ purchased orders B = {[P; Q]} ->
     nx.edges G !! nx.ekey A B = Some (weighted 2)).
Proof.
  intros G. split; [|split; [|split]].
  - intros a b. apply product_graph_edge.
  - intros c Hc. unfold G, build_customer_product_graph.
    set (G0 := fold_left _ customers nx.empty).
    assert (H0 : is_Some (nx.nodes G0 !! customer_id c)).
    { apply add_nodes_nodes. right. now apply list_elem_of_fmap_2. }
    clearbody G0. revert G0 H0.
    induction (product_customers orders) as [|e pc IH]; intros G0 H0; simpl;
      [exact H0|].
    now apply IH, links_keep_node.
  - intros c x _ Hnone. unfold G. rewrite product_graph_edge, Hnone.
    destruct (decide _) as [[_ Hne]|]; [|reflexivity].
    exfalso. apply Hne. set_solver.
  - intros A B P Q HAB HPQ Hcommon. unfold G.
    rewrite product_graph_edge, Hcommon.
    assert (Hsize : size ({[P; Q]} : gset Z) = 2%nat).
    { rewrite size_union by set_solver. now rewrite !size_singleton. }
    rewrite Hsize. destruct (decide _) as [|Hno]; [reflexivity|].
    exfalso. apply Hno. split; [exact HAB|]. intros Hempty.
    rewrite Hempty, size_empty in Hsize. discriminate.
Qed.

Lemma C7_shared_purchase_graph_witness :
  nx.edges
    (build_customer_product_graph
       [person 1 "Moscow"; person 2 "Moscow"; person 3 "Kazan"; person 4 ""]
       shared_orders) !! nx.ekey 1 2 = Some (weighted 2).
Proof.
  refine (proj2 (proj2 (proj2 (C7_shared_purchase_graph _ shared_orders)))
            1 2 1 2 _ _ _).
  - discriminate.
  - discriminate.
  - apply set_eq. intros p.
    rewrite elem_of_intersection, !elem_of_purchased, elem_of_union,
      !elem_of_singleton.
    vm_compute purchases. set_solver.
Defined.

(** ** The shared-city graph *)

Example city_graph_example :
  let G := build_customer_city_graph
             [person 1 "Moscow"; person 2 "Kazan"; person 3 "Moscow";
              person 4 ""; person 5 "Moscow"] in
  size (nx.edges G) = 3%nat /\
  nx.edges G !! nx.ekey 5 1 = Some (city_tag "Moscow") /\
  nx.edges G !! nx.ekey 1 2 = None /\
  nx.nodes G !! 4 = None /\
  size (nx.nodes G) = 4%nat.
Proof. vm_compute. repeat split. Qed.

Lemma entry_note_city ct cc ct' n :
  entry ct (note_city cc ct' n) =
    if decide (ct = ct') then Some (default [] (entry ct cc) ++ [n])
    else entry ct cc.
Proof.
  induction cc as [|[k cs] cc IH]; simpl.
  - destruct (decide (ct' = ct)), (decide (ct = ct')); congruence.
  - destruct (decide (k = ct')) as [->|Hk]; simpl.
    + destruct (decide (ct' = ct)), (decide (ct = ct')); try congruence; reflexivity.
    + destruct (decide (k = ct)) as [->|Hkp]; [|exact IH].
      destruct (decide (ct = ct')); congruence.
Qed.

Lemma keys_note_city cc ct n : NoDup cc.*1 -> NoDup (note_city cc ct n).*1.
Proof.
  induction cc as [|[k cs] cc IH]; simpl.
  - intros _. apply NoDup_singleton.
  - intros [Hk Hnd]%NoDup_cons.
    destruct (decide (k = ct)) as [->|Hne]; csimpl.
    + now apply NoDup_cons.
    + apply NoDup_cons. split; [|auto].
      apply entry_None. rewrite entry_note_city.
      destruct (decide (k = ct)); [contradiction|]. now apply entry_None.
Qed.

Lemma ids_in_snoc ct cs c :
  ids_in ct (cs ++ [c]) =
    if decide (city c = ct) then ids_in ct cs ++ [customer_id c] else ids_in ct cs.
Proof.
  unfold ids_in. rewrite filter_app, fmap_app, filter_cons, filter_nil.
  destruct (decide (city c = ct)); [reflexivity | now rewrite app_nil_r].
Qed.

Lemma grouped_nil : grouped ([], nx.empty) [].
Proof.
  split; [constructor|]. split; [|split; [|reflexivity]].
  - intros ct. simpl. now destruct (decide (ct = "")).
  - intros n. simpl. rewrite lookup_empty. split.
    + intros [? [=]].
    + intros (c & Hc & _). now apply elem_of_nil in Hc.
Qed.

Lemma grouped_step st cs c :
  grouped st cs ->
  grouped (if decide (city c = "") then st
           else (note_city st.1 (city c) (customer_id c),
                 nx.add_node (customer_id c) (name c) (city c) st.2))
          (cs ++ [c]).
Proof.
  intros (Hnd & Hent & Hnodes & Hedges).
  destruct (decide (city c = "")) as [Hc|Hc].
  - split; [exact Hnd|]. split; [|split; [|exact Hedges]].
    + intros ct. rewrite Hent, ids_in_snoc.
      destruct (decide (ct = "")); [reflexivity|].
      destruct (decide (city c = ct)); [congruence | reflexivity].
    + intros n. rewrite Hnodes. setoid_rewrite elem_of_app.
      setoid_rewrite list_elem_of_singleton. naive_solver.
  - split; [now apply keys_note_city|]. split; [|split; [|exact Hedges]].
    + intros ct. cbn [fst]. rewrite entry_note_city, Hent, ids_in_snoc.
      destruct (decide (ct = city c)) as [->|Hne].
      * destruct (decide (city c = "")); [contradiction|].
        destruct (decide (city c = city c)); [|congruence].
        destruct (ids_in (city c) cs); reflexivity.
      * destruct (decide (city c = ct)); [congruence | reflexivity].
    + intros n. cbn [snd nx.add_node nx.nodes]. setoid_rewrite elem_of_app.
      setoid_rewrite list_elem_of_singleton.
      destruct (decide (customer_id c = n)) as [<-|Hne].
      * rewrite lookup_insert_eq. split; [|eauto]. intros _. exists c. auto.
      * rewrite lookup_insert_ne by assumption. rewrite Hnodes. naive_solver.
Qed.

Lemma grouped_fold cs : forall st cs0,
  grouped st cs0 ->
  grouped
    (fold_left
       (fun st c =>
          if decide (city c = "") then st
          else (note_city st.1 (city c) (customer_id c),
                nx.add_node (customer_id c) (name c) (city c) st.2))
       cs st)
    (cs0 ++ cs).
Proof.
  induction cs as [|c cs IH]; intros st cs0 H; simpl.
  - now rewrite app_nil_r.
  - replace (cs0 ++ c :: cs) with ((cs0 ++ [c]) ++ cs) by now rewrite <- app_assoc.
    apply IH. now apply grouped_step.
Qed.

Lemma grouped_group_by_city customers :
  grouped (group_by_city customers) customers.
Proof. apply (grouped_fold customers _ []), grouped_nil. Qed.

Lemma fold_left_ext {A B} (f g : A -> B -> A) (l : list B) : forall a,
  (forall a x, f a x = g a x) -> fold_left f l a = fold_left g l a.
Proof.
  induction l as [|x l IH]; intros a H; simpl; [reflexivity|].
  rewrite H. now apply IH.
Qed.

Lemma city_graph_links customers :
  build_customer_city_graph customers =
  fold_left tag_link (city_links (group_by_city customers).1)
    (group_by_city customers).2.
Proof.
  unfold build_customer_city_graph, city_links.
  destruct (group_by_city customers) as [cc G]. simpl.
  rewrite fold_left_bind. apply fold_left_ext. intros G' e.
  now rewrite fold_left_fmap.
Qed.

Lemma tag_link_edges G w k :
  tags_only G ->
  nx.edges (tag_link G w) !! k =
    if decide (pair_key w.1 = k) then Some (city_tag w.2) else nx.edges G !! k.
Proof.
  intros Htags. unfold tag_link, pair_key. simpl.
  destruct (decide (nx.ekey w.1.1 w.1.2 = k)) as [<-|Hne].
  - rewrite lookup_insert_eq. f_equal.
    destruct (nx.edges G !! nx.ekey w.1.1 w.1.2) as [e|] eqn:E; [|reflexivity].
    now destruct (Htags _ _ E) as [ct ->].
  - now rewrite lookup_insert_ne.
Qed.

Lemma tag_link_tags_only G w : tags_only G -> tags_only (tag_link G w).
Proof.
  intros Htags k e. rewrite tag_link_edges by assumption.
  destruct (decide (pair_key w.1 = k)); [|apply Htags].
  intros [= <-]. eauto.
Qed.

(** After the [add_edge] calls an edge carries the city of the last call
    that named it. *)
Lemma tag_links_edges k ws : forall G,
  tags_only G ->
  nx.edges (fold_left tag_link ws G) !! k =
    match last (filter (fun w : (Z * Z) * string => pair_key w.1 = k) ws) with
    | Some w => Some (city_tag w.2)
    | None => nx.edges G !! k
    end.
Proof.
  induction ws as [|w ws IH]; intros G Htags; simpl; [reflexivity|].
  rewrite IH by now apply tag_link_tags_only.
  rewrite tag_link_edges by assumption. rewrite filter_cons.
  destruct (decide (pair_key w.1 = k)) as [E|N]; [|reflexivity].
  rewrite last_cons. now destruct (last (filter _ ws)).
Qed.

Lemma tag_link_nodes G w n :
  is_Some (nx.nodes (tag_link G w) !! n) <->
  is_Some (nx.nodes G !! n) \/ n = w.1.1 \/ n = w.1.2.
Proof.
  assert (Htouch : forall m ns,
             is_Some (nx.touch m ns !! n) <-> is_Some (ns !! n) \/ n = m).
  { intros m ns. unfold nx.touch. destruct (ns !! m) eqn:E.
    - split; [auto|]. intros [H| ->]; [exact H | eauto].
    - destruct (decide (m = n)) as [->|Hne].
      + rewrite lookup_insert_eq. split; [auto | eauto].
      + rewrite lookup_insert_ne by assumption. split; [auto|].
        intros [H| ->]; [exact H | congruence]. }
  unfold tag_link. simpl. rewrite !Htouch. tauto.
Qed.

Lemma tag_links_nodes ws : forall G n,
  is_Some (nx.nodes (fold_left tag_link ws G) !! n) <->
  is_Some (nx.nodes G !! n) \/ exists w, w ∈ ws /\ (n = w.1.1 \/ n = w.1.2).
Proof.
  induction ws as [|w ws IH]; intros G n; simpl.
  - split; [auto|]. intros [H|(w & Hw & _)]; [exact H | now apply elem_of_nil in Hw].
  - rewrite IH, tag_link_nodes. setoid_rewrite elem_of_cons. naive_solver.
Qed.

(** The pairs of the nested loops. *)
Lemma elem_of_pairs l a b : (a, b) ∈ pairs l -> a ∈ l /\ b ∈ l.
Proof.
  induction l as [|x xs IH]; simpl.
  - intros H. now apply elem_of_nil in H.
  - rewrite elem_of_app, list_elem_of_fmap, !elem_of_cons.
    intros [(y & [= -> ->] & Hy)|H]; [auto|].
    destruct (IH H). auto.
Qed.

Lemma pairs_distinct l a b : NoDup l -> (a, b) ∈ pairs l -> a <> b.
Proof.
  induction l as [|x xs IH]; simpl.
  - intros _ H. now apply elem_of_nil in H.
  - intros [Hx Hnd]%NoDup_cons.
    rewrite elem_of_app, list_elem_of_fmap.
    intros [(y & [= -> ->] & Hy)|H]; [|auto]. congruence.
Qed.

Lemma pairs_complete l a b :
  a ∈ l -> b ∈ l -> a <> b -> (a, b) ∈ pairs l \/ (b, a) ∈ pairs l.
Proof.
  induction l as [|x xs IH]; simpl.
  - intros H. now apply elem_of_nil in H.
  - rewrite !elem_of_cons, !elem_of_app, !list_elem_of_fmap.
    intros [->|Ha] [->|Hb] Hab; try congruence.
    + left. left. eauto.
    + right. left. eauto.
    + destruct (IH Ha Hb Hab); auto.
Qed.

Lemma elem_of_city_links (cc : list (string * list Z)) pr ct :
  (pr, ct) ∈ city_links cc <-> exists cl, (ct, cl) ∈ cc /\ pr ∈ pairs cl.
Proof.
  unfold city_links. rewrite list_elem_of_bind. split.
  - intros ([ct' cl] & (pr' & [= -> ->] & Hpr)%list_elem_of_fmap & He). eauto.
  - intros (cl & Hcl & Hpr). exists (ct, cl). split; [|exact Hcl].
    apply list_elem_of_fmap. eauto.
Qed.

Lemma elem_of_ids_in n ct cs :
  n ∈ ids_in ct cs <-> exists c, c ∈ cs /\ customer_id c = n /\ city c = ct.
Proof.
  unfold ids_in. rewrite list_elem_of_fmap. split.
  - intros (c & -> & [Hc Hin]%list_elem_of_filter). eauto.
  - intros (c & Hin & <- & <-). exists c. split; [reflexivity|].
    now apply list_elem_of_filter.
Qed.

Lemma ids_in_NoDup ct cs : NoDup (customer_id <$> cs) -> NoDup (ids_in ct cs).
Proof.
  intros H. eapply sublist_NoDup; [exact H|].
  apply fmap_sublist, sublist_filter.
Qed.

Lemma customer_unique cs c c' :
  NoDup (customer_id <$> cs) -> c ∈ cs -> c' ∈ cs ->
  customer_id c = customer_id c' -> c = c'.
Proof.
  induction cs as [|x cs IH]; csimpl.
  - intros _ H. now apply elem_of_nil in H.
  - intros [Hx Hnd]%NoDup_cons [->|Hc]%elem_of_cons [->|Hc']%elem_of_cons E;
      [reflexivity | | | auto].
    + exfalso. apply Hx. rewrite E. now apply list_elem_of_fmap_2.
    + exfalso. apply Hx. rewrite <- E. now apply list_elem_of_fmap_2.
Qed.

(** Every [add_edge] call joins two distinct customers of one city. *)
Lemma city_link_customers customers pr ct :
  NoDup (customer_id <$> customers) ->
  (pr, ct) ∈ city_links (group_by_city customers).1 ->
  ct <> "" /\ pr.1 <> pr.2 /\
  pr.1 ∈ ids_in ct customers /\ pr.2 ∈ ids_in ct customers.
Proof.
  intros Hnd (cl & Hcl & Hpr)%elem_of_city_links.
  destruct (grouped_group_by_city customers) as (Hkeys & Hent & _).
  apply (elem_of_entry _ _ _ Hkeys) in Hcl. rewrite Hent in Hcl.
  destruct (decide (ct = "")) as [|Hct]; [discriminate|].
  assert (cl = ids_in ct customers) as ->.
  { destruct (ids_in ct customers); [discriminate | now injection Hcl]. }
  destruct pr as [a b]. simpl. split; [exact Hct|]. split.
  - eapply pairs_distinct; [|exact Hpr]. now apply ids_in_NoDup.
  - now apply elem_of_pairs.
Qed.

Lemma same_city_linked customers c1 c2 :
  c1 ∈ customers -> c2 ∈ customers -> customer_id c1 <> customer_id c2 ->
  city c1 = city c2 -> city c1 <> "" ->
  exists pr, (pr, city c1) ∈ city_links (group_by_city customers).1 /\
             pair_key pr = nx.ekey (customer_id c1) (customer_id c2).
Proof.
  intros H1 H2 Hne Hcity Hnonempty.
  destruct (grouped_group_by_city customers) as (Hkeys & Hent & _).
  specialize (Hent (city c1)).
  destruct (decide (city c1 = "")); [contradiction|].
  assert (Hin1 : customer_id c1 ∈ ids_in (city c1) customers)
    by (apply elem_of_ids_in; eauto).
  assert (Hin2 : customer_id c2 ∈ ids_in (city c1) customers)
    by (apply elem_of_ids_in; eauto).
  destruct (ids_in (city c1) customers) as [|i l] eqn:E;
    [now apply elem_of_nil in Hin1|].
  simpl in Hent. apply entry_elem_of in Hent.
  destruct (pairs_complete _ _ _ Hin1 Hin2 Hne) as [Hp|Hp].
  - exists (customer_id c1, customer_id c2). split; [|reflexivity].
    apply elem_of_city_links. eauto.
  - exists (customer_id c2, customer_id c1). split; [|apply ekey_sym].
    apply elem_of_city_links. eauto.
Qed.

Lemma city_graph_key_inv customers k e :
  NoDup (customer_id <$> customers) ->
  nx.edges (build_customer_city_graph customers) !! k = Some e ->
  exists c1 c2,
    c1 ∈ customers /\ c2 ∈ customers /\
    k = nx.ekey (customer_id c1) (customer_id c2) /\
    customer_id c1 <> customer_id c2 /\
    city c1 = city c2 /\ city c1 <> "" /\ e = city_tag (city c1).
Proof.
  intros Hnd. rewrite city_graph_links.
  destruct (grouped_group_by_city customers) as (_ & _ & _ & Hedges).
  rewrite tag_links_edges
    by (intros k' e'; rewrite Hedges, lookup_empty; discriminate).
  rewrite Hedges, lookup_empty.
  destruct (last _) as [[pr ct]|] eqn:El; [|discriminate].
  intros [= <-].
  assert (Hw : (pr, ct) ∈ filter (fun w : (Z * Z) * string => pair_key w.1 = k)
                           (city_links (group_by_city customers).1)).
  { apply last_Some in El as [l' ->]. apply elem_of_app. right.
    now apply list_elem_of_singleton. }
  apply list_elem_of_filter in Hw as [Hkey Hw]. simpl in Hkey.
  destruct (city_link_customers _ _ _ Hnd Hw) as (Hct & Hne & H1 & H2).
  apply elem_of_ids_in in H1 as (c1 & Hc1 & Hid1 & Hcity1).
  apply elem_of_ids_in in H2 as (c2 & Hc2 & Hid2 & Hcity2).
  exists c1, c2. simpl. unfold pair_key in Hkey.
  repeat split; try assumption; congruence.
Qed.

Lemma city_graph_edge_inv customers a b e :
  NoDup (customer_id <$> customers) ->
  nx.edges (build_customer_city_graph customers) !! nx.ekey a b = Some e ->
  exists c1 c2,
    c1 ∈ customers /\ c2 ∈ customers /\
    customer_id c1 = a /\ customer_id c2 = b /\ a <> b /\
    city c1 = city c2 /\ city c1 <> "" /\ e = city_tag (city c1).
Proof.
  intros Hnd (c1 & c2 & Hc1 & Hc2 & Hkey & Hne & Hcity & Hct & ->)%city_graph_key_inv;
    [|exact Hnd].
  apply ekey_eq in Hkey as [[-> ->]|[-> ->]].
  - exists c1, c2. repeat split; assumption.
  - exists c2, c1. repeat split; try assumption; congruence.
Qed.

Lemma city_graph_edge customers c1 c2 :
  NoDup (customer_id <$> customers) ->
  c1 ∈ customers -> c2 ∈ customers -> customer_id c1 <> customer_id c2 ->
  city c1 = city c2 -> city c1 <> "" ->
  nx.edges (build_customer_city_graph customers)
    !! nx.ekey (customer_id c1) (customer_id c2) = Some (city_tag (city c1)).
Proof.
  intros Hnd H1 H2 Hne Hcity Hnonempty.
  destruct (same_city_linked _ _ _ H1 H2 Hne Hcity Hnonempty) as (pr & Hpr & Hkey).
  destruct (nx.edges (build_customer_city_graph customers)
              !! nx.ekey (customer_id c1) (customer_id c2)) as [e|] eqn:E.
  - destruct (city_graph_edge_inv _ _ _ _ Hnd E)
      as (c1' & c2' & Hc1' & _ & Hid1 & _ & _ & _ & _ & ->).
    now rewrite (customer_unique _ _ _ Hnd Hc1' H1 Hid1).
  - exfalso. rewrite city_graph_links in E.
    destruct (grouped_group_by_city customers) as (_ & _ & _ & Hedges).
    rewrite tag_links_edges in E
      by (intros k' e'; rewrite Hedges, lookup_empty; discriminate).
    destruct (last _) as [w|] eqn:El; [discriminate|].
    apply last_None in El.
    eapply (filter_nil_not_elem_of _ _ (pr, city c1) El); [exact Hkey | exact Hpr].
Qed.

Lemma city_graph_node customers n :
  NoDup (customer_id <$> customers) ->
  is_Some (nx.nodes (build_customer_city_graph customers) !! n) <->
  exists c, c ∈ customers /\ customer_id c = n /\ city c <> "".
Proof.
  intros Hnd. rewrite city_graph_links, tag_links_nodes.
  destruct (grouped_group_by_city customers) as (_ & _ & Hnodes & _).
  rewrite Hnodes. split; [|auto].
  intros [H|([pr ct] & Hw & Hn)]; [exact H|].
  destruct (city_link_customers _ _ _ Hnd Hw) as (Hct & _ & H1 & H2).
  apply elem_of_ids_in in H1 as (c1 & Hc1 & Hid1 & Hcity1).
  apply elem_of_ids_in in H2 as (c2 & Hc2 & Hid2 & Hcity2).
  simpl in Hn. destruct Hn as [->| ->]; [exists c1 | exists c2];
    repeat split; congruence.
Qed.

Lemma three_in_a_city c1 c2 c3 :
  NoDup (customer_id <$> [c1; c2; c3]) ->
  city c1 <> "" -> city c2 = city c1 -> city c3 = city c1 ->
  size (nx.edges (build_customer_city_graph [c1; c2; c3])) = 3%nat.
Proof.
  intros Hnd Hct H2 H3.
  unfold build_customer_city_graph, group_by_city. simpl.
  rewrite H2, H3. destruct (decide (city c1 = "")) as [|_]; [contradiction|].
  simpl. destruct (decide (city c1 = city c1)) as [_|]; [|congruence].
  simpl. destruct (decide (city c1 = city c1)) as [_|]; [|congruence].
  simpl.
  csimpl in Hnd.
  apply NoDup_cons in Hnd as [H1 Hnd]. apply NoDup_cons in Hnd as [H23 _].
  apply not_elem_of_cons in H1 as [H12 H1].
  apply not_elem_of_cons in H1 as [H13 _].
  apply not_elem_of_cons in H23 as [H23 _].
  rewrite lookup_empty. simpl.
  assert (K12 : nx.ekey (customer_id c1) (customer_id c2) <>
                nx.ekey (customer_id c1) (customer_id c3))
    by (rewrite ekey_eq; naive_solver).
  assert (K13 : nx.ekey (customer_id c1) (customer_id c3) <>
                nx.ekey (customer_id c2) (customer_id c3))
    by (rewrite ekey_eq; naive_solver).
  assert (K12' : nx.ekey (customer_id c1) (customer_id c2) <>
                 nx.ekey (customer_id c2) (customer_id c3))
    by (rewrite ekey_eq; naive_solver).
  rewrite !map_size_insert_None, map_size_empty;
    rewrite ?lookup_insert_ne by assumption;
    first [reflexivity | apply lookup_empty].
Qed.

(** The edges of one city: with three customers in it, there are three. *)
Lemma three_in_one_city customers ct c1 c2 c3 :
  NoDup (customer_id <$> customers) ->
  ct <> "" ->
  filter (fun c => city c = ct) customers = [c1; c2; c3] ->
  size (filter (fun ke : (Z * Z) * nx.edge_attr => ke.2 = city_tag ct)
          (nx.edges (build_customer_city_graph customers))) = 3%nat.
Proof.
  intros Hnd Hct Hfilter.
  set (G := build_customer_city_graph customers).
  assert (Hids : ids_in ct customers = [customer_id c1; customer_id c2; customer_id c3])
    by (unfold ids_in; now rewrite Hfilter).
  assert (Hin : forall c, c ∈ [c1; c2; c3] -> c ∈ customers /\ city c = ct).
  { intros c Hc. rewrite <- Hfilter in Hc.
    apply list_elem_of_filter in Hc. tauto. }
  destruct (Hin c1) as [M1 C1]; [set_solver|].
  destruct (Hin c2) as [M2 C2]; [set_solver|].
  destruct (Hin c3) as [M3 C3]; [set_solver|].
  pose proof (ids_in_NoDup ct _ Hnd) as Hdist. rewrite Hids in Hdist.
  apply NoDup_cons in Hdist as [H1 Hdist]. apply NoDup_cons in Hdist as [H23 _].
  apply not_elem_of_cons in H1 as [H12 H1].
  apply not_elem_of_cons in H1 as [H13 _].
  apply not_elem_of_cons in H23 as [H23 _].
  assert (K12 : nx.ekey (customer_id c1) (customer_id c2) <>
                nx.ekey (customer_id c1) (customer_id c3))
    by (rewrite ekey_eq; naive_solver).
  assert (K13 : nx.ekey (customer_id c1) (customer_id c3) <>
                nx.ekey (customer_id c2) (customer_id c3))
    by (rewrite ekey_eq; naive_solver).
  assert (K12' : nx.ekey (customer_id c1) (customer_id c2) <>
                 nx.ekey (customer_id c2) (customer_id c3))
    by (rewrite ekey_eq; naive_solver).
  assert (Hmap :
    filter (fun ke : (Z * Z) * nx.edge_attr => ke.2 = city_tag ct) (nx.edges G) =
    <[nx.ekey (customer_id c2) (customer_id c3) := city_tag ct]>
      (<[nx.ekey (customer_id c1) (customer_id c3) := city_tag ct]>
         (<[nx.ekey (customer_id c1) (customer_id c2) := city_tag ct]> ∅))).
  { apply map_eq. intros k. apply option_eq. intros e.
    rewrite map_lookup_filter_Some. simpl.
    rewrite !lookup_insert_Some, lookup_empty. split.
    - intros [Hk ->].
      destruct (city_graph_key_inv _ _ _ Hnd Hk)
        as (a & b & Ha & Hb & -> & Hne & Hcity & _ & Htag).
      injection Htag as Hca.
      assert (Ia : customer_id a ∈ ids_in ct customers)
        by (apply elem_of_ids_in; eauto).
      assert (Ib : customer_id b ∈ ids_in ct customers)
        by (apply elem_of_ids_in; exists b; repeat split; congruence).
      rewrite Hids in Ia, Ib. clear Hk Hids Hfilter Hin.
      generalize dependent (customer_id a). generalize dependent (customer_id b).
      intros ib Hib ia Hne Hia.
      rewrite !elem_of_cons, elem_of_nil in Hia, Hib.
      assert (S21 := ekey_sym (customer_id c2) (customer_id c1)).
      assert (S31 := ekey_sym (customer_id c3) (customer_id c1)).
      assert (S32 := ekey_sym (customer_id c3) (customer_id c2)).
      destruct Hia as [->|[->|[->|[]]]], Hib as [->|[->|[->|[]]]];
        try congruence; rewrite ?S21, ?S31, ?S32; naive_solver.
    - assert (E12 := city_graph_edge _ c1 c2 Hnd M1 M2 H12 ltac:(congruence) ltac:(congruence)).
      assert (E13 := city_graph_edge _ c1 c3 Hnd M1 M3 H13 ltac:(congruence) ltac:(congruence)).
      assert (E23 := city_graph_edge _ c2 c3 Hnd M2 M3 H23 ltac:(congruence) ltac:(congruence)).
      fold G in E12, E13, E23. rewrite C1 in E12, E13. rewrite C2 in E23.
      intros [[<- <-]|[_ [[<- <-]|[_ [[<- <-]|[_ [=]]]]]]]; auto. }
  rewrite Hmap.
  rewrite !map_size_insert_None, map_size_empty;
    rewrite ?lookup_insert_ne by assumption;
    first [reflexivity | apply lookup_empty].
Qed.

(** C8.  With customers of distinct ids: two customers of one non-empty city
    are joined by an edge tagged with that city, and there is no other edge,
    so the customers of a city form a complete subgraph; a customer with a
    city is a node; a customer with an empty city is no node and has no edge;
    three customers of one city give exactly 3 edges. *)
Theorem C8_shared_city_graph customers :
  NoDup (customer_id <$> customers) ->
  let G := build_customer_city_graph customers in
  (forall c1 c2,
     c1 ∈ customers -> c2 ∈ customers -> customer_id c1 <> customer_id c2 ->
     city c1 = city c2 -> city c1 <> "" ->
     nx.edges G !! nx.ekey (customer_id c1) (customer_id c2) =
       Some (city_tag (city c1))) /\
  (forall a b e,
     nx.edges G !! nx.ekey a b = Some e ->
     exists c1 c2,
       c1 ∈ customers /\ c2 ∈ customers /\
       customer_id c1 = a /\ customer_id c2 = b /\ a <> b /\
       city c1 = city c2 /\ city c1 <> "" /\ e = city_tag (city c1)) /\
  (forall c, c ∈ customers -> city c <> "" ->
     is_Some (nx.nodes G !! customer_id c)) /\
  (forall c, c ∈ customers -> city c = "" ->
     nx.nodes G !! customer_id c = None /\
     forall x, nx.edges G !! nx.ekey (customer_id c) x = None) /\
  (forall ct c1 c2 c3,
     ct <> "" -> filter (fun c => city c = ct) customers = [c1; c2; c3] ->
     size (filter (fun ke : (Z * Z) * nx.edge_attr => ke.2 = city_tag ct)
             (nx.edges G)) = 3%nat) /\
  (forall c1 c2 c3,
     customers = [c1; c2; c3] ->
     city c1 <> "" -> city c2 = city c1 -> city c3 = city c1 ->
     size (nx.edges G) = 3%nat).
Proof.
  intros Hnd G. split; [|split; [|split; [|split; [|split]]]].
  - intros c1 c2. now apply city_graph_edge.
  - intros a b e. now apply city_graph_edge_inv.
  - intros c Hc Hcity. apply city_graph_node; eauto.
  - intros c Hc Hcity. split.
    + apply eq_None_not_Some. intros (c' & Hc' & Hid & Hcity')%city_graph_node;
        [|exact Hnd].
      now rewrite (customer_unique _ _ _ Hnd Hc' Hc Hid) in Hcity'.
    + intros x.
      destruct (nx.edges G !! nx.ekey (customer_id c) x) as [e|] eqn:E;
        [|reflexivity].
      destruct (city_graph_edge_inv _ _ _ _ Hnd E)
        as (c' & _ & Hc' & _ & Hid & _ & _ & _ & Hcity' & _).
      now rewrite (customer_unique _ _ _ Hnd Hc' Hc Hid) in Hcity'.
  - intros ct c1 c2 c3. now apply three_in_one_city.
  - intros c1 c2 c3 ->. now apply three_in_a_city.
Qed.

Lemma C8_shared_city_graph_witness :
  size (nx.edges (build_customer_city_graph
                    [person 1 "Moscow"; person 2 "Moscow"; person 3 "Moscow"]))
  = 3%nat.
Proof.
  refine (proj2 (proj2 (proj2 (proj2 (proj2
            (C8_shared_city_graph
               [person 1 "Moscow"; person 2 "Moscow"; person 3 "Moscow"] _)))))
            _ _ _ eq_refl _ eq_refl eq_refl).
  - csimpl. repeat constructor; set_solver.
  - discriminate.
Defined.

(** ** Validation of customers *)

Example validation_examples :
  re_match email_pattern "ivan@example.com" = true /\
  re_match email_pattern "test@test" = false /\
  re_match email_pattern "a@b.c" = false /\
  re_match email_pattern "a b@example.com" = false /\
  phone_match sample_unicode (clean sample_unicode "+7(999)123-45-67") = true /\
  clean sample_unicode "+7(999)123-45-67" = bytes_of "+7(999)1234567" /\
  phone_match sample_unicode (clean sample_unicode "89991234567") = true /\
  phone_match sample_unicode (clean sample_unicode "123") = false /\
  phone_match sample_unicode (clean sample_unicode "+7 999 123 45 67 ext. 12") = true /\
  phone_match sample_unicode (code_points "+7-----------") = true /\
  phone_match sample_unicode (clean sample_unicode "+7-----------") = false.
Proof. vm_compute. repeat split. Qed.

(** The characters of strings that are not ASCII: Cyrillic letters, the euro
    sign, a mathematical digit beyond U+FFFF, and a telephone number written
    with Arabic-Indic digits, which [\d] matches. *)
Example code_points_examples :
  code_points "Новый" = [1053; 1086; 1074; 1099; 1081]%N /\
  code_points "a€𝟘" = [97; 8364; 120792]%N /\
  clean sample_unicode "+7 ٠١٢٣٤٥٦٧٨٩" =
    [43; 55; 1632; 1633; 1634; 1635; 1636; 1637; 1638; 1639; 1640; 1641]%N /\
  validate_phone sample_unicode "+7 ٠١٢٣٤٥٦٧٨٩" = Return "+7 ٠١٢٣٤٥٦٧٨٩".
Proof. vm_compute. repeat split. Qed.

(** *** The matcher decides the language *)

Section RegexFacts.
Context {C : Type}.
Implicit Types (r s : regex C) (w u v : list C) (p : C -> bool).

Lemma lang_void w : ~ lang Void w.
Proof. inversion 1. Qed.

Lemma lang_eps_iff w : lang Eps w <-> w = [].
Proof. split; [now inversion 1 | intros ->; constructor]. Qed.

Lemma lang_class_iff p w : lang (Class p) w <-> exists a, w = [a] /\ p a = true.
Proof.
  split; [inversion 1; eauto | intros (a & -> & H); now constructor].
Qed.

Lemma lang_cat_iff r s w :
  lang (Cat r s) w <-> exists u v, w = u ++ v /\ lang r u /\ lang s v.
Proof.
  split; [inversion 1; eauto | intros (u & v & -> & ? & ?); now constructor].
Qed.

Lemma lang_alt_iff r s w : lang (Alt r s) w <-> lang r w \/ lang s w.
Proof.
  split; [inversion 1; auto | intros [?|?]; [now apply lang_alt_l | now apply lang_alt_r]].
Qed.

Lemma nullable_spec r : nullable r = true <-> lang r [].
Proof.
  split.
  - induction r; simpl; try discriminate; intros H.
    + constructor.
    + apply andb_true_iff in H as [? ?]. apply (lang_cat _ _ [] []); auto.
    + apply orb_true_iff in H as [?|?]; [apply lang_alt_l | apply lang_alt_r]; auto.
    + constructor.
  - intros H. remember [] as w eqn:Ew. induction H; simpl; try reflexivity;
      try discriminate.
    + apply app_eq_nil in Ew as [-> ->].
      now rewrite IHlang1, IHlang2 by reflexivity.
    + now rewrite IHlang by assumption.
    + rewrite IHlang by assumption. apply orb_true_r.
Qed.

Lemma lang_star_cons_inv r a w :
  lang (Star r) (a :: w) ->
  exists u v, w = u ++ v /\ lang r (a :: u) /\ lang (Star r) v.
Proof.
  intros H. remember (Star r) as R eqn:ER. remember (a :: w) as x eqn:Ex.
  revert w Ex. induction H; intros w Ex; try discriminate.
  injection ER as ->. destruct u as [|b u]; simpl in Ex.
  - now apply IHlang2.
  - injection Ex as -> <-. eauto.
Qed.

Lemma deriv_spec a r : forall w, lang (deriv a r) w <-> lang r (a :: w).
Proof.
  induction r as [| |p|r IHr s IHs|r IHr s IHs|r IHr]; intros w; simpl.
  - split; inversion 1.
  - split; inversion 1.
  - rewrite lang_class_iff. destruct (p a) eqn:E.
    + rewrite lang_eps_iff. split.
      * intros ->. eauto.
      * now intros (b & [= -> ->] & _).
    + split; [inversion 1|]. intros (b & [= -> ->] & ?). congruence.
  - assert (Hcat : lang (Cat (deriv a r) s) w <->
                   exists u v, w = u ++ v /\ lang r (a :: u) /\ lang s v).
    { rewrite lang_cat_iff. split; intros (u & v & -> & Hu & Hv);
        exists u, v; (split; [reflexivity|]); split; auto; now apply IHr. }
    rewrite (lang_cat_iff r s). destruct (nullable r) eqn:En.
    + rewrite lang_alt_iff, Hcat, IHs. split.
      * intros [(u & v & -> & Hu & Hv)|Hs].
        -- exists (a :: u), v. auto.
        -- exists [], (a :: w). split; [reflexivity|]. split; [|exact Hs].
           now apply nullable_spec.
      * intros ([|b u] & v & E & Hu & Hv); simpl in E.
        -- right. now rewrite E.
        -- injection E as <- ->. left. eauto.
    + rewrite Hcat. split.
      * intros (u & v & -> & Hu & Hv). exists (a :: u), v. auto.
      * intros ([|b u] & v & E & Hu & Hv); simpl in E.
        -- apply nullable_spec in Hu. congruence.
        -- injection E as <- ->. eauto.
  - rewrite !lang_alt_iff, IHr, IHs. reflexivity.
  - rewrite lang_cat_iff. split.
    + intros (u & v & -> & Hu & Hv). apply IHr in Hu.
      now apply (lang_star_cons r (a :: u) v).
    + intros (u & v & -> & Hu & Hv)%lang_star_cons_inv.
      exists u, v. split; [reflexivity|]. split; [now apply IHr | exact Hv].
Qed.

Lemma fullmatch_spec w : forall r, fullmatch r w = true <-> lang r w.
Proof.
  induction w as [|a w IH]; intros r; simpl.
  - apply nullable_spec.
  - rewrite IH. apply deriv_spec.
Qed.

Lemma match_to_end_spec is_newline r (shape : list C -> Prop) w :
  (forall w, lang r w <-> shape w) ->
  match_to_end is_newline r w = true <-> ends_with is_newline shape w.
Proof.
  intros Hshape. unfold match_to_end, ends_with.
  rewrite orb_true_iff, fullmatch_spec, Hshape.
  apply or_iff_compat_l. split.
  - destruct (last w) as [c|] eqn:El; [|discriminate].
    intros [Hc Hm%fullmatch_spec%Hshape]%andb_true_iff.
    apply last_Some in El as [w' ->]. exists w', c.
    split; [reflexivity|]. split; [exact Hc|]. now rewrite removelast_last in Hm.
  - intros (w' & c & -> & Hc & Hw'). rewrite last_snoc, removelast_last.
    apply andb_true_iff. split; [exact Hc|].
    now apply fullmatch_spec, Hshape.
Qed.

(** *** Repetitions of a character class *)

Lemma star_class p w : lang (Star (Class p)) w <-> all_in p w.
Proof.
  unfold all_in. split.
  - intros H. remember (Star (Class p)) as R eqn:ER.
    induction H; try discriminate; [constructor|].
    injection ER as ->. apply Forall_app. split; [|auto].
    apply lang_class_iff in H as (a & -> & Ha). now repeat constructor.
  - induction 1 as [|a w Ha Hw IH]; [constructor|].
    apply (lang_star_cons _ [a] w); [now constructor | exact IH].
Qed.

Lemma power_class p n : forall w,
  lang (power n (Class p)) w <-> length w = n /\ all_in p w.
Proof.
  unfold all_in. induction n as [|n IH]; intros w; simpl.
  - rewrite lang_eps_iff. split.
    + intros ->. split; [reflexivity | constructor].
    + intros [H _]. now destruct w.
  - rewrite lang_cat_iff. split.
    + intros (u & v & -> & (a & -> & Ha)%lang_class_iff & (Hl & Hv)%IH).
      simpl. split; [now rewrite Hl | now constructor].
    + intros [Hl Hw]. destruct w as [|a w]; [discriminate|].
      apply Forall_cons in Hw as [Ha Hw]. exists [a], w.
      split; [reflexivity|]. split; [now constructor|].
      apply IH. split; [now injection Hl | exact Hw].
Qed.

Lemma upto_class p n : forall w,
  lang (upto n (Class p)) w <-> (length w <= n)%nat /\ all_in p w.
Proof.
  unfold all_in. induction n as [|n IH]; intros w; simpl.
  - rewrite lang_eps_iff. split.
    + intros ->. split; [reflexivity | constructor].
    + intros [H _]. destruct w; [reflexivity | simpl in H; lia].
  - rewrite lang_alt_iff, lang_eps_iff, lang_cat_iff. split.
    + intros [->|(u & v & -> & (a & -> & Ha)%lang_class_iff & (Hl & Hv)%IH)].
      * split; [simpl; lia | constructor].
      * simpl. split; [lia | now constructor].
    + intros [Hl Hw]. destruct w as [|a w]; [now left|]. right.
      apply Forall_cons in Hw as [Ha Hw]. exists [a], w.
      split; [reflexivity|]. split; [now constructor|].
      apply IH. simpl in Hl. split; [lia | exact Hw].
Qed.

Lemma between_class p lo hi w :
  (lo <= hi)%nat ->
  lang (between lo hi (Class p)) w <-> (lo <= length w <= hi)%nat /\ all_in p w.
Proof.
  intros Hle. unfold between. rewrite lang_cat_iff. unfold all_in. split.
  - intros (u & v & -> & (Hu & Fu)%power_class & (Hv & Fv)%upto_class).
    rewrite length_app. split; [lia | now apply Forall_app].
  - intros [Hl Hw]. exists (take lo w), (drop lo w).
    split; [now rewrite take_drop|]. split.
    + apply power_class. split; [rewrite length_take; lia | now apply Forall_take].
    + apply upto_class. split; [rewrite length_drop; lia | now apply Forall_drop].
Qed.

Lemma at_least_class p n w :
  lang (at_least n (Class p)) w <-> (n <= length w)%nat /\ all_in p w.
Proof.
  unfold at_least. rewrite lang_cat_iff. unfold all_in. split.
  - intros (u & v & -> & (Hu & Fu)%power_class & Fv%star_class).
    rewrite length_app. split; [lia | now apply Forall_app].
  - intros [Hl Hw]. exists (take n w), (drop n w).
    split; [now rewrite take_drop|]. split.
    + apply power_class. split; [rewrite length_take; lia | now apply Forall_take].
    + apply star_class. now apply Forall_drop.
Qed.

Lemma plus_class p w : lang (plus (Class p)) w <-> w <> [] /\ all_in p w.
Proof.
  unfold plus, all_in. rewrite lang_cat_iff. split.
  - intros (u & v & -> & (a & -> & Ha)%lang_class_iff & Fv%star_class).
    split; [discriminate | now constructor].
  - intros [Hne Hw]. destruct w as [|a w]; [congruence|].
    apply Forall_cons in Hw as [Ha Hw]. exists [a], w.
    split; [reflexivity|]. split; [now constructor | now apply star_class].
Qed.

Lemma all_in_impl (p q : C -> bool) w :
  (forall c, p c = true -> q c = true) -> all_in p w -> all_in q w.
Proof. intros H Hp. unfold all_in in *. eapply Forall_impl; [exact Hp | exact H]. Qed.

Lemma filter_all_in p w : all_in p (List.filter p w).
Proof.
  unfold all_in. apply Forall_forall. intros c Hc.
  apply list_elem_of_In, filter_In in Hc. tauto.
Qed.

End RegexFacts.

Lemma char_iff c w : lang (char c) w <-> w = [c].
Proof.
  unfold char. rewrite lang_class_iff. split.
  - intros (a & -> & ->%Ascii.eqb_eq). reflexivity.
  - intros ->. exists c. split; [reflexivity | apply Ascii.eqb_refl].
Qed.

Lemma point_iff a w : lang (point a) w <-> w = [N_of_ascii a].
Proof.
  unfold point. rewrite lang_class_iff. split.
  - intros (c & -> & ->%N.eqb_eq). reflexivity.
  - intros ->. exists (N_of_ascii a). split; [reflexivity | apply N.eqb_refl].
Qed.

(** *** The two patterns *)

Lemma phone_pattern_shape U w :
  lang (phone_pattern U) w <-> phone_shape (phone_char U) w.
Proof.
  unfold phone_pattern, phone_shape. rewrite lang_cat_iff. split.
  - intros (u & v & -> & Hu & Hv). apply between_class in Hv as [Hl Hv]; [|lia].
    exists v. split; [|auto].
    apply lang_alt_iff in Hu as [Hu|Hu].
    + apply lang_cat_iff in Hu as (x & y & -> & ->%point_iff & ->%point_iff). now left.
    + apply point_iff in Hu as ->. now right.
  - intros (rest & Hw & Hl & Hrest).
    assert (Hb : lang (between 10 15 (Class (phone_char U))) rest)
      by (apply between_class; [lia | auto]).
    destruct Hw as [-> | ->].
    + exists (bytes_of "+7"), rest. split; [reflexivity|]. split; [|exact Hb].
      apply lang_alt_l.
      apply (lang_cat _ _ (bytes_of "+") (bytes_of "7")); now apply point_iff.
    + exists (bytes_of "8"), rest. split; [reflexivity|]. split; [|exact Hb].
      apply lang_alt_r. now apply point_iff.
Qed.

Lemma email_pattern_shape w : lang email_pattern w <-> email_shape w.
Proof.
  unfold email_pattern, email_shape. split.
  - intros (l & w1 & -> & [Hl Fl]%plus_class & H)%lang_cat_iff.
    apply lang_cat_iff in H as (x & w2 & -> & ->%char_iff & H).
    apply lang_cat_iff in H as (d & w3 & -> & [Hd Fd]%plus_class & H).
    apply lang_cat_iff in H as (y & t & -> & ->%char_iff & [Ht Ft]%at_least_class).
    exists l, d, t. repeat split; assumption.
  - intros (l & d & t & -> & Hl & Fl & Hd & Fd & Ht & Ft).
    apply lang_cat; [now apply plus_class|].
    apply (lang_cat _ _ ["@"%char]); [now apply char_iff|].
    apply lang_cat; [now apply plus_class|].
    apply (lang_cat _ _ ["."%char]); [now apply char_iff|].
    now apply at_least_class.
Qed.

Lemma re_match_spec r shape s :
  (forall w, lang r w <-> shape w) ->
  re_match r s = true <-> to_the_end shape s.
Proof.
  intros Hshape. unfold re_match, to_the_end.
  rewrite (match_to_end_spec _ _ shape _ Hshape). unfold ends_with.
  apply or_iff_compat_l. split.
  - intros (w' & c & -> & ->%Ascii.eqb_eq & Hw'). eauto.
  - intros (w' & -> & Hw'). exists w', newline.
    split; [reflexivity|]. split; [apply Ascii.eqb_refl | exact Hw'].
Qed.

Lemma validate_email_spec email :
  (email_ok email /\ validate_email email = Return email) \/
  (~ email_ok email /\ validate_email email = Raise (ValueError bad_email)).
Proof.
  unfold validate_email, email_ok.
  pose proof (re_match_spec email_pattern email_shape email email_pattern_shape) as H.
  destruct (re_match email_pattern email); [left | right]; split;
    try reflexivity.
  - now apply H.
  - intros He. apply H in He. discriminate.
Qed.

(** The shape ends in a letter, so an address that does not end in a line
    feed passes the check exactly when it has the shape. *)
Lemma email_shape_last w :
  email_shape w -> exists c, last w = Some c /\ is_alpha c = true.
Proof.
  intros (l & d & t & -> & _ & _ & _ & _ & Hlen & Ht).
  destruct (last t) as [c|] eqn:El.
  - exists c. split.
    + apply last_Some in El as [t' ->].
      apply last_Some. exists (l ++ "@"%char :: d ++ "."%char :: t').
      rewrite <- !app_assoc. simpl. rewrite <- !app_assoc. reflexivity.
    + apply last_Some in El as [t' ->].
      apply Forall_app in Ht as [_ Hc]. inversion Hc; assumption.
  - apply last_None in El. subst t. simpl in Hlen. lia.
Qed.

Lemma email_ok_matches email :
  last (list_ascii_of_string email) <> Some newline ->
  email_ok email <-> email_matches email.
Proof.
  intros Hlast. unfold email_ok, email_matches, to_the_end. split; [|auto].
  intros [H|(w & Hw & _)]; [exact H|].
  exfalso. apply Hlast. rewrite Hw. apply last_snoc.
Qed.

(** Of the characters that [re.sub] keeps, the class of the pattern holds
    the digits and the two parentheses. *)
Lemma kept_phone_char U c :
  agrees_on_ascii U ->
  kept_char U c = true -> phone_char U c = true -> digit_or_paren U c = true.
Proof.
  intros HU. unfold kept_char, phone_char, digit_or_paren.
  destruct (isdecimal U c) eqn:Hd; [reflexivity|]. simpl.
  unfold among. vm_compute bytes_of. cbn [existsb].
  destruct (N.eqb_spec c 43) as [->|_]; [|destruct (c =? 40)%N, (c =? 41)%N; auto].
  intros _. destruct (HU 43%N eq_refl) as [_ ->]. vm_compute. discriminate.
Qed.

Lemma digit_or_paren_phone_char U c :
  digit_or_paren U c = true -> phone_char U c = true /\ kept_char U c = true.
Proof.
  unfold kept_char, phone_char, digit_or_paren.
  destruct (isdecimal U c); [auto|]. simpl.
  unfold among. vm_compute bytes_of. cbn [existsb].
  destruct (c =? 40)%N, (c =? 41)%N, (c =? 43)%N, (c =? 45)%N; simpl;
    intros H; try discriminate H; split; reflexivity.
Qed.

Lemma newline_not_kept U : agrees_on_ascii U -> kept_char U 10 = false.
Proof.
  intros HU. unfold kept_char. destruct (HU 10%N eq_refl) as [-> _]. reflexivity.
Qed.

Lemma clean_phone_ok U phone :
  agrees_on_ascii U ->
  ends_with (N.eqb 10) (phone_shape (phone_char U)) (clean U phone) <->
  phone_ok U phone.
Proof.
  intros HU. unfold ends_with, phone_ok, clean.
  set (w := List.filter (kept_char U) (code_points phone)).
  assert (Hkept : all_in (kept_char U) w) by apply filter_all_in.
  clearbody w. split.
  - intros [(rest & Hw & Hl & Hrest)|(w' & c & -> & Hc & _)].
    + exists rest. split; [exact Hw|]. split; [exact Hl|].
      assert (Hk : all_in (kept_char U) rest).
      { unfold all_in in *.
        destruct Hw as [-> | ->]; apply Forall_app in Hkept as [_ Hkept];
          exact Hkept. }
      unfold all_in in *. rewrite Forall_forall in *.
      intros c Hc. apply kept_phone_char; auto.
    + unfold all_in in Hkept. apply Forall_app in Hkept as [_ Hn].
      apply Forall_cons in Hn as [Hn _]. apply N.eqb_eq in Hc as <-.
      rewrite newline_not_kept in Hn by exact HU. discriminate.
  - intros (rest & Hw & Hl & Hrest). left. exists rest.
    split; [exact Hw|]. split; [exact Hl|].
    eapply all_in_impl; [|exact Hrest]. intros c Hc.
    now apply digit_or_paren_phone_char.
Qed.

Lemma validate_phone_spec U phone :
  agrees_on_ascii U ->
  (phone_ok U phone /\ validate_phone U phone = Return phone) \/
  (~ phone_ok U phone /\ validate_phone U phone = Raise (ValueError bad_phone)).
Proof.
  intros HU. unfold validate_phone, phone_match.
  pose proof (match_to_end_spec (N.eqb 10) (phone_pattern U)
                (phone_shape (phone_char U)) (clean U phone)
                (phone_pattern_shape U)) as H.
  rewrite (clean_phone_ok U phone HU) in H.
  destruct (match_to_end (N.eqb 10) (phone_pattern U) (clean U phone));
    [left | right]; split; try reflexivity.
  - now apply H.
  - intros Hp. apply H in Hp. discriminate.
Qed.

Lemma sample_unicode_agrees : agrees_on_ascii sample_unicode.
Proof.
  intros c Hc. unfold sample_unicode; simpl. split.
  - destruct (N.leb_spec 1632 c); [lia|]. rewrite andb_false_l. apply orb_false_r.
  - destruct (N.eqb_spec c 160); [lia|]. apply orb_false_r.
Qed.

(** C9, as the code has it.  For an e-mail address that does not end in a
    line feed, construction raises exactly when the address does not have
    the shape [local@domain.tld] or the telephone number, with every
    character other than a digit, [+], [(] and [)] removed, is not [+7] or
    [8] followed by 10 to 15 digits and parentheses; the exception is the
    [ValueError] of the failing check; otherwise the customer is built and
    keeps the e-mail address and the telephone number as they were supplied.
    The digits are the decimal digits of Unicode, whatever the table [U] of
    the interpreter says they are beyond ASCII. *)
Theorem C9_customer_validation U id name email phone address city now :
  agrees_on_ascii U ->
  last (list_ascii_of_string email) <> Some newline ->
  (is_return (Customer_new U id name email phone address city now) = false <->
     ~ email_matches email \/ ~ phone_ok U phone) /\
  (~ email_matches email ->
     Customer_new U id name email phone address city now =
       Raise (ValueError bad_email)) /\
  (email_matches email -> ~ phone_ok U phone ->
     Customer_new U id name email phone address city now =
       Raise (ValueError bad_phone)) /\
  (email_matches email -> phone_ok U phone ->
     Customer_new U id name email phone address city now =
       Return {| customer_id := id; name := name; email := email;
                 phone := phone; address := address; city := city;
                 registration_date := now |}).
Proof.
  intros HU Hlast. unfold Customer_new.
  rewrite <- (email_ok_matches email Hlast).
  destruct (validate_email_spec email) as [[He ->]|[He ->]];
    destruct (validate_phone_spec U phone HU) as [[Hp Ep]|[Hp Ep]];
    rewrite ?Ep; simpl;
    (split; [split; [try discriminate; auto | try reflexivity; tauto]|]);
    repeat split; intros; try reflexivity; contradiction.
Qed.

Lemma C9_customer_validation_witness :
  Customer_new sample_unicode 1 "Ivan" "ivan@example.com" "+7(999)123-45-67"
    "" "Moscow" 0 = Return ivan.
Proof.
  refine (proj2 (proj2 (proj2
            (C9_customer_validation sample_unicode 1 "Ivan" "ivan@example.com"
               "+7(999)123-45-67" "" "Moscow" 0 sample_unicode_agrees _))) _ _).
  - discriminate.
  - apply email_pattern_shape, fullmatch_spec. reflexivity.
  - apply (clean_phone_ok _ _ sample_unicode_agrees),
      (match_to_end_spec _ _ _ _ (phone_pattern_shape sample_unicode)).
    reflexivity.
Defined.

(** The check of the telephone number is made on the cleaned string, not on
    the supplied one: whatever the Unicode tables are, a supplied number that
    matches the pattern is rejected. *)
Lemma C9_supplied_phone_counterexample :
  ~ exists U, agrees_on_ascii U /\
      forall id name email phone address city now,
        is_return (Customer_new U id name email phone address city now) = false <->
        re_match email_pattern email = false \/
        phone_match U (code_points phone) = false.
Proof.
  intros (U & HU & H).
  destruct (H 1 "n" "a@b.co" "+7-----------" "" "" 0) as [H1 _].
  assert (Hno : ~ phone_ok U "+7-----------").
  { intros (rest & Hw & Hl & _). unfold clean in Hw.
    destruct (HU 43%N eq_refl) as [H43 _], (HU 55%N eq_refl) as [H55 _],
      (HU 45%N eq_refl) as [H45 _].
    vm_compute code_points in Hw. unfold kept_char in Hw.
    cbn [List.filter] in Hw. rewrite H43, H55, H45 in Hw.
    vm_compute in Hw. destruct Hw as [[= <-]|[=]]. simpl in Hl. lia. }
  assert (Hraise : is_return (Customer_new U 1 "n" "a@b.co" "+7-----------" "" "" 0)
                   = false).
  { unfold Customer_new. change (validate_email "a@b.co") with (Return "a@b.co").
    destruct (validate_phone_spec U "+7-----------" HU) as [[Hp _]|[_ ->]];
      [contradiction | reflexivity]. }
  destruct (H1 Hraise) as [E|E]; [vm_compute in E; discriminate|].
  assert (Hm : phone_match U (code_points "+7-----------") = true).
  { apply (match_to_end_spec _ _ _ _ (phone_pattern_shape U)). left.
    exists (List.repeat 45%N 11). split; [left; reflexivity|].
    split; [simpl; lia|]. repeat constructor; unfold phone_char;
      apply orb_true_iff; left; apply orb_true_iff; right; reflexivity. }
  congruence.
Qed.

(** * Further properties *)

(** ** Stock and availability *)

Lemma set_stock_same p : set_stock p (stock p) = p.
Proof. now destruct p. Qed.

(** X1.  [is_available(q)] tells whether [update_stock(-q)] will succeed: when
    it holds the call returns [True] and leaves [stock - q]; when it does not
    the call raises and the product stays as it was. *)
Theorem X1_available_iff_stock_update_succeeds p q :
  (is_available p q = true ->
     update_stock (- q) p = (Return true, set_stock p (stock p - q))) /\
  (is_available p q = false ->
     update_stock (- q) p = (Raise (ValueError insufficient_stock), p)).
Proof.
  unfold is_available. split; intros H.
  - apply Z.leb_le in H. rewrite update_stock_return by lia.
    do 2 f_equal; lia.
  - apply Z.leb_gt in H. apply update_stock_raise. lia.
Qed.

Lemma X1_available_iff_stock_update_succeeds_witness :
  update_stock (- 3) laptop = (Return true, set_stock laptop 7) /\
  update_stock (- 11) laptop = (Raise (ValueError insufficient_stock), laptop).
Proof.
  split.
  - exact (proj1 (X1_available_iff_stock_update_succeeds laptop 3) eq_refl).
  - exact (proj2 (X1_available_iff_stock_update_succeeds laptop 11) eq_refl).
Defined.

(** X2.  Two stock updates that both succeed amount to the single update by
    the sum of the two quantities, which succeeds too; and undoing a
    successful update of a product with non-negative stock always succeeds
    and gives the product back. *)
Theorem X2_stock_updates_compose p d1 d2 p1 p2 :
  update_stock d1 p = (Return true, p1) ->
  (update_stock d2 p1 = (Return true, p2) ->
     update_stock (d1 + d2) p = (Return true, p2)) /\
  (0 <= stock p -> update_stock (- d1) p1 = (Return true, p)).
Proof.
  unfold update_stock.
  destruct (Z.ltb_spec (stock p + d1) 0) as [|H1]; [discriminate|].
  intros [= <-]. simpl. split.
  - destruct (Z.ltb_spec (stock p + d1 + d2) 0) as [|H2]; [discriminate|].
    intros [= <-].
    destruct (Z.ltb_spec (stock p + (d1 + d2)) 0); [lia|].
    unfold set_stock. simpl. do 2 f_equal; lia.
  - intros H0. destruct (Z.ltb_spec (stock p + d1 + - d1) 0); [lia|].
    f_equal. destruct p. unfold set_stock. simpl. f_equal; lia.
Qed.

Lemma X2_stock_updates_compose_witness :
  update_stock (-3 + 5) laptop = (Return true, set_stock laptop 12) /\
  update_stock (- -3) (set_stock laptop 7) = (Return true, laptop).
Proof.
  pose proof (X2_stock_updates_compose laptop (-3) 5 (set_stock laptop 7)
                (set_stock laptop 12) eq_refl) as [H1 H2].
  split; [exact (H1 eq_refl) | apply H2; vm_compute; discriminate].
Defined.

(** ** Removing lines *)

Lemma delete_line_None its pid :
  pid ∉ line_ids its -> delete_line its pid = None.
Proof.
  induction its as [|it rest IH]; simpl; [reflexivity|].
  intros [Hne Hrest]%not_elem_of_cons.
  destruct (Z.eqb_spec (item_pid it) pid) as [E|_]; [congruence|].
  now rewrite IH.
Qed.

Lemma delete_line_split its pid :
  pid ∈ line_ids its ->
  exists before it after,
    its = before ++ it :: after /\ item_pid it = pid /\
    (pid ∉ line_ids before) /\ delete_line its pid = Some (before ++ after).
Proof.
  induction its as [|x rest IH]; simpl.
  - intros H. now apply elem_of_nil in H.
  - intros H. destruct (Z.eqb_spec (item_pid x) pid) as [E|Hne].
    + exists [], x, rest. repeat split; try assumption. apply not_elem_of_nil.
    + apply elem_of_cons in H as [H|H]; [congruence|].
      destruct (IH H) as (before & it & after & -> & Hit & Hb & ->).
      exists (x :: before), it, after. repeat split; try assumption.
      simpl. apply not_elem_of_cons. split; [congruence | exact Hb].
Qed.

(** X3.  [remove_item] never raises.  For a product that has no line it
    returns [False] and leaves the order as it was; otherwise it returns
    [True] and deletes the first line of the product, keeping the other lines
    in their order; when the lines have distinct product ids the product is
    then no longer in the order. *)
Theorem X3_remove_item_deletes_first_line self pid :
  (pid ∉ line_ids (items self) -> remove_item pid self = (Return false, self)) /\
  (pid ∈ line_ids (items self) ->
     exists before it after,
       items self = before ++ it :: after /\ item_pid it = pid /\
       (pid ∉ line_ids before) /\
       remove_item pid self = (Return true, set_items self (before ++ after))) /\
  (NoDup (line_ids (items self)) ->
     pid ∉ line_ids (items (snd (remove_item pid self)))).
Proof.
  unfold remove_item. split; [|split].
  - intros H. now rewrite (delete_line_None _ _ H).
  - intros H.
    destruct (delete_line_split _ _ H) as (before & it & after & E & Hit & Hb & ->).
    exists before, it, after. auto.
  - intros Hnd. destruct (decide (pid ∈ line_ids (items self))) as [H|H].
    + destruct (delete_line_split _ _ H) as (before & it & after & E & Hit & Hb & ->).
      simpl. rewrite E in Hnd. unfold line_ids in *.
      rewrite fmap_app, fmap_cons in Hnd.
      apply NoDup_app in Hnd as (_ & Hdisj & [Hit' _]%NoDup_cons).
      rewrite fmap_app, elem_of_app. rewrite Hit in Hit'. tauto.
    + now rewrite (delete_line_None _ _ H).
Qed.

Lemma X3_remove_item_deletes_first_line_witness :
  remove_item 999 (mk_order 1 0 [line laptop 2; line mouse 1]) =
    (Return false, mk_order 1 0 [line laptop 2; line mouse 1]).
Proof.
  refine (proj1 (X3_remove_item_deletes_first_line _ 999) _).
  vm_compute. set_solver.
Defined.

Lemma set_items_same self : set_items self (items self) = self.
Proof. now destruct self. Qed.

Lemma delete_line_last its it :
  item_pid it ∉ line_ids its -> delete_line (its ++ [it]) (item_pid it) = Some its.
Proof.
  induction its as [|x rest IH]; simpl.
  - intros _. now rewrite Z.eqb_refl.
  - intros [Hne Hrest]%not_elem_of_cons.
    destruct (Z.eqb_spec (item_pid x) (item_pid it)); [congruence|].
    now rewrite (IH Hrest).
Qed.

(** X4.  Adding a product that the order does not have yet and removing it
    again gives the order back: [remove_item] returns [True] and the lines
    are those from before [add_item]. *)
Theorem X4_add_then_remove_restores self p q :
  product_id p ∉ line_ids (items self) ->
  is_available p q = true -> 0 < q ->
  fst (add_item p q self) = Return tt /\
  remove_item (product_id p) (snd (add_item p q self)) = (Return true, self).
Proof.
  intros Hout Hav Hq. unfold add_item. rewrite Hav. simpl.
  rewrite (merge_line_None _ _ q Hout). unfold OrderItem_new.
  destruct (Z.leb_spec q 0); [lia|]. simpl. split; [reflexivity|].
  unfold remove_item. simpl.
  set (it := {| product := p; quantity := q; price_at_time := price p |}).
  change (product_id p) with (item_pid it).
  rewrite delete_line_last by exact Hout.
  f_equal. now destruct self.
Qed.

Lemma X4_add_then_remove_restores_witness :
  remove_item 2 (snd (add_item mouse 4 (mk_order 1 0 [line laptop 2]))) =
    (Return true, mk_order 1 0 [line laptop 2]).
Proof.
  refine (proj2 (X4_add_then_remove_restores (mk_order 1 0 [line laptop 2]) mouse 4 _ _ _)).
  - vm_compute. set_solver.
  - reflexivity.
  - reflexivity.
Defined.

(** ** Totals *)

Lemma sumZ_app l1 l2 : sumZ (l1 ++ l2) = sumZ l1 + sumZ l2.
Proof. induction l1 as [|x l1 IH]; simpl; lia. Qed.

Lemma merge_line_sums its pid q its' :
  merge_line its pid q = Some its' ->
  exists it rest,
    lines_of pid its = it :: rest /\
    sumZ (quantity <$> its') = sumZ (quantity <$> its) + q /\
    sumZ (item_total <$> its') = sumZ (item_total <$> its) + price_at_time it * q.
Proof.
  revert its'. induction its as [|x xs IH]; intros its'; simpl; [discriminate|].
  unfold lines_of in *. rewrite filter_cons.
  destruct (Z.eqb_spec (item_pid x) pid) as [E|Hne].
  - intros [= <-]. destruct (decide (item_pid x = pid)); [|contradiction].
    eexists _, _. split; [reflexivity|]. csimpl. unfold item_total. simpl.
    split; lia.
  - destruct (merge_line xs pid q) as [r|]; [|discriminate].
    intros [= <-]. destruct (decide (item_pid x = pid)); [contradiction|].
    destruct (IH r eq_refl) as (it & rest & Hl & Hq & Ht).
    exists it, rest. split; [exact Hl|]. csimpl. split; lia.
Qed.

Lemma add_item_totals self p q self' :
  add_item p q self = (Return tt, self') ->
  get_items_count self' = get_items_count self + q /\
  get_total self' = get_total self + billed_price self p * q.
Proof.
  unfold add_item, get_items_count, get_total, billed_price.
  destruct (negb (is_available p q)); [discriminate|].
  destruct (merge_line (items self) (product_id p) q) as [its'|] eqn:Em.
  - intros [= <-]. simpl.
    destruct (merge_line_sums _ _ _ _ Em) as (it & rest & -> & Hq & Ht).
    split; assumption.
  - unfold OrderItem_new. destruct (q <=? 0); [discriminate|].
    intros [= <-]. simpl. rewrite !fmap_app, !sumZ_app. csimpl.
    assert (Hout : product_id p ∉ line_ids (items self)).
    { intros Hin. destruct (merge_line_found _ _ q Hin) as (? & Hs & _).
      congruence. }
    rewrite (lines_of_absent _ _ Hout). unfold item_total. simpl. split; lia.
Qed.

Lemma add_item_raise self p q e self' :
  add_item p q self = (Raise e, self') -> self' = self.
Proof.
  unfold add_item. destruct (negb (is_available p q)); [now intros [= _ <-]|].
  destruct (merge_line _ _ _); [discriminate|].
  destruct (OrderItem_new p q None); [discriminate | now intros [= _ <-]].
Qed.

(** X5.  A call of [add_item] that returns raises the number of items of the
    order by the quantity and its total by the quantity times the billed unit
    price: the snapshot of the line the order already had for the product,
    the product's current price for a new line.  A call that raises leaves
    the order as it was. *)
Theorem X5_add_item_totals self p q r self' :
  add_item p q self = (r, self') ->
  (r = Return tt ->
     get_items_count self' = get_items_count self + q /\
     get_total self' = get_total self + billed_price self p * q) /\
  (forall e, r = Raise e -> self' = self).
Proof.
  intros H. split.
  - intros ->. now apply add_item_totals.
  - intros e ->. now apply add_item_raise in H.
Qed.

Lemma X5_add_item_totals_witness :
  get_total (snd (add_item (set_stock mouse 9) 3 (mk_order 1 0 [line laptop 2]))) =
    get_total (mk_order 1 0 [line laptop 2]) + 2000 * 3.
Proof.
  exact (proj2 (proj1 (X5_add_item_totals (mk_order 1 0 [line laptop 2])
                         (set_stock mouse 9) 3 _ _ eq_refl) eq_refl)).
Defined.

Lemma delete_line_sums its pid its' :
  delete_line its pid = Some its' ->
  exists it rest,
    lines_of pid its = it :: rest /\
    sumZ (quantity <$> its') = sumZ (quantity <$> its) - quantity it /\
    sumZ (item_total <$> its') = sumZ (item_total <$> its) - item_total it.
Proof.
  revert its'. induction its as [|x xs IH]; intros its' H; simpl in H;
    [discriminate|].
  unfold lines_of in *. rewrite filter_cons, !fmap_cons. simpl sumZ.
  destruct (Z.eqb_spec (item_pid x) pid) as [E|Hne].
  - injection H as <-. destruct (decide (item_pid x = pid)); [|contradiction].
    eexists _, _. split; [reflexivity|]. split; lia.
  - destruct (delete_line xs pid) as [r|]; [|discriminate].
    injection H as <-. destruct (decide (item_pid x = pid)); [contradiction|].
    destruct (IH r eq_refl) as (it & rest & Hl & Hq & Ht).
    exists it, rest. split; [exact Hl|]. rewrite !fmap_cons. simpl sumZ.
    split; lia.
Qed.

(** X6.  [remove_item] lowers the total of the order by the total of the
    first line of the product and the number of items by that line's
    quantity; with no line of the product both stay as they are. *)
Theorem X6_remove_item_totals self pid :
  let self' := snd (remove_item pid self) in
  match lines_of pid (items self) with
  | it :: _ =>
      get_total self' = get_total self - item_total it /\
      get_items_count self' = get_items_count self - quantity it
  | [] => self' = self
  end.
Proof.
  unfold remove_item, get_total, get_items_count.
  destruct (delete_line (items self) pid) as [its'|] eqn:Ed; simpl.
  - destruct (delete_line_sums _ _ _ Ed) as (it & rest & -> & Hq & Ht). auto.
  - destruct (lines_of pid (items self)) as [|it rest] eqn:El; [reflexivity|].
    exfalso. assert (Hin : pid ∈ line_ids (items self)).
    { apply lines_of_nonempty. congruence. }
    destruct (delete_line_split _ _ Hin) as (? & ? & ? & _ & _ & _ & ?).
    congruence.
Qed.

(** ** Filling a sample order *)

Lemma add_item_returns self p q :
  is_available p q = true -> 0 < q -> fst (add_item p q self) = Return tt.
Proof.
  intros Hav Hq. unfold add_item. rewrite Hav. simpl.
  destruct (merge_line _ _ _); [reflexivity|].
  unfold OrderItem_new. destruct (Z.leb_spec q 0); [lia | reflexivity].
Qed.

(** X7.  The guarded pair [add_item]; [update_stock(-quantity)] of the sample
    data loop never raises for a positive quantity.  It moves the quantity
    from the stock of the product into the order, so the stock plus the
    number of items of the order stays the same and the stock stays
    non-negative; a product that is not available is skipped and nothing
    changes. *)
Theorem X7_take_from_stock_conserves order product q :
  0 < q ->
  let r := take_from_stock q (order, product) in
  fst r = Return tt /\
  get_items_count (fst (snd r)) + stock (snd (snd r)) =
    get_items_count order + stock product /\
  (is_available product q = true ->
     stock (snd (snd r)) = stock product - q /\ 0 <= stock (snd (snd r))) /\
  (is_available product q = false -> snd r = (order, product)).
Proof.
  intros Hq. unfold take_from_stock.
  destruct (is_available product q) eqn:Hav; simpl.
  2:{ repeat split; try discriminate; reflexivity. }
  pose proof (add_item_returns order _ _ Hav Hq) as Hret.
  destruct (add_item product q order) as [r order'] eqn:Ea. simpl in Hret.
  subst r. destruct (add_item_totals _ _ _ _ Ea) as [Hcount _].
  unfold is_available in Hav. apply Z.leb_le in Hav.
  rewrite update_stock_return by lia. simpl.
  repeat split; try discriminate; lia.
Qed.

Lemma X7_take_from_stock_conserves_witness :
  get_items_count (fst (snd (take_from_stock 3 (mk_order 1 0 [line laptop 2], laptop))))
  + stock (snd (snd (take_from_stock 3 (mk_order 1 0 [line laptop 2], laptop))))
  = get_items_count (mk_order 1 0 [line laptop 2]) + stock laptop.
Proof.
  refine (proj1 (proj2 (X7_take_from_stock_conserves _ _ 3 _))). reflexivity.
Defined.

(** ** The orders of a customer *)

(** X8.  After any sequence of [add_order] calls a customer has as many more
    orders as there were calls, has spent the total revenue of the added
    orders more, and has its validated attributes unchanged; a customer that
    was just constructed has no orders and has spent nothing. *)
Theorem X8_customer_orders_accumulate self orders :
  let self' := fold_left (fun c o => snd (add_order o c)) orders self in
  get_orders_count self' = get_orders_count self + Z.of_nat (length orders) /\
  get_total_spent self' = get_total_spent self + calculate_total_revenue orders /\
  customer_orders self' = customer_orders self ++ orders /\
  attrs self' = attrs self /\
  (forall U id n e ph a c now new,
      CustomerObj_new U id n e ph a c now = Return new ->
      get_orders_count new = 0 /\ get_total_spent new = 0).
Proof.
  cbv zeta. split; [|split; [|split; [|split]]].
  all: try (revert self; induction orders as [|o os IH]; intros self; simpl;
            [unfold calculate_total_revenue; simpl; rewrite ?app_nil_r; lia || reflexivity|]).
  - rewrite IH. unfold get_orders_count. simpl. rewrite length_app. simpl. lia.
  - rewrite IH. unfold get_total_spent, calculate_total_revenue. simpl.
    rewrite fmap_app, sumZ_app. csimpl. lia.
  - rewrite IH. simpl. now rewrite <- app_assoc.
  - now rewrite IH.
  - intros U id n e ph a c now new. unfold CustomerObj_new.
    destruct (Customer_new U id n e ph a c now); [|discriminate].
    now intros [= <-].
Qed.

Lemma X8_customer_orders_accumulate_witness :
  get_orders_count {| attrs := ivan; customer_orders := [] |} = 0.
Proof.
  refine (proj1 (proj2 (proj2 (proj2 (proj2
            (X8_customer_orders_accumulate {| attrs := ivan; customer_orders := [] |} []))))
            sample_unicode 1 "Ivan" "ivan@example.com" "+7(999)123-45-67" ""
            "Moscow" 0 _ _)).
  vm_compute. reflexivity.
Defined.

(** ** The repository *)

Lemma existsb_id {A} (f : A -> Z) (x : Z) (l : list A) :
  existsb (fun a => f a =? x) l = true <-> x ∈ f <$> l.
Proof.
  induction l as [|a l IH]; csimpl.
  - split; [discriminate | intros H; now apply elem_of_nil in H].
  - rewrite orb_true_iff, IH, elem_of_cons, Z.eqb_eq. intuition congruence.
Qed.

Lemma existsb_id_false {A} (f : A -> Z) (x : Z) (l : list A) :
  existsb (fun a => f a =? x) l = false <-> x ∉ f <$> l.
Proof.
  rewrite <- existsb_id. destruct (existsb _ l); split; congruence.
Qed.

Lemma NoDup_snoc_id {A} (f : A -> Z) (x : A) (l : list A) :
  NoDup (f <$> l) -> f x ∉ f <$> l -> NoDup (f <$> l ++ [x]).
Proof.
  intros Hnd Hx. rewrite fmap_app. apply NoDup_app. split; [exact Hnd|].
  split; [|apply NoDup_singleton].
  intros y Hy [= ->]%list_elem_of_singleton. contradiction.
Qed.

Lemma after_unique_ids self c :
  DataRepository.unique_ids self ->
  DataRepository.unique_ids (DataRepository.after self c).
Proof.
  intros (Hc & Hp & Ho). unfold DataRepository.unique_ids.
  destruct c as [c saved|p|o owner]; simpl.
  - unfold DataRepository.add_customer.
    destruct (existsb _ _) eqn:E; [now repeat split|].
    apply existsb_id_false in E.
    destruct (DataRepository.use_database self); simpl;
      (split; [now apply NoDup_snoc_id | now split]).
  - unfold DataRepository.add_product.
    destruct (existsb _ _) eqn:E; [now repeat split|].
    apply existsb_id_false in E. simpl.
    split; [exact Hc|]. split; [now apply NoDup_snoc_id | exact Ho].
  - unfold DataRepository.add_order.
    destruct (existsb _ _) eqn:E; [now repeat split|].
    apply existsb_id_false in E. simpl.
    split; [exact Hc|]. split; [exact Hp | now apply NoDup_snoc_id].
Qed.

(** X9.  Whatever calls of [add_customer], [add_product] and [add_order] are
    made on a new repository, and whatever the database answers, the
    customers in its cache have distinct ids, and so have the products and
    the orders. *)
Theorem X9_repository_ids_stay_distinct use_database calls :
  DataRepository.unique_ids
    (fold_left DataRepository.after calls (DataRepository.new use_database)).
Proof.
  assert (H0 : DataRepository.unique_ids (DataRepository.new use_database))
    by (repeat split; constructor).
  revert H0. generalize (DataRepository.new use_database).
  induction calls as [|c calls IH]; intros self H; simpl; [exact H|].
  now apply IH, after_unique_ids.
Qed.

(** X10.  [add_customer] refuses a customer whose id is in the cache: it
    returns [False] and changes nothing.  A customer with a new id is put in
    the cache before the database is tried, so when the save fails the call
    returns [False] although the customer is now cached, and every later
    [add_customer] of that customer is refused as a duplicate whatever the
    database would answer.  Without a database the call returns [True]. *)
Theorem X10_add_customer_caches_before_saving self c saved :
  (customer_id c ∈ customer_id <$> DataRepository._customers self ->
     DataRepository.add_customer c saved self = (Return false, self)) /\
  (customer_id c ∉ customer_id <$> DataRepository._customers self ->
     let r := DataRepository.add_customer c saved self in
     DataRepository._customers (snd r) = DataRepository._customers self ++ [c] /\
     fst r = Return (if DataRepository.use_database self then saved else true) /\
     forall saved',
       DataRepository.add_customer c saved' (snd r) = (Return false, snd r)).
Proof.
  unfold DataRepository.add_customer. split.
  - intros Hin. apply existsb_id in Hin. now rewrite Hin.
  - intros Hout. pose proof Hout as E. apply existsb_id_false in E.
    rewrite E. cbv zeta.
    assert (Hdup : existsb (fun c0 => customer_id c0 =? customer_id c)
                     (DataRepository._customers self ++ [c]) = true).
    { apply existsb_id. rewrite fmap_app, elem_of_app.
      right. csimpl. apply list_elem_of_singleton. reflexivity. }
    destruct (DataRepository.use_database self); simpl;
      (split; [reflexivity|]); (split; [reflexivity|]);
      intros saved'; now rewrite Hdup.
Qed.

Lemma X10_add_customer_caches_before_saving_witness :
  fst (DataRepository.add_customer ivan false (DataRepository.new true)) = Return false /\
  DataRepository._customers
    (snd (DataRepository.add_customer ivan false (DataRepository.new true))) = [ivan].
Proof.
  destruct (proj2 (X10_add_customer_caches_before_saving
                     (DataRepository.new true) ivan false)) as (H1 & H2 & _).
  - simpl. apply not_elem_of_nil.
  - split; [exact H2 | exact H1].
Defined.

(** X11.  [add_order] of an order whose id is new returns [True], puts the
    order at the end of the cached orders and at the end of the orders of its
    customer, who then has one order more and has spent the total of the
    order more; the total revenue of the cached orders grows by the same
    amount.  An order whose id is in the cache is refused: the call returns
    [False] and neither the repository nor the customer changes. *)
Theorem X11_add_order_records_once self owner order :
  let r := DataRepository.add_order order (self, owner) in
  (order_id order ∈ order_id <$> DataRepository._orders self ->
     r = (Return false, (self, owner))) /\
  (order_id order ∉ order_id <$> DataRepository._orders self ->
     fst r = Return true /\
     DataRepository._orders (fst (snd r)) = DataRepository._orders self ++ [order] /\
     customer_orders (snd (snd r)) = customer_orders owner ++ [order] /\
     get_orders_count (snd (snd r)) = get_orders_count owner + 1 /\
     get_total_spent (snd (snd r)) = get_total_spent owner + get_total order /\
     calculate_total_revenue (DataRepository._orders (fst (snd r))) =
       calculate_total_revenue (DataRepository._orders self) + get_total order).
Proof.
  unfold DataRepository.add_order. cbv zeta. split.
  - intros Hin. apply existsb_id in Hin. now rewrite Hin.
  - intros Hout. apply existsb_id_false in Hout. rewrite Hout. simpl.
    unfold get_orders_count, get_total_spent, calculate_total_revenue. simpl.
    rewrite !fmap_app, !sumZ_app, length_app. csimpl.
    repeat split; lia.
Qed.

Lemma X11_add_order_records_once_witness :
  fst (DataRepository.add_order (mk_order 1 0 [line laptop 2])
         (DataRepository.new false, {| attrs := ivan; customer_orders := [] |}))
  = Return true.
Proof.
  refine (proj1 (proj2 (X11_add_order_records_once _ _ _) _)).
  simpl. apply not_elem_of_nil.
Defined.

(** ** Factorial *)

(** X12.  [factorial] raises for a negative argument and returns [n!] for
    every other one. *)
Theorem X12_factorial_is_factorial n :
  factorial n = if decide (n < 0) then None
                else Some (Z.of_nat (fact (Z.to_nat n))).
Proof.
  funelim (factorial n).
  - destruct (decide (n < 0)); [reflexivity | contradiction].
  - destruct (decide (n < 0)); [contradiction|].
    match goal with H : _ \/ _ |- _ => destruct H as [-> | ->] end; reflexivity.
  - destruct (decide (n < 0)); [contradiction|].
    match goal with IH : factorial _ = _ |- _ => rewrite IH end.
    destruct (decide (n - 1 < 0)); [lia|]. simpl. f_equal.
    replace (Z.to_nat n) with (S (Z.to_nat (n - 1))) by lia.
    change (fact (S (Z.to_nat (n - 1))))
      with (S (Z.to_nat (n - 1)) * fact (Z.to_nat (n - 1)))%nat.
    rewrite Nat2Z.inj_mul. f_equal. lia.
Qed.

(** ** Orders built through their methods *)

Lemma merge_line_Forall (P : OrderItem -> Prop) its pid q its' :
  (forall it, P it -> P (add_quantity it q)) ->
  merge_line its pid q = Some its' -> Forall P its -> Forall P its'.
Proof.
  intros Hadd. revert its'.
  induction its as [|x xs IH]; intros its'; simpl; [discriminate|].
  destruct (item_pid x =? pid).
  - intros [= <-] [Hx Hxs]%Forall_cons. constructor; auto.
  - destruct (merge_line xs pid q) as [r|]; [|discriminate].
    intros [= <-] [Hx Hxs]%Forall_cons. constructor; auto.
Qed.

Lemma delete_line_Forall (P : OrderItem -> Prop) its pid its' :
  delete_line its pid = Some its' -> Forall P its -> Forall P its'.
Proof.
  revert its'. induction its as [|x xs IH]; intros its'; simpl; [discriminate|].
  destruct (item_pid x =? pid).
  - now intros [= <-] [Hx Hxs]%Forall_cons.
  - destruct (delete_line xs pid) as [r|]; [|discriminate].
    intros [= <-] [Hx Hxs]%Forall_cons. constructor; auto.
Qed.

Lemma order_after_lines self c :
  well_formed_call c ->
  Forall (fun it => 0 < quantity it /\ 0 <= price_at_time it) (items self) ->
  Forall (fun it => 0 < quantity it /\ 0 <= price_at_time it)
    (items (order_after self c)).
Proof.
  intros Hc Hall. destruct c as [p q|pid]; simpl in *.
  - destruct Hc as [Hq Hp]. unfold add_item.
    destruct (negb (is_available p q)); [exact Hall|].
    destruct (merge_line (items self) (product_id p) q) as [its'|] eqn:E.
    + simpl. eapply merge_line_Forall; [|exact E|exact Hall].
      intros it [? ?]. simpl. split; [lia | assumption].
    + unfold OrderItem_new. destruct (q <=? 0); [exact Hall|]. simpl.
      apply Forall_app. split; [exact Hall|]. repeat constructor; simpl; lia.
  - unfold remove_item.
    destruct (delete_line (items self) pid) as [its'|] eqn:E; [|exact Hall].
    simpl. eapply delete_line_Forall; eassumption.
Qed.

Lemma order_after_unique_lines self c :
  NoDup (line_ids (items self)) -> NoDup (line_ids (items (order_after self c))).
Proof.
  destruct c; simpl; [apply add_item_unique_lines | apply remove_item_unique_lines].
Qed.

(** X13.  An order that starts empty and is changed only by [add_item] calls
    with a positive quantity of products with a non-negative price, and by
    [remove_item] calls, has one line for each product id, a positive
    quantity and a non-negative price snapshot in every line, and so a total
    that is not negative and at least as many items as lines, whichever of
    the calls raised. *)
Theorem X13_orders_built_by_positive_calls oid c d now calls :
  Forall well_formed_call calls ->
  let o := fold_left order_after calls (Order_new oid c d now) in
  NoDup (line_ids (items o)) /\
  Forall (fun it => 0 < quantity it /\ 0 <= price_at_time it) (items o) /\
  0 <= get_total o /\
  Z.of_nat (length (items o)) <= get_items_count o.
Proof.
  intros Hcalls. cbv zeta.
  assert (H : NoDup (line_ids (items (Order_new oid c d now))) /\
              Forall (fun it => 0 < quantity it /\ 0 <= price_at_time it)
                (items (Order_new oid c d now)))
    by (split; constructor).
  revert H. generalize (Order_new oid c d now).
  induction Hcalls as [|call calls Hcall Hcalls IH]; intros o [Hnd Hall]; simpl.
  - split; [exact Hnd|]. split; [exact Hall|].
    unfold get_total, get_items_count.
    induction Hall as [|it its [Hq Hp] Hits IHits]; csimpl; [lia|].
    apply NoDup_cons in Hnd as [_ Hnd]. destruct (IHits Hnd) as [IH1 IH2].
    assert (0 <= item_total it) by (unfold item_total; nia).
    cbn [length]. split; lia.
  - apply IH. split; [now apply order_after_unique_lines|].
    now apply order_after_lines.
Qed.

Lemma X13_orders_built_by_positive_calls_witness :
  0 <= get_total
         (fold_left order_after [AddItem laptop 2; AddItem mouse 30; RemoveItem 1]
            (Order_new 1 ivan None 0)).
Proof.
  refine (proj1 (proj2 (proj2
            (X13_orders_built_by_positive_calls 1 ivan None 0
               [AddItem laptop 2; AddItem mouse 30; RemoveItem 1] _)))).
  repeat constructor; simpl; lia.
Defined.

(** ** Merging and sorting *)

Lemma merge_perm lhs rhs reverse :
  merge_two_sorted_lists lhs rhs reverse ≡ₚ lhs ++ rhs.
Proof.
  funelim (merge_two_sorted_lists lhs rhs reverse).
  - reflexivity.
  - now rewrite app_nil_r.
  - simpl. now constructor.
  - rewrite H. simpl. rewrite <- Permutation_middle. apply Permutation_swap.
Qed.

(** X14.  [merge_two_sorted_lists] returns a permutation of the elements of
    its two arguments, whatever they are, and returns the other list when one
    is empty.  When both lists are sorted by total in the direction asked
    for, so is the result, and among orders of equal total those of the left
    list come first, each list keeping its own order. *)
Theorem X14_merge_two_sorted_lists lhs rhs reverse :
  merge_two_sorted_lists lhs rhs reverse ≡ₚ lhs ++ rhs /\
  merge_two_sorted_lists lhs [] reverse = lhs /\
  merge_two_sorted_lists [] rhs reverse = rhs /\
  (sorted_by get_total reverse lhs -> sorted_by get_total reverse rhs ->
     sorted_by get_total reverse (merge_two_sorted_lists lhs rhs reverse) /\
     forall k, group get_total k (merge_two_sorted_lists lhs rhs reverse) =
               group get_total k lhs ++ group get_total k rhs).
Proof.
  split; [apply merge_perm|]. split; [|split].
  - destruct lhs; now simp merge_two_sorted_lists.
  - now simp merge_two_sorted_lists.
  - intros Hl Hr. split; [now apply merge_sorted|].
    intros k. now apply merge_group.
Qed.

Lemma X14_merge_two_sorted_lists_witness :
  sorted_by get_total false
    (merge_two_sorted_lists
       [mk_order 1 0 [line mouse 1]; mk_order 2 0 [line laptop 1]]
       [mk_order 3 0 [line mouse 1]] false).
Proof.
  refine (proj1 (proj2 (proj2 (proj2 (X14_merge_two_sorted_lists _ _ false))) _ _)).
  - unfold sorted_by. repeat constructor; vm_compute; discriminate.
  - unfold sorted_by. repeat constructor.
Defined.

Lemma reference_sort_perm key reverse l : reference_sort key reverse l ≡ₚ l.
Proof.
  induction l as [|x l IH]; simpl; [reflexivity|].
  rewrite <- IH at 2. generalize (reference_sort key reverse l). clear.
  intros l. induction l as [|y l IH]; simpl; [reflexivity|].
  destruct (decide (in_order reverse (key x) (key y))); [reflexivity|].
  rewrite IH. apply Permutation_swap.
Qed.

Lemma quicksort_reference orders reverse :
  quicksort_orders_by_date orders reverse = reference_sort order_date reverse orders.
Proof.
  exact (proj1 (is_reference_sort order_date reverse
                  (fun l => quicksort_orders_by_date l reverse)
                  (fun l => quicksort_sorted l reverse)
                  (fun l k => quicksort_group k l reverse) orders)).
Qed.

Lemma merge_sort_reference orders reverse :
  merge_sort_orders_by_total orders reverse = reference_sort get_total reverse orders.
Proof.
  exact (proj1 (is_reference_sort get_total reverse
                  (fun l => merge_sort_orders_by_total l reverse)
                  (fun l => merge_sort_sorted l reverse)
                  (fun l k => merge_sort_group k l reverse) orders)).
Qed.

(** X15.  Each of the two sorting functions returns a permutation of its
    input, of the same length, in which every order comes before the orders
    with a later key (an earlier one when [reverse]). *)
Theorem X15_sorts_permute_and_order orders reverse :
  quicksort_orders_by_date orders reverse ≡ₚ orders /\
  sorted_by order_date reverse (quicksort_orders_by_date orders reverse) /\
  merge_sort_orders_by_total orders reverse ≡ₚ orders /\
  sorted_by get_total reverse (merge_sort_orders_by_total orders reverse) /\
  length (quicksort_orders_by_date orders reverse) = length orders /\
  length (merge_sort_orders_by_total orders reverse) = length orders.
Proof.
  assert (Hq : quicksort_orders_by_date orders reverse ≡ₚ orders)
    by (rewrite quicksort_reference; apply reference_sort_perm).
  assert (Hm : merge_sort_orders_by_total orders reverse ≡ₚ orders)
    by (rewrite merge_sort_reference; apply reference_sort_perm).
  repeat split; try assumption.
  - apply quicksort_sorted.
  - apply merge_sort_sorted.
  - now rewrite Hq.
  - now rewrite Hm.
Qed.

Lemma sorted_by_reverse key l :
  sorted_by key false l -> sorted_by key true (reverse l).
Proof.
  unfold sorted_by. induction 1 as [|x l Hl IH Hx]; [constructor|].
  rewrite reverse_cons. apply StronglySorted_app. split; [|split].
  - intros y z Hy ->%list_elem_of_singleton.
    rewrite elem_of_reverse in Hy.
    rewrite Forall_forall in Hx. exact (Hx _ Hy).
  - exact IH.
  - repeat constructor.
Qed.

Lemma group_distinct_keys key k l :
  NoDup (key <$> l) -> (length (group key k l) <= 1)%nat.
Proof.
  induction l as [|x l IH]; csimpl; [intros _; simpl; lia|].
  intros [Hx Hnd]%NoDup_cons. rewrite group_cons.
  destruct (decide (key x = k)) as [<-|Hne]; [|auto].
  assert (Hnil : group key (key x) l = []).
  { apply elem_of_nil_inv. intros y [Hk Hy]%elem_of_group.
    apply Hx. rewrite <- Hk. now apply list_elem_of_fmap_2. }
  rewrite Hnil. simpl. lia.
Qed.

Lemma descending_is_reversed key l :
  NoDup (key <$> l) ->
  reference_sort key true l = reverse (reference_sort key false l).
Proof.
  intros Hnd. apply (stable_sort_unique key true).
  - apply reference_sort_sorted.
  - apply sorted_by_reverse, reference_sort_sorted.
  - intros k. unfold group at 2. rewrite filter_reverse.
    fold (group key k (reference_sort key false l)).
    rewrite !reference_sort_group.
    pose proof (group_distinct_keys key k l Hnd) as Hlen.
    destruct (group key k l) as [|x [|y g]]; simpl in Hlen; try lia; reflexivity.
Qed.

(** X16.  When no two orders have the same date, sorting by date with
    [reverse=True] gives the mirror image of sorting with [reverse=False],
    and likewise for sorting by total when no two totals are equal.  With
    equal keys it does not: two orders of the same date, or of the same
    total, come out in their input order in both directions. *)
Theorem X16_descending_mirrors_ascending orders :
  (NoDup (order_date <$> orders) ->
     quicksort_orders_by_date orders true =
       reverse (quicksort_orders_by_date orders false)) /\
  (NoDup (get_total <$> orders) ->
     merge_sort_orders_by_total orders true =
       reverse (merge_sort_orders_by_total orders false)) /\
  (forall a b reverse,
      (order_date a = order_date b ->
         quicksort_orders_by_date [a; b] reverse = [a; b]) /\
      (get_total a = get_total b ->
         merge_sort_orders_by_total [a; b] reverse = [a; b])).
Proof.
  split; [|split].
  - intros H. rewrite !quicksort_reference. now apply descending_is_reversed.
  - intros H. rewrite !merge_sort_reference. now apply descending_is_reversed.
  - intros a b reverse. split; intros E.
    + rewrite quicksort_reference. simpl.
      destruct (decide (in_order reverse (order_date a) (order_date b))) as [|N];
        [reflexivity|].
      exfalso. apply N. rewrite E. apply in_order_refl.
    + rewrite merge_sort_reference. simpl.
      destruct (decide (in_order reverse (get_total a) (get_total b))) as [|N];
        [reflexivity|].
      exfalso. apply N. rewrite E. apply in_order_refl.
Qed.

Lemma X16_descending_mirrors_ascending_witness :
  quicksort_orders_by_date [mk_order 1 15 []; mk_order 2 10 []; mk_order 3 20 []] true =
  reverse (quicksort_orders_by_date
             [mk_order 1 15 []; mk_order 2 10 []; mk_order 3 20 []] false).
Proof.
  refine (proj1 (X16_descending_mirrors_ascending _) _).
  csimpl. repeat constructor; set_solver.
Defined.

(** ** Sales dynamics, row by row *)

Lemma group_order_counts p o rows :
  sumZ (Sales.orders_count <$> group_order p o rows) =
    sumZ (Sales.orders_count <$> rows) + 1.
Proof.
  induction rows as [|r rs IH]; simpl.
  - lia.
  - destruct (period_index p <? period_index (Sales.period r)); csimpl; [lia|].
    destruct (period_index p =? period_index (Sales.period r)); csimpl;
      [|rewrite IH]; simpl; lia.
Qed.

(** X17.  The order counts of the rows of [get_sales_dynamics] add up to the
    number of orders; and for orders whose item counts fit in 64 bits and
    add up, period by period, to a number that fits in 64 bits, the item
    counts of the rows add up to the number of items of all orders. *)
Theorem X17_sales_dynamics_conserves_counts orders period :
  sumZ (Sales.orders_count <$> get_sales_dynamics orders period) =
    Z.of_nat (length orders) /\
  (no_overflow get_items_count period orders ->
   sumZ (Sales.total_items <$> get_sales_dynamics orders period) =
     sumZ (get_items_count <$> orders)).
Proof.
  split.
  - assert (H : forall key os rows,
               sumZ (Sales.orders_count <$>
                       fold_left (fun rows o => group_order (key o) o rows) os rows) =
                 sumZ (Sales.orders_count <$> rows) + Z.of_nat (length os)).
    { intros key os. induction os as [|o os IH]; intros rows; csimpl; [lia|].
      rewrite IH, group_order_counts. lia. }
    rewrite sales_dynamics_fold, H. simpl. lia.
  - apply column_adds_up. intros r Hr.
    destruct (sales_dynamics_row orders period r Hr) as (o & os & Hin & _ & _ & Hit).
    eauto.
Qed.

Lemma X17_sales_dynamics_conserves_counts_witness :
  sumZ (Sales.total_items <$> get_sales_dynamics test_orders "monthly") =
  sumZ (get_items_count <$> test_orders).
Proof.
  apply (proj2 (X17_sales_dynamics_conserves_counts test_orders "monthly")).
  unfold no_overflow, fits_int64. repeat constructor; vm_compute; discriminate.
Defined.

(** X18.  For orders whose totals and item counts fit in 64 bits, the rows
    of [get_sales_dynamics] come in strictly ascending order of the period;
    every row stands for a period that has orders, and holds the number of
    the orders of that period and the sums of their totals and of their item
    counts as 64-bit integers, which are the exact sums when these fit in 64
    bits; and every order's period has a row. *)
Theorem X18_sales_dynamics_rows orders period :
  Forall (fun o => fits_int64 (get_total o) /\ fits_int64 (get_items_count o))
    orders ->
  ascending_periods (get_sales_dynamics orders period) /\
  Forall (fun r =>
            exists o os,
              orders_in period (Sales.period r) orders = o :: os /\
              Sales.orders_count r = Z.of_nat (length (o :: os)) /\
              Sales.total_revenue r = int64 (sumZ (get_total <$> o :: os)) /\
              Sales.total_items r = int64 (sumZ (get_items_count <$> o :: os)))
         (get_sales_dynamics orders period) /\
  Forall (fun o =>
            exists r, r ∈ get_sales_dynamics orders period /\
                      Sales.period r = order_period period o)
         orders /\
  (forall x, fits_int64 x -> int64 x = x).
Proof.
  intros Hfit. rewrite Forall_forall in Hfit.
  split; [apply sales_dynamics_ascending|]. split; [|split].
  - apply Forall_forall. intros r Hr.
    destruct (sales_dynamics_row orders period r Hr)
      as (o & os & Hin & Hn & Hrev & Hit).
    assert (Ho : o ∈ orders_in period (Sales.period r) orders) by (rewrite Hin; left).
    apply (list_elem_of_filter (fun o => order_period period o = Sales.period r))
      in Ho as [_ Ho].
    destruct (Hfit o Ho) as [Ht Hi].
    exists o, os. rewrite Hrev, Hit, !fmap_cons. cbn [sumZ].
    rewrite !sum64_spec by assumption. auto.
  - apply Forall_forall. intros o Ho. apply sales_dynamics_cover, Ho.
  - apply int64_id.
Qed.

Lemma X18_sales_dynamics_rows_witness :
  ascending_periods (get_sales_dynamics test_orders "daily") /\
  length (get_sales_dynamics test_orders "daily") = 3%nat.
Proof.
  split; [|reflexivity].
  refine (proj1 (X18_sales_dynamics_rows test_orders "daily" _)).
  unfold fits_int64. repeat constructor; vm_compute; discriminate.
Defined.

(** ** Product statistics, in total *)

Lemma sumZ_perm l l' : l ≡ₚ l' -> sumZ l = sumZ l'.
Proof. induction 1; simpl; lia. Qed.

Lemma record_line_sums st item :
  sumZ ((fun e => ProductSales.revenue e.2) <$> record_line st item) =
    sumZ ((fun e => ProductSales.revenue e.2) <$> st) + item_total item /\
  sumZ ((fun e => ProductSales.quantity e.2) <$> record_line st item) =
    sumZ ((fun e => ProductSales.quantity e.2) <$> st) + quantity item /\
  sumZ ((fun e => ProductSales.orders e.2) <$> record_line st item) =
    sumZ ((fun e => ProductSales.orders e.2) <$> st) + 1.
Proof.
  induction st as [|[k s] st (IH1 & IH2 & IH3)]; cbn [record_line].
  - rewrite !fmap_cons. simpl. lia.
  - destruct (k =? item_pid item); rewrite !fmap_cons; cbn [sumZ snd].
    + unfold count_line; cbn [ProductSales.revenue ProductSales.quantity
        ProductSales.orders]. lia.
    + rewrite IH1, IH2, IH3. lia.
Qed.

Lemma fold_record_line_sums lines : forall st,
  sumZ ((fun e => ProductSales.revenue e.2) <$> fold_left record_line lines st) =
    sumZ ((fun e => ProductSales.revenue e.2) <$> st) + sumZ (item_total <$> lines) /\
  sumZ ((fun e => ProductSales.quantity e.2) <$> fold_left record_line lines st) =
    sumZ ((fun e => ProductSales.quantity e.2) <$> st) + sumZ (quantity <$> lines) /\
  sumZ ((fun e => ProductSales.orders e.2) <$> fold_left record_line lines st) =
    sumZ ((fun e => ProductSales.orders e.2) <$> st) + Z.of_nat (length lines).
Proof.
  induction lines as [|item lines IH]; intros st.
  - simpl. lia.
  - cbn [fold_left]. destruct (IH (record_line st item)) as (-> & -> & ->).
    destruct (record_line_sums st item) as (-> & -> & ->).
    rewrite !fmap_cons. cbn [sumZ length]. lia.
Qed.

Lemma record_line_nonempty st item : record_line st item <> [].
Proof.
  destruct st as [|[k s] st]; simpl; [discriminate|].
  destruct (k =? item_pid item); discriminate.
Qed.

Lemma fold_record_line_nil lines : forall st,
  fold_left record_line lines st = [] <-> lines = [] /\ st = [].
Proof.
  induction lines as [|item lines IH]; intros st; simpl.
  - split; [auto | intros [_ H]; exact H].
  - rewrite IH. split; [|intros [H _]; discriminate].
    intros [_ H]. exfalso. exact (record_line_nonempty _ _ H).
Qed.

Lemma all_lines_sums orders :
  sumZ (item_total <$> all_lines orders) = sumZ (get_total <$> orders) /\
  sumZ (quantity <$> all_lines orders) = sumZ (get_items_count <$> orders).
Proof.
  unfold all_lines. induction orders as [|o os [IH1 IH2]]; csimpl; [split; reflexivity|].
  rewrite !fmap_app, !sumZ_app, IH1, IH2. split; reflexivity.
Qed.

(** X19.  With a [sort_values] that permutes the rows,
    [get_product_sales_stats] raises [KeyError] exactly on orders that have
    no line at all; otherwise it returns a frame with at least one row whose
    revenues add up to [calculate_total_revenue] of the orders, whose
    quantities add up to the items of all orders and whose order counts add
    up to the number of lines. *)
Theorem X19_product_sales_stats_totals sort_values orders :
  sorts_by_revenue sort_values ->
  match get_product_sales_stats sort_values orders with
  | Raise e => e = KeyError "revenue" /\ all_lines orders = []
  | Return rows =>
      all_lines orders <> [] /\ rows <> [] /\
      sumZ (ProductSales.row_revenue <$> rows) = calculate_total_revenue orders /\
      sumZ (ProductSales.quantity_sold <$> rows) = sumZ (get_items_count <$> orders) /\
      sumZ (ProductSales.orders_count <$> rows) = Z.of_nat (length (all_lines orders))
  end.
Proof.
  intros Hsort. unfold get_product_sales_stats, product_stats, calculate_total_revenue.
  rewrite product_stats_all_lines.
  destruct (all_lines_sums orders) as [<- <-].
  destruct (fold_record_line_sums (all_lines orders) []) as (Hr & Hq & Ho).
  pose proof (fold_record_line_nil (all_lines orders) []) as Hnil.
  set (st := fold_left record_line (all_lines orders) []) in *.
  destruct (Hsort (stats_row <$> st)) as [Hperm _].
  destruct (stats_row <$> st) as [|r0 data] eqn:Edata.
  - apply fmap_nil_inv in Edata. split; [reflexivity|]. apply Hnil, Edata.
  - rewrite <- Edata in *. split; [|split].
    + intros Hlines. assert (Hst : st = []) by (apply Hnil; auto).
      rewrite Hst in Edata. discriminate.
    + intros Hrows. rewrite Hrows in Hperm. symmetry in Hperm.
      apply Permutation_nil_r in Hperm. rewrite Hperm in Edata. discriminate.
    + rewrite !(sumZ_perm _ _ (fmap_Permutation _ _ _ Hperm)).
      rewrite <- !list_fmap_compose.
      change (ProductSales.row_revenue ∘ stats_row)
        with (fun e : Z * ProductSales.stats => ProductSales.revenue e.2).
      change (ProductSales.quantity_sold ∘ stats_row)
        with (fun e : Z * ProductSales.stats => ProductSales.quantity e.2).
      change (ProductSales.orders_count ∘ stats_row)
        with (fun e : Z * ProductSales.stats => ProductSales.orders e.2).
      rewrite Hr, Hq, Ho. simpl. auto.
Qed.

Lemma X19_product_sales_stats_totals_witness :
  sorts_by_revenue insertion_sort_values /\
  match get_product_sales_stats insertion_sort_values test_orders with
  | Raise e => e = KeyError "revenue" /\ all_lines test_orders = []
  | Return rows =>
      all_lines test_orders <> [] /\ rows <> [] /\
      sumZ (ProductSales.row_revenue <$> rows) = calculate_total_revenue test_orders /\
      sumZ (ProductSales.quantity_sold <$> rows) =
        sumZ (get_items_count <$> test_orders) /\
      sumZ (ProductSales.orders_count <$> rows) =
        Z.of_nat (length (all_lines test_orders))
  end.
Proof.
  split; [exact insertion_sort_values_sorts|].
  apply (X19_product_sales_stats_totals insertion_sort_values test_orders).
  exact insertion_sort_values_sorts.
Defined.

(** ** The purchase graph: what it does not depend on, and its nodes *)

Lemma purchased_perm orders orders' c :
  orders ≡ₚ orders' -> purchased orders c = purchased orders' c.
Proof.
  intros Hperm. apply set_eq. intros p.
  rewrite !elem_of_purchased, !elem_of_purchases.
  split; intros (o & it & Ho & H); exists o, it; split; try exact H.
  - rewrite <- Hperm. exact Ho.
  - rewrite Hperm. exact Ho.
Qed.

Lemma product_graph_key customers orders k e :
  nx.edges (build_customer_product_graph customers orders) !! k = Some e ->
  exists a b, k = nx.ekey a b.
Proof.
  unfold build_customer_product_graph.
  rewrite (product_edges _ _ _ 0%nat)
    by (rewrite add_nodes_edges; apply lookup_empty).
  destruct (filter _ _) as [|c l] eqn:E; [discriminate|]. intros _.
  assert (Hc : c ∈ c :: l) by left. rewrite <- E in Hc.
  apply (list_elem_of_filter (fun c => pair_key c = k)) in Hc as [<- _].
  exists c.1, c.2. reflexivity.
Qed.

(** X20.  The edges of the purchase graph and their weights depend neither
    on the order of the orders nor on the list of customers given to the
    analyzer. *)
Theorem X20_purchase_graph_edges_order_free customers customers' orders orders' :
  orders ≡ₚ orders' ->
  nx.edges (build_customer_product_graph customers orders) =
  nx.edges (build_customer_product_graph customers' orders').
Proof.
  intros Hperm. apply map_eq. intros k.
  assert (Hsame : forall a b,
            nx.edges (build_customer_product_graph customers orders) !! nx.ekey a b =
            nx.edges (build_customer_product_graph customers' orders') !! nx.ekey a b).
  { intros a b. rewrite !product_graph_edge.
    rewrite (purchased_perm _ _ a Hperm), (purchased_perm _ _ b Hperm). reflexivity. }
  destruct (nx.edges (build_customer_product_graph customers orders) !! k) as [e|] eqn:E.
  - destruct (product_graph_key _ _ _ _ E) as (a & b & ->).
    rewrite <- Hsame. exact (eq_sym E).
  - destruct (nx.edges (build_customer_product_graph customers' orders') !! k)
      as [e'|] eqn:E'; [|reflexivity].
    destruct (product_graph_key _ _ _ _ E') as (a & b & ->).
    rewrite <- Hsame in E'. congruence.
Qed.

Lemma X20_purchase_graph_edges_order_free_witness :
  nx.edges (build_customer_product_graph [person 1 "Moscow"]
              [order_of 1 (person 1 "Moscow") [line laptop 1];
               order_of 2 (person 2 "Moscow") [line laptop 3]]) =
  nx.edges (build_customer_product_graph []
              [order_of 2 (person 2 "Moscow") [line laptop 3];
               order_of 1 (person 1 "Moscow") [line laptop 1]]).
Proof.
  apply X20_purchase_graph_edges_order_free. apply perm_swap.
Defined.

Lemma add_nodes_lookup customers n : forall G,
  nx.nodes (fold_left (fun G c => nx.add_node (customer_id c) (name c) (city c) G)
              customers G) !! n =
    match last (with_id n customers) with
    | Some c => Some (named c)
    | None => nx.nodes G !! n
    end.
Proof.
  unfold with_id. induction customers as [|c cs IH]; intros G; [reflexivity|].
  cbn [fold_left]. rewrite IH, filter_cons.
  destruct (decide (customer_id c = n)) as [<-|Hne].
  - rewrite last_cons. destruct (last (filter _ cs)); [reflexivity|].
    simpl. rewrite lookup_insert_eq. reflexivity.
  - destruct (last (filter _ cs)); [reflexivity|].
    simpl. rewrite lookup_insert_ne by exact Hne. reflexivity.
Qed.

Lemma with_id_nil n customers :
  n ∉ customer_id <$> customers -> with_id n customers = [].
Proof.
  intros Hn. unfold with_id. induction customers as [|c cs IH]; [reflexivity|].
  rewrite fmap_cons, not_elem_of_cons in Hn. destruct Hn as [Hne Hn].
  rewrite filter_cons_False by congruence. auto.
Qed.

Lemma touch_lookup m ns n :
  nx.touch m ns !! n =
    match ns !! n with
    | Some a => Some a
    | None => if decide (n = m) then Some nx.no_attr else None
    end.
Proof.
  unfold nx.touch. destruct (ns !! m) as [a|] eqn:E.
  - destruct (ns !! n) eqn:E'; [reflexivity|].
    destruct (decide (n = m)) as [->|]; [congruence | reflexivity].
  - destruct (decide (n = m)) as [->|Hne].
    + rewrite lookup_insert_eq, E. reflexivity.
    + rewrite lookup_insert_ne by congruence. destruct (ns !! n); reflexivity.
Qed.

Lemma link_nodes G c n :
  closed G ->
  nx.nodes (link G c) !! n =
    match nx.nodes G !! n with
    | Some a => Some a
    | None => if decide (endpoint n c) then Some nx.no_attr else None
    end.
Proof.
  intros Hclosed. unfold link, nx.has_edge, endpoint. case_bool_decide as He; simpl.
  - destruct (Hclosed _ _ He) as [[a1 H1] [a2 H2]].
    destruct (nx.nodes G !! n) eqn:E; [reflexivity|].
    destruct (decide (n = c.1 \/ n = c.2)) as [[->| ->]|]; [congruence.. | reflexivity].
  - rewrite !touch_lookup. destruct (nx.nodes G !! n); [reflexivity|].
    destruct (decide (n = c.1)), (decide (n = c.2)),
      (decide (n = c.1 \/ n = c.2)); try reflexivity; tauto.
Qed.

Lemma link_closed G c : closed G -> closed (link G c).
Proof.
  intros Hclosed u v. rewrite link_edges, !(link_nodes _ _ _ Hclosed).
  unfold pair_key, endpoint. destruct (decide (nx.ekey c.1 c.2 = nx.ekey u v)) as [Hk|Hk].
  - intros _. apply ekey_eq in Hk.
    split.
    + destruct (nx.nodes G !! u); [eauto|].
      destruct (decide (u = c.1 \/ u = c.2)); [eauto | exfalso; intuition congruence].
    + destruct (nx.nodes G !! v); [eauto|].
      destruct (decide (v = c.1 \/ v = c.2)); [eauto | exfalso; intuition congruence].
  - intros [Hu Hv]%Hclosed. destruct Hu as [? ->], Hv as [? ->]. eauto.
Qed.

Lemma links_nodes ps n : forall G,
  closed G ->
  closed (fold_left link ps G) /\
  nx.nodes (fold_left link ps G) !! n =
    match nx.nodes G !! n with
    | Some a => Some a
    | None => if decide (Exists (endpoint n) ps) then Some nx.no_attr else None
    end.
Proof.
  induction ps as [|c ps IH]; intros G Hclosed; cbn [fold_left].
  - split; [exact Hclosed|]. destruct (nx.nodes G !! n); [reflexivity|].
    destruct (decide _) as [H|]; [inversion H | reflexivity].
  - destruct (IH (link G c) (link_closed _ _ Hclosed)) as [Hc ->].
    split; [exact Hc|]. rewrite (link_nodes _ _ _ Hclosed).
    destruct (nx.nodes G !! n); [reflexivity|].
    destruct (decide (endpoint n c)) as [Hn|Hn].
    + destruct (decide (Exists (endpoint n) (c :: ps))) as [|Hno]; [reflexivity|].
      exfalso. apply Hno. left. exact Hn.
    + destruct (decide (Exists (endpoint n) ps)) as [Hp|Hp],
               (decide (Exists (endpoint n) (c :: ps))) as [Hq|Hq];
        try reflexivity; exfalso.
      * apply Hq. right. exact Hp.
      * apply Exists_cons in Hq as [?|?]; contradiction.
Qed.

Lemma product_graph_endpoint customers orders n :
  Exists (endpoint n) (product_customers orders ≫= fun e : Z * list Z => pairs e.2) <->
  exists m, is_Some (nx.edges (build_customer_product_graph customers orders)
                       !! nx.ekey n m).
Proof.
  assert (Hedge : forall k,
            is_Some (nx.edges (build_customer_product_graph customers orders) !! k) <->
            exists c, c ∈ (product_customers orders ≫= fun e : Z * list Z => pairs e.2) /\
                      pair_key c = k).
  { intros k. unfold build_customer_product_graph.
    rewrite (product_edges _ _ _ 0%nat)
      by (rewrite add_nodes_edges; apply lookup_empty).
    simpl. split.
    - destruct (filter _ _) as [|c l] eqn:E; [intros [? [=]]|]. intros _.
      assert (Hc : c ∈ c :: l) by left. rewrite <- E in Hc.
      apply (list_elem_of_filter (fun c => pair_key c = k)) in Hc as [Hk Hc].
      exists c. auto.
    - intros (c & Hc & Hk).
      assert (Hc' : c ∈ filter (fun c => pair_key c = k)
                      (product_customers orders ≫= fun e : Z * list Z => pairs e.2)).
      { apply (list_elem_of_filter (fun c => pair_key c = k)). auto. }
      destruct (filter _ _) as [|c' l]; [inversion Hc' | simpl; eauto]. }
  rewrite Exists_exists. split.
  - intros (c & Hc & [->| ->]).
    + exists c.2. apply Hedge. exists c. auto.
    + exists c.1. apply Hedge. exists c. split; [exact Hc | apply ekey_sym].
  - intros (m & (c & Hc & Hk)%Hedge). exists c. split; [exact Hc|].
    apply ekey_eq in Hk. unfold endpoint. intuition congruence.
Qed.

(** X21.  The nodes of the purchase graph.  A customer of the list given to
    the analyzer is a node that carries the name and the city of the last
    customer of the list with that id.  An id that only occurs in the orders
    is a node as soon as it has an edge, and that node has neither a name nor
    a city; without an edge it is no node at all. *)
Theorem X21_purchase_graph_nodes customers orders n :
  let G := build_customer_product_graph customers orders in
  (forall c, last (with_id n customers) = Some c ->
             nx.nodes G !! n = Some (named c)) /\
  (n ∉ customer_id <$> customers ->
   forall m, is_Some (nx.edges G !! nx.ekey n m) ->
             nx.nodes G !! n = Some nx.no_attr) /\
  (n ∉ customer_id <$> customers ->
   (forall m, nx.edges G !! nx.ekey n m = None) ->
   nx.nodes G !! n = None).
Proof.
  intros G.
  assert (Hn : nx.nodes G !! n =
               match last (with_id n customers) with
               | Some c => Some (named c)
               | None =>
                   if decide (Exists (endpoint n)
                                (product_customers orders ≫=
                                   fun e : Z * list Z => pairs e.2))
                   then Some nx.no_attr else None
               end).
  { unfold G, build_customer_product_graph.
    rewrite <- (fold_left_bind link (fun e : Z * list Z => pairs e.2)).
    match goal with |- context [fold_left link ?ps ?G0] =>
      destruct (links_nodes ps n G0) as [_ ->] end.
    - intros u v. rewrite add_nodes_edges. cbn [nx.edges nx.empty].
      rewrite lookup_empty. intros [? [=]].
    - rewrite add_nodes_lookup. cbn [nx.nodes nx.empty]. rewrite lookup_empty.
      destruct (last (with_id n customers)); reflexivity. }
  split; [|split].
  - intros c Hc. rewrite Hn, Hc. reflexivity.
  - intros Hout m Hm. rewrite Hn, (with_id_nil _ _ Hout). simpl.
    destruct (decide _) as [|Hno]; [reflexivity|].
    exfalso. apply Hno, (product_graph_endpoint customers). eauto.
  - intros Hout Hnone. rewrite Hn, (with_id_nil _ _ Hout). simpl.
    destruct (decide _) as [Hyes|]; [|reflexivity].
    apply (product_graph_endpoint customers) in Hyes as [m [e He]].
    fold G in He. rewrite Hnone in He. discriminate.
Qed.

Lemma X21_purchase_graph_nodes_witness :
  nx.nodes (build_customer_product_graph [person 1 "Moscow"; person 1 "Kazan"]
              shared_orders) !! 1 = Some (named (person 1 "Kazan")) /\
  nx.nodes (build_customer_product_graph [person 1 "Moscow"] shared_orders) !! 2 =
    Some nx.no_attr /\
  nx.nodes (build_customer_product_graph [person 1 "Moscow"] shared_orders) !! 3 =
    None.
Proof.
  split; [|split].
  - apply (proj1 (X21_purchase_graph_nodes
                    [person 1 "Moscow"; person 1 "Kazan"] shared_orders 1)).
    reflexivity.
  - refine (proj1 (proj2 (X21_purchase_graph_nodes
                            [person 1 "Moscow"] shared_orders 2)) _ 1 _).
    + set_solver.
    + rewrite product_graph_edge.
      destruct (decide _) as [|Hno]; [eauto|].
      exfalso. apply Hno. split; [discriminate|]. intros Hempty.
      assert (H : 1 ∈ purchased shared_orders 2 ∩ purchased shared_orders 1).
      { rewrite elem_of_intersection, !elem_of_purchased.
        vm_compute purchases. set_solver. }
      rewrite Hempty in H. set_solver.
  - refine (proj2 (proj2 (X21_purchase_graph_nodes
                            [person 1 "Moscow"] shared_orders 3)) _ _);
      [set_solver|].
    intros m. rewrite product_graph_edge.
    destruct (decide _) as [[Hm Hne]|]; [|reflexivity].
    exfalso. apply Hne. apply set_eq. intros p.
    rewrite elem_of_intersection, !elem_of_purchased.
    vm_compute purchases. rewrite !elem_of_cons, !elem_of_nil.
    split; [|set_solver]. intros [H3 H]. exfalso.
    destruct_or!; simplify_eq; done.
Defined.

(** ** The city graph: how many edges, and what the nodes carry *)

Lemma pairs_keys_NoDup l : NoDup l -> NoDup (pair_key <$> pairs l).
Proof.
  induction 1 as [|x xs Hx Hxs IH]; simpl; [constructor|].
  rewrite fmap_app. apply NoDup_app. split; [|split].
  - rewrite <- list_fmap_compose. apply NoDup_fmap_2_strong; [|exact Hxs].
    intros y y' _ _ Hk. unfold pair_key in Hk. simpl in Hk.
    apply ekey_eq in Hk. intuition congruence.
  - intros k (p & -> & (y & -> & Hy)%list_elem_of_fmap)%list_elem_of_fmap.
    intros ([a b] & Hk & Hab)%list_elem_of_fmap.
    apply elem_of_pairs in Hab as [Ha Hb].
    unfold pair_key in Hk. simpl in Hk. apply ekey_eq in Hk.
    destruct Hk as [[-> _]|[-> _]]; contradiction.
  - exact IH.
Qed.

Lemma pairs_length {A} (f : Z * Z -> A) (l : list Z) :
  (2 * length (f <$> pairs l) = length l * (length l - 1))%nat.
Proof.
  rewrite length_fmap. induction l as [|x xs IH]; simpl; [reflexivity|].
  rewrite length_app, length_fmap. destruct xs as [|y ys]; simpl in *; lia.
Qed.

Lemma city_tag_inj ct ct' : city_tag ct = city_tag ct' -> ct = ct'.
Proof. intros [= ->]. reflexivity. Qed.

Lemma city_edges_map customers ct :
  NoDup (customer_id <$> customers) -> ct <> "" ->
  edges_of_city ct (build_customer_city_graph customers) =
  list_to_map ((fun p => (pair_key p, city_tag ct)) <$> pairs (ids_in ct customers)).
Proof.
  intros Hnd Hct.
  assert (Hkeys : NoDup ((fun p => (pair_key p, city_tag ct)) <$>
                           pairs (ids_in ct customers)).*1).
  { rewrite <- list_fmap_compose.
    apply (pairs_keys_NoDup _ (ids_in_NoDup ct _ Hnd)). }
  apply map_eq. intros k. apply option_eq. intros e. unfold edges_of_city.
  rewrite map_lookup_filter_Some, <- (elem_of_list_to_map _ _ _ Hkeys),
    list_elem_of_fmap. simpl. split.
  - intros [Hk ->].
    destruct (city_graph_key_inv _ _ _ Hnd Hk)
      as (c1 & c2 & Hc1 & Hc2 & -> & Hne & Hcity & _ & Htag).
    apply city_tag_inj in Htag. subst ct.
    assert (H1 : customer_id c1 ∈ ids_in (city c1) customers)
      by (apply elem_of_ids_in; eauto).
    assert (H2 : customer_id c2 ∈ ids_in (city c1) customers)
      by (apply elem_of_ids_in; eauto).
    destruct (pairs_complete _ _ _ H1 H2 Hne) as [Hp|Hp]; eexists; (split; [|exact Hp]).
    + reflexivity.
    + unfold pair_key. simpl. rewrite ekey_sym. reflexivity.
  - intros ([a b] & [= -> ->] & Hp). split; [|reflexivity].
    pose proof (pairs_distinct _ _ _ (ids_in_NoDup ct _ Hnd) Hp) as Hne.
    apply elem_of_pairs in Hp as [Ha Hb].
    apply elem_of_ids_in in Ha as (c1 & Hc1 & <- & Hcity1).
    apply elem_of_ids_in in Hb as (c2 & Hc2 & <- & Hcity2).
    unfold pair_key. simpl. rewrite <- Hcity1.
    apply city_graph_edge; congruence.
Qed.

(** X22.  In the city graph of customers with distinct ids, a city with [n]
    customers has [n (n - 1) / 2] edges: one for every two of its
    customers. *)
Theorem X22_city_graph_edges_per_city customers ct :
  NoDup (customer_id <$> customers) -> ct <> "" ->
  (2 * size (edges_of_city ct (build_customer_city_graph customers)) =
   length (ids_in ct customers) * (length (ids_in ct customers) - 1))%nat.
Proof.
  intros Hnd Hct. rewrite (city_edges_map _ _ Hnd Hct), map_size_list_to_map.
  - apply pairs_length.
  - rewrite <- list_fmap_compose.
    apply (pairs_keys_NoDup _ (ids_in_NoDup ct _ Hnd)).
Qed.

Lemma X22_city_graph_edges_per_city_witness :
  (2 * size (edges_of_city "Moscow"
               (build_customer_city_graph
                  [person 1 "Moscow"; person 2 "Kazan"; person 3 "Moscow";
                   person 4 "Moscow"; person 5 "Moscow"])) = 4 * (4 - 1))%nat.
Proof.
  refine (X22_city_graph_edges_per_city
            [person 1 "Moscow"; person 2 "Kazan"; person 3 "Moscow";
             person 4 "Moscow"; person 5 "Moscow"] "Moscow" _ _).
  - csimpl. repeat constructor; set_solver.
  - discriminate.
Defined.

Lemma group_by_city_nodes customers n : forall st,
  nx.nodes (fold_left
              (fun st c =>
                 if decide (city c = "") then st
                 else (note_city st.1 (city c) (customer_id c),
                       nx.add_node (customer_id c) (name c) (city c) st.2))
              customers st).2 !! n =
    match last (located n customers) with
    | Some c => Some (named c)
    | None => nx.nodes st.2 !! n
    end.
Proof.
  unfold located. induction customers as [|c cs IH]; intros st; [reflexivity|].
  cbn [fold_left]. rewrite IH, filter_cons.
  destruct (decide (city c = "")) as [Hcity|Hcity].
  - destruct (decide (customer_id c = n /\ city c <> "")) as [[_ ?]|_];
      [contradiction | reflexivity].
  - destruct (decide (customer_id c = n /\ city c <> "")) as [[<- _]|Hno].
    + rewrite last_cons. destruct (last (filter _ cs)); [reflexivity|].
      simpl. rewrite lookup_insert_eq. reflexivity.
    + destruct (last (filter _ cs)); [reflexivity|].
      simpl. rewrite lookup_insert_ne by tauto. reflexivity.
Qed.

Lemma tag_links_keep ws n a : forall G,
  nx.nodes G !! n = Some a -> nx.nodes (fold_left tag_link ws G) !! n = Some a.
Proof.
  induction ws as [|w ws IH]; intros G H; [exact H|].
  cbn [fold_left]. apply IH. unfold tag_link. simpl.
  rewrite !touch_lookup, H. reflexivity.
Qed.

(** X23.  The nodes of the city graph of customers with distinct ids are the
    customers that have a city, and each of them carries the name and the
    city of its customer: unlike the purchase graph, the city graph has no
    node without attributes. *)
Theorem X23_city_graph_nodes customers n a :
  NoDup (customer_id <$> customers) ->
  nx.nodes (build_customer_city_graph customers) !! n = Some a <->
  exists c, c ∈ customers /\ customer_id c = n /\ city c <> "" /\ a = named c.
Proof.
  intros Hnd.
  assert (Hnode : forall c, c ∈ customers -> city c <> "" ->
            nx.nodes (build_customer_city_graph customers) !! customer_id c =
              Some (named c)).
  { intros c Hc Hcity. rewrite city_graph_links. apply tag_links_keep.
    unfold group_by_city. rewrite group_by_city_nodes.
    destruct (last (located (customer_id c) customers)) as [c'|] eqn:El.
    - assert (Hc' : c' ∈ located (customer_id c) customers).
      { apply last_Some in El as [l' ->]. apply elem_of_app. right. left. }
      apply (list_elem_of_filter
               (fun c' => customer_id c' = customer_id c /\ city c' <> ""))
        in Hc' as [[Hid _] Hc'].
      rewrite (customer_unique _ _ _ Hnd Hc' Hc Hid). reflexivity.
    - exfalso. apply last_None in El.
      assert (Hin : c ∈ located (customer_id c) customers).
      { apply (list_elem_of_filter
                 (fun c' => customer_id c' = customer_id c /\ city c' <> "")).
        auto. }
      rewrite El in Hin. inversion Hin. }
  split.
  - intros Ha.
    assert (Hsome : is_Some (nx.nodes (build_customer_city_graph customers) !! n))
      by eauto.
    apply (city_graph_node _ _ Hnd) in Hsome as (c & Hc & <- & Hcity).
    exists c. rewrite (Hnode c Hc Hcity) in Ha. injection Ha as <-. auto.
  - intros (c & Hc & <- & Hcity & ->). apply Hnode; assumption.
Qed.

Lemma X23_city_graph_nodes_witness :
  nx.nodes (build_customer_city_graph [person 1 "Moscow"; person 2 ""]) !! 1 =
    Some (named (person 1 "Moscow")) <->
  exists c, c ∈ [person 1 "Moscow"; person 2 ""] /\ customer_id c = 1 /\
            city c <> "" /\ named (person 1 "Moscow") = named c.
Proof.
  apply (X23_city_graph_nodes [person 1 "Moscow"; person 2 ""] 1).
  csimpl. repeat constructor; set_solver.
Defined.

(** ** What the e-mail check lets through *)

Lemma chars_append s t :
  list_ascii_of_string (String.append s t) =
  list_ascii_of_string s ++ list_ascii_of_string t.
Proof. induction s as [|c s IH]; simpl; [reflexivity | now rewrite IH]. Qed.

Lemma validate_email_ok email :
  validate_email email = Return email <-> email_ok email.
Proof.
  destruct (validate_email_spec email) as [[Hok ->]|[Hno ->]].
  - tauto.
  - split; [discriminate | contradiction].
Qed.

Lemma no_at (p : ascii -> bool) l :
  p "@"%char = false -> all_in p l -> filter (fun c => c = "@"%char) l = [].
Proof.
  intros Hp. induction 1 as [|c l Hc _ IH]; [reflexivity|].
  rewrite filter_cons_False; [exact IH|]. intros ->. congruence.
Qed.

Lemma email_shape_one_at w :
  email_shape w -> length (filter (fun c => c = "@"%char) w) = 1%nat.
Proof.
  intros (l & d & t & -> & _ & Hl & _ & Hd & _ & Ht).
  rewrite filter_app, filter_cons_True by reflexivity.
  rewrite filter_app, filter_cons_False by discriminate.
  rewrite (no_at local_char l), (no_at domain_char d), (no_at is_alpha t);
    try assumption; reflexivity.
Qed.

(** X24.  An e-mail address that [Person._validate_email] accepts holds
    exactly one ["@"]. *)
Theorem X24_accepted_email_has_one_at email :
  validate_email email = Return email -> count_at email = 1%nat.
Proof.
  intros [Hshape|(w & Hw & Hshape)]%validate_email_ok; unfold count_at.
  - apply email_shape_one_at, Hshape.
  - rewrite Hw, filter_app, length_app, (email_shape_one_at _ Hshape).
    rewrite filter_cons_False by discriminate. reflexivity.
Qed.

Lemma X24_accepted_email_has_one_at_witness :
  count_at "ivan@example.com" = 1%nat.
Proof.
  apply X24_accepted_email_has_one_at. reflexivity.
Defined.

(** X25.  [Person._validate_email] accepts an address followed by one line
    feed exactly when it accepts the address itself, for an address that does
    not end in a line feed already: the [$] of the pattern matches before a
    final line feed, and the line feed is kept in the value returned. *)
Theorem X25_email_with_final_newline email :
  last (list_ascii_of_string email) <> Some newline ->
  validate_email (with_newline email) = Return (with_newline email) <->
  validate_email email = Return email.
Proof.
  intros Hlast. rewrite !validate_email_ok. unfold email_ok, to_the_end, with_newline.
  rewrite chars_append. simpl. split.
  - intros [Hshape|(w & Hw & Hshape)].
    + apply email_shape_last in Hshape as (c & Hc & Halpha).
      rewrite last_snoc in Hc. injection Hc as <-. discriminate.
    + apply app_inj_tail in Hw as [-> _]. left. exact Hshape.
  - intros [Hshape|(w & Hw & _)].
    + right. eauto.
    + exfalso. apply Hlast. rewrite Hw. apply last_snoc.
Qed.

Lemma X25_email_with_final_newline_witness :
  validate_email (with_newline "ivan@example.com") =
    Return (with_newline "ivan@example.com") <->
  validate_email "ivan@example.com" = Return "ivan@example.com".
Proof.
  apply X25_email_with_final_newline. discriminate.
Defined.
